(** * tensorflow-rl: sequence-decoding A3C learner, Atari wrapper, layers, stats

    A shallow embedding of the four Python units

      - [utils/stats.py]
      - [networks/layers.py]
      - [environments/atari_environment.py]
      - [algorithms/sequence_decoder_actor_learner.py]

    Python floats are binary64 and are modelled by Rocq's primitive floats;
    a single-precision number of TensorFlow is held as the binary64 number
    of the same value.  Calls into TensorFlow, NumPy's random generator and
    gym are parameters of the sections below. *)

From Stdlib Require Import String.
From Stdlib Require Import List ZArith Bool Lia Arith.
From Stdlib Require Import Floats.
Import ListNotations.

#[global] Set Warnings "-inexact-float".

Set Implicit Arguments.

(* ------------------------------------------------------------------ *)
(** * Python outcomes: a value, a raised exception, or no answer yet   *)
(* ------------------------------------------------------------------ *)

Module Py.

Inductive exn : Type :=
| IndexError
| NameError
| AttributeError
| ValueError
| ZeroDivisionError
| UnregisteredEnv (id : string)
| UnsupportedActionSpace (type_name : string).

(** [Diverge] is what a loop answers when its fuel is used up. *)
Inductive outcome (A : Type) : Type :=
| Ret (a : A)
| Raise (e : exn)
| Diverge.

Arguments Ret {A} a.
Arguments Raise {A} e.
Arguments Diverge {A}.

Definition bind {A B} (m : outcome A) (k : A -> outcome B) : outcome B :=
  match m with
  | Ret a => k a
  | Raise e => Raise e
  | Diverge => Diverge
  end.

Definition of_option {A} (e : exn) (o : option A) : outcome A :=
  match o with
  | Some a => Ret a
  | None => Raise e
  end.

Lemma bind_Ret_inv {A B} (m : outcome A) (k : A -> outcome B) b :
  bind m k = Ret b -> exists a, m = Ret a /\ k a = Ret b.
Proof.
  destruct m as [a| |]; simpl; intros E; try discriminate.
  exists a; split; [reflexivity | exact E].
Qed.

(** Python's [l[-1] = v] on a list or 1-d array that is not empty. *)
Definition set_last {A} (l : list A) (v : A) : list A :=
  match l with
  | [] => []
  | _ => removelast l ++ [v]
  end.

(** [l[i]] with Python's negative indices. *)
Definition index {A} (l : list A) (i : Z) : outcome A :=
  let n := Z.of_nat (length l) in
  let j := if (i <? 0)%Z then (i + n)%Z else i in
  if (j <? 0)%Z then Raise IndexError
  else of_option IndexError (nth_error l (Z.to_nat j)).

(** [range(n)] as a list of integers. *)
Definition range (n : Z) : list Z :=
  map Z.of_nat (seq 0 (Z.to_nat n)).

Lemma set_last_app {A} (l : list A) (x v : A) :
  set_last (l ++ [x]) v = l ++ [v].
Proof.
  unfold set_last. destruct (l ++ [x]) eqn:E.
  - destruct l; discriminate E.
  - rewrite <- E, removelast_last. reflexivity.
Qed.

Lemma set_last_idem {A} (l : list A) (v : A) :
  set_last (set_last l v) v = set_last l v.
Proof.
  destruct l as [|x l]; [reflexivity|].
  unfold set_last at 2 3. apply set_last_app.
Qed.

(** [x in l] for strings. *)
Definition str_in (x : string) (l : list string) : bool :=
  existsb (String.eqb x) l.

Lemma str_in_spec (x : string) (l : list string) :
  str_in x l = true <-> In x l.
Proof.
  unfold str_in. rewrite existsb_exists. split.
  - intros [y [Hy E]]. apply String.eqb_eq in E. subst y. exact Hy.
  - intros Hx. exists x. split; [exact Hx | apply String.eqb_refl].
Qed.

Lemma range_length (n : Z) : length (range n) = Z.to_nat n.
Proof. unfold range. rewrite length_map, length_seq. reflexivity. Qed.

Lemma index_range (n i : Z) :
  (0 <= i < n)%Z -> index (range n) i = Ret i.
Proof.
  intros Hi. unfold index.
  destruct (Z.ltb_spec i 0) as [Hneg|_]; [lia|].
  destruct (Z.ltb_spec i 0) as [Hneg|_]; [lia|].
  unfold range. rewrite nth_error_map.
  rewrite nth_error_seq.
  destruct (Nat.ltb_spec (Z.to_nat i) (Z.to_nat n)) as [_|Hge]; [|lia].
  simpl. rewrite Z2Nat.id by lia. reflexivity.
Qed.

End Py.

Declare Scope py_scope.
Delimit Scope py_scope with py.
Notation "x <- m ;; k" := (Py.bind m (fun x => k))
(at level 61, m at next level, right associativity) : py_scope.
Notation "' p <- m ;; k" := (Py.bind m (fun x => match x with p => k end))
(at level 61, p pattern, m at next level, right associativity) : py_scope.

(* ------------------------------------------------------------------ *)
(** * utils/stats.py                                                   *)
(* ------------------------------------------------------------------ *)

Module Stats.

Section Divergence.

(** The element type of the arrays and NumPy's operations on it.  The
    arrays are flattened: two arrays of one shape are two lists of one
    length, and every binary operation is elementwise. [asum] is
    [ndarray.sum()], whose order of summation is NumPy's own. *)
Variable num : Type.
Variables add mul div : num -> num -> num.
Variable log : num -> num.
Variable asum : list num -> num.
Variables half eps : num.

Fixpoint elementwise (f : num -> num -> num) (P Q : list num) : list num :=
  match P, Q with
  | p :: P', q :: Q' => f p q :: elementwise f P' Q'
  | _, _ => []
  end.

(** [(P * np.log((P + eps) / (Q + eps))).sum()] *)
Definition kl_divergence (P Q : list num) : num :=
  asum (elementwise (fun p q => mul p (log (div (add p eps) (add q eps)))) P Q).

(** [M = 0.5 * (P + Q)]; [0.5 * (kl_divergence(P, M) + kl_divergence(Q, M))] *)
Definition jenson_shannon_divergence (P Q : list num) : num :=
  let M := map (mul half) (elementwise add P Q) in
  mul half (add (kl_divergence P M) (kl_divergence Q M)).

(** Addition that does not depend on the order of its operands; it need
    not be associative. *)
Hypothesis add_comm : forall x y, add x y = add y x.

Lemma elementwise_add_comm (P Q : list num) :
  elementwise add P Q = elementwise add Q P.
Proof.
  revert Q; induction P as [|p P IH]; intros [|q Q]; simpl; try reflexivity.
  rewrite (add_comm p q), (IH Q); reflexivity.
Qed.

(** The midpoint [M] is the same array either way, and the two
    Kullback-Leibler terms are only added in the other order. *)
Lemma jenson_shannon_divergence_comm (P Q : list num) :
  jenson_shannon_divergence P Q = jenson_shannon_divergence Q P.
Proof.
  unfold jenson_shannon_divergence.
  rewrite (elementwise_add_comm Q P).
  rewrite (add_comm (kl_divergence Q _) (kl_divergence P _)).
  reflexivity.
Qed.

End Divergence.

(** ** Arrays of binary64 floats *)

(** Addition of floats as IEEE 754 specifies it is commutative. *)
Lemma SF64add_comm (x y : spec_float) : SF64add x y = SF64add y x.
Proof.
  unfold SF64add, SFadd.
  destruct x as [sx|sx| |sx mx ex], y as [sy|sy| |sy my ey];
    try reflexivity; try (destruct sx, sy; reflexivity).
  rewrite (Z.min_comm ey ex), Z.add_comm. reflexivity.
Qed.

Lemma float_add_comm (x y : float) : (x + y)%float = (y + x)%float.
Proof.
  apply Prim2SF_inj. rewrite !add_spec. apply SF64add_comm.
Qed.

(** [eps = 1e-10] *)
Definition eps : float := 1e-10%float.

(** Python's [x == y] on floats. *)
Definition float_eq (x y : float) : bool := (x =? y)%float.

Section Float64.

(** [np.log] and [ndarray.sum()] on floats. *)
Variable np_log : float -> float.
Variable np_sum : list float -> float.

Definition kl_divergence64 : list float -> list float -> float :=
  kl_divergence PrimFloat.add PrimFloat.mul PrimFloat.div np_log np_sum eps.

Definition jenson_shannon_divergence64 : list float -> list float -> float :=
  jenson_shannon_divergence PrimFloat.add PrimFloat.mul PrimFloat.div
    np_log np_sum 0.5%float eps.

(** C9 (as amended): for float arrays [P] and [Q] of one shape,
    [jenson_shannon_divergence(P, Q)] and [jenson_shannon_divergence(Q, P)]
    are the same float (all NaNs being one float here): one is a NaN
    exactly when the other is, and [==] holds between them exactly when
    they are not NaN. *)
Theorem jenson_shannon_divergence_sym (P Q : list float) :
  length P = length Q ->
  jenson_shannon_divergence64 P Q = jenson_shannon_divergence64 Q P
  /\ is_nan (jenson_shannon_divergence64 P Q)
     = is_nan (jenson_shannon_divergence64 Q P)
  /\ float_eq (jenson_shannon_divergence64 P Q)
       (jenson_shannon_divergence64 Q P)
     = negb (is_nan (jenson_shannon_divergence64 P Q)).
Proof.
  intros _.
  assert (E : jenson_shannon_divergence64 P Q
              = jenson_shannon_divergence64 Q P).
  { unfold jenson_shannon_divergence64.
    apply jenson_shannon_divergence_comm. exact float_add_comm. }
  split; [exact E|]. split; [rewrite E; reflexivity|].
  rewrite <- E. unfold float_eq, is_nan.
  destruct (jenson_shannon_divergence64 P Q =? jenson_shannon_divergence64 P Q)%float;
    reflexivity.
Qed.

End Float64.

(** Two instances of NumPy's operations: summation from the left, and in
    the place of the logarithm a function that is NaN below zero, as
    [np.log] is, and [x - 1] elsewhere. *)
Definition sum_left (l : list float) : float := fold_left PrimFloat.add l 0%float.

Definition log_stand_in (x : float) : float :=
  if (x <? 0)%float then nan else (x - 1)%float.

Lemma jenson_shannon_divergence_sym_witness :
  jenson_shannon_divergence64 log_stand_in sum_left
    [0.5; 0.5]%float [0.25; 0.75]%float
  = jenson_shannon_divergence64 log_stand_in sum_left
      [0.25; 0.75]%float [0.5; 0.5]%float
  /\ is_nan (jenson_shannon_divergence64 log_stand_in sum_left
               [0.5; 0.5]%float [0.25; 0.75]%float)
     = is_nan (jenson_shannon_divergence64 log_stand_in sum_left
                 [0.25; 0.75]%float [0.5; 0.5]%float)
  /\ float_eq
       (jenson_shannon_divergence64 log_stand_in sum_left
          [0.5; 0.5]%float [0.25; 0.75]%float)
       (jenson_shannon_divergence64 log_stand_in sum_left
          [0.25; 0.75]%float [0.5; 0.5]%float)
     = negb (is_nan (jenson_shannon_divergence64 log_stand_in sum_left
                       [0.5; 0.5]%float [0.25; 0.75]%float)).
Proof.
  apply (@jenson_shannon_divergence_sym log_stand_in sum_left
           [0.5; 0.5]%float [0.25; 0.75]%float).
  reflexivity.
Defined.

Example divergence_of_two_distributions :
  float_eq
    (jenson_shannon_divergence64 log_stand_in sum_left
       [0.5; 0.5]%float [0.25; 0.75]%float)
    (jenson_shannon_divergence64 log_stand_in sum_left
       [0.25; 0.75]%float [0.5; 0.5]%float)
  = true.
Proof. vm_compute. reflexivity. Qed.

(** C9 (as stated, refuted): for [P = [-1, 2]] and [Q = [2, 3]] the midpoint
    is [[0.5, 2.5]], the quotient [(-1 + eps) / (0.5 + eps)] is negative and
    its logarithm is NaN; both calls return NaN, and [==] does not hold
    between them. *)
Lemma nan_divergences_compare_unequal :
  is_nan (jenson_shannon_divergence64 log_stand_in sum_left
            [-1; 2]%float [2; 3]%float) = true
  /\ is_nan (jenson_shannon_divergence64 log_stand_in sum_left
               [2; 3]%float [-1; 2]%float) = true
  /\ float_eq
       (jenson_shannon_divergence64 log_stand_in sum_left
          [-1; 2]%float [2; 3]%float)
       (jenson_shannon_divergence64 log_stand_in sum_left
          [2; 3]%float [-1; 2]%float)
     = false.
Proof. vm_compute. repeat split. Qed.

(** The same with any logarithm that is NaN below zero. *)
Lemma is_nan_eq (x : float) : is_nan x = true -> x = nan.
Proof.
  unfold is_nan. intros H. apply Prim2SF_inj.
  rewrite FloatAxioms.eqb_spec in H.
  destruct (Prim2SF x) as [s|s| |s m e]; try reflexivity; exfalso.
  - destruct s; discriminate H.
  - destruct s; discriminate H.
  - unfold SFeqb, SFcompare in H. rewrite Z.compare_refl in H.
    destruct s; simpl in H; rewrite Pos.compare_cont_refl in H;
      discriminate H.
Qed.

Lemma float_add_nan_l (y : float) : (nan + y)%float = nan.
Proof. apply Prim2SF_inj. rewrite add_spec. reflexivity. Qed.

Lemma float_add_nan_r (y : float) : (y + nan)%float = nan.
Proof. rewrite float_add_comm. apply float_add_nan_l. Qed.

Lemma float_mul_nan_r (y : float) : (y * nan)%float = nan.
Proof.
  apply Prim2SF_inj. rewrite mul_spec.
  change (Prim2SF nan) with S754_nan.
  destruct (Prim2SF y) as [s|s| |s m e]; reflexivity.
Qed.

Lemma nan_divergence_for_every_logarithm (np_log : float -> float) :
  (forall x, (x <? 0)%float = true -> is_nan (np_log x) = true) ->
  jenson_shannon_divergence64 np_log sum_left [-1; 2]%float [2; 3]%float = nan
  /\ jenson_shannon_divergence64 np_log sum_left [2; 3]%float [-1; 2]%float
     = nan
  /\ float_eq nan nan = false.
Proof.
  intros Hlog.
  assert (E : np_log ((-1 + eps) / (0.5 * (-1 + 2) + eps))%float = nan).
  { apply is_nan_eq, Hlog. vm_compute. reflexivity. }
  assert (E' : np_log ((-1 + eps) / (0.5 * (2 + -1) + eps))%float = nan).
  { apply is_nan_eq, Hlog. vm_compute. reflexivity. }
  unfold jenson_shannon_divergence64, jenson_shannon_divergence,
    kl_divergence, sum_left.
  cbn [elementwise map fold_left]. rewrite E, E'.
  rewrite !float_mul_nan_r, !float_add_nan_r, !float_add_nan_l,
    !float_add_nan_r, !float_mul_nan_r.
  repeat split.
Qed.

(** ** ar1_process

    [np.random.normal()] draws from NumPy's global generator; its draw is
    the argument [normal]. *)
Definition ar1_process (normal x_previous mean theta sigma : float) : float :=
  (theta * (mean - x_previous) + sigma * normal)%float.

(** A float that is neither an infinity nor a NaN. *)
Definition finite64 (x : float) : bool :=
  match Prim2SF x with
  | S754_zero _ | S754_finite _ _ _ => true
  | _ => false
  end.

(** X2: with [sigma = 0] and a finite draw the noise term vanishes: the
    result compares equal to [theta*(mean - x_previous)] unless that is a
    NaN.  With [theta = 0] as well, the result compares equal to zero
    exactly when [mean - x_previous] and the draw are finite; an infinite
    or NaN difference or draw gives a NaN, which does not even equal
    itself. *)
Theorem ar1_process_without_noise :
  (forall normal x_previous mean theta,
      finite64 normal = true ->
      let drift := (theta * (mean - x_previous))%float in
      float_eq (ar1_process normal x_previous mean theta 0) drift
      = float_eq drift drift)
  /\ (forall normal x_previous mean,
         float_eq (ar1_process normal x_previous mean 0 0) 0
         = finite64 (mean - x_previous)%float && finite64 normal)
  /\ (forall normal x_previous mean,
         finite64 (mean - x_previous)%float && finite64 normal = false ->
         let r := ar1_process normal x_previous mean 0 0 in
         float_eq r r = false).
Proof.
  split; [|split].
  - intros normal x_previous mean theta Hn drift.
    unfold float_eq, ar1_process. fold drift.
    rewrite !FloatAxioms.eqb_spec, add_spec, mul_spec.
    unfold finite64 in Hn.
    change (Prim2SF 0) with (S754_zero false).
    destruct (Prim2SF normal) as [sn|sn| |sn mn en]; try discriminate Hn;
      destruct (Prim2SF drift) as [sd|sd| |sd md ed]; try reflexivity;
      destruct sd; try destruct sn; reflexivity.
  - intros normal x_previous mean.
    unfold float_eq, ar1_process, finite64.
    rewrite FloatAxioms.eqb_spec, add_spec, !mul_spec.
    change (Prim2SF 0) with (S754_zero false).
    destruct (Prim2SF (mean - x_previous)) as [sd|sd| |sd md ed];
      destruct (Prim2SF normal) as [sn|sn| |sn mn en]; try reflexivity;
      try destruct sd; try destruct sn; reflexivity.
  - intros normal x_previous mean Hfin r. subst r.
    unfold finite64 in Hfin. unfold float_eq, ar1_process.
    rewrite FloatAxioms.eqb_spec, add_spec, !mul_spec.
    change (Prim2SF 0) with (S754_zero false).
    destruct (Prim2SF (mean - x_previous)) as [sd|sd| |sd md ed];
      destruct (Prim2SF normal) as [sn|sn| |sn mn en];
      try discriminate Hfin; reflexivity.
Qed.

(** ** The divergences of an array from itself, in binary64 *)

(** A float that is finite and not a zero. *)
Definition nonzero_finite (x : float) : bool :=
  match Prim2SF x with
  | S754_finite _ _ _ => true
  | _ => false
  end.

Lemma div_eucl_shift (m : positive) :
  Z.div_eucl (Z.shiftl (Zpos m) 53) (Zpos m) = ((2 ^ 53)%Z, 0%Z).
Proof.
  rewrite Z.shiftl_mul_pow2 by lia.
  pose proof (Z.div_eucl_eq (Zpos m * 2 ^ 53) (Zpos m) ltac:(lia)) as H.
  pose proof (Z.mod_pos_bound (Zpos m * 2 ^ 53) (Zpos m) ltac:(lia)) as Hb.
  unfold Z.modulo in Hb.
  destruct (Z.div_eucl (Zpos m * 2 ^ 53) (Zpos m)) as [q r].
  assert (Hq : (Zpos m * (2 ^ 53 - q) = r)%Z) by lia.
  assert (Hz : (2 ^ 53 - q = 0)%Z) by nia.
  assert (Hr : r = 0%Z) by nia.
  assert (Hq' : q = (2 ^ 53)%Z) by lia.
  rewrite Hr, Hq'. reflexivity.
Qed.

(** A finite float that is not a zero, divided by itself, is exactly one:
    the quotient of the mantissas is a power of two, which needs no
    rounding. *)
Lemma SFdiv_self (s : bool) (m : positive) (e : Z) :
  SF64div (S754_finite s m e) (S754_finite s m e) = Prim2SF 1.
Proof.
  unfold SF64div, SFdiv, SFdiv_core_binary.
  rewrite !Z.sub_diag.
  change (Z.min (fexp prec emax 0) 0) with (-53)%Z.
  change (0 - -53)%Z with 53%Z.
  cbv iota.
  change (IntDef.Z.div_eucl (IntDef.Z.shiftl (Z.pos m) 53) (Z.pos m))
    with (Z.div_eucl (Z.shiftl (Z.pos m) 53) (Z.pos m)).
  rewrite div_eucl_shift.
  unfold new_location.
  destruct (Z.even (Z.pos m)); destruct s; vm_compute; reflexivity.
Qed.

Lemma float_div_self (x : float) :
  nonzero_finite x = true -> (x / x)%float = 1%float.
Proof.
  unfold nonzero_finite. intros H.
  apply Prim2SF_inj. rewrite div_spec.
  destruct (Prim2SF x) as [s|s| |s m e]; try discriminate H.
  apply SFdiv_self.
Qed.

Lemma float_eq_zero (x : float) :
  float_eq x 0 = true <-> exists s, Prim2SF x = S754_zero s.
Proof.
  unfold float_eq. rewrite FloatAxioms.eqb_spec.
  change (Prim2SF 0) with (S754_zero false).
  destruct (Prim2SF x) as [s|s| |s m e]; simpl.
  - split; [intros _; exists s; reflexivity | reflexivity].
  - split; [destruct s; discriminate | intros [s' H]; discriminate H].
  - split; [discriminate | intros [s' H]; discriminate H].
  - split; [destruct s; discriminate | intros [s' H]; discriminate H].
Qed.

Lemma float_add_zeros (x y : float) :
  float_eq x 0 = true -> float_eq y 0 = true -> float_eq (x + y) 0 = true.
Proof.
  rewrite !float_eq_zero. intros [sx Hx] [sy Hy].
  rewrite add_spec, Hx, Hy. destruct sx, sy; eexists; reflexivity.
Qed.

(** A summand [p * log 1] is a zero when [p + eps] is finite. *)
Lemma float_mul_zero (p : float) :
  nonzero_finite (p + eps) = true -> float_eq (p * 0) 0 = true.
Proof.
  unfold nonzero_finite. rewrite add_spec. intros H.
  apply float_eq_zero. rewrite mul_spec.
  change (Prim2SF 0) with (S754_zero false).
  change (Prim2SF eps) with (S754_finite false 7737125245533627 (-86)) in H.
  destruct (Prim2SF p) as [s|s| |s m e]; try discriminate H;
    eexists; reflexivity.
Qed.

Lemma sum_left_zeros (l : list float) :
  Forall (fun z => float_eq z 0 = true) l -> float_eq (sum_left l) 0 = true.
Proof.
  unfold sum_left.
  assert (H : forall acc, float_eq acc 0 = true ->
                Forall (fun z => float_eq z 0 = true) l ->
                float_eq (fold_left PrimFloat.add l acc) 0 = true).
  { induction l as [|z l IH]; intros acc Hacc Hl; simpl; [exact Hacc|].
    inversion Hl; subst. apply IH; [|assumption].
    apply float_add_zeros; assumption. }
  apply H. reflexivity.
Qed.

Section SelfDivergence64.

(** What is used of NumPy: [np.log(1.0)] is [0.0], and the sum of an
    array of zeros is a zero. *)
Variable np_log : float -> float.
Variable np_sum : list float -> float.
Hypothesis log_one : np_log 1 = 0%float.
Hypothesis sum_zeros :
  forall l, Forall (fun z => float_eq z 0 = true) l ->
            float_eq (np_sum l) 0 = true.

Lemma kl_divergence64_self (P : list float) :
  Forall (fun p => nonzero_finite (p + eps) = true) P ->
  float_eq (kl_divergence64 np_log np_sum P P) 0 = true.
Proof using log_one sum_zeros.
  intros HP. unfold kl_divergence64, kl_divergence. apply sum_zeros.
  induction HP as [|p P Hp _ IH]; simpl; [constructor|].
  constructor; [|exact IH].
  rewrite (@float_div_self _ Hp), log_one. apply float_mul_zero, Hp.
Qed.

(** X3: in binary64, for an array [P] in which every [p + eps] is finite
    and not zero, [kl_divergence(P, P)] compares equal to zero; and so
    does [jenson_shannon_divergence(P, P)] when, besides, halving the
    double of every entry gives the entry back, as it does unless the
    double overflows. *)
Theorem divergence_of_equal_arrays64 (P : list float) :
  Forall (fun p => nonzero_finite (p + eps) = true) P ->
  float_eq (kl_divergence64 np_log np_sum P P) 0 = true
  /\ (Forall (fun p => (0.5 * (p + p))%float = p) P ->
      float_eq (jenson_shannon_divergence64 np_log np_sum P P) 0 = true).
Proof using log_one sum_zeros.
  intros HP. pose proof (@kl_divergence64_self P HP) as Hkl.
  split; [exact Hkl|].
  intros Hhalf.
  unfold jenson_shannon_divergence64, jenson_shannon_divergence.
  assert (HM : map (PrimFloat.mul 0.5) (elementwise PrimFloat.add P P) = P).
  { clear - Hhalf. induction Hhalf as [|p P Hp _ IH]; simpl; [reflexivity|].
    rewrite Hp, IH. reflexivity. }
  rewrite HM. fold (kl_divergence64 np_log np_sum P P).
  pose proof (@float_add_zeros _ _ Hkl Hkl) as Hsum.
  apply float_eq_zero in Hsum. destruct Hsum as [s Hs].
  apply float_eq_zero. rewrite mul_spec, Hs.
  exists s. reflexivity.
Qed.

End SelfDivergence64.

Lemma divergence_of_equal_arrays64_witness :
  float_eq (kl_divergence64 (fun x => x - 1)%float sum_left
              [0.25; 0.75]%float [0.25; 0.75]%float) 0 = true
  /\ float_eq (jenson_shannon_divergence64 (fun x => x - 1)%float sum_left
                 [0.25; 0.75]%float [0.25; 0.75]%float) 0 = true.
Proof.
  destruct (@divergence_of_equal_arrays64 (fun x => x - 1)%float sum_left
              eq_refl sum_left_zeros [0.25; 0.75]%float) as [Hkl Hjs].
  - repeat constructor.
  - split; [exact Hkl|]. apply Hjs. repeat constructor.
Defined.

Example ar1_process_at_infinity :
  float_eq (ar1_process 1 infinity 0 0 0) 0 = false
  /\ float_eq (ar1_process 1 2 3 0 0) 0 = true
  /\ ar1_process 0.5 2 3 0.5 2 = 1.5%float.
Proof. vm_compute. repeat split. Qed.

End Stats.


(* ------------------------------------------------------------------ *)
(** * networks/layers.py                                               *)
(* ------------------------------------------------------------------ *)

Module Layers.

Import Py.
Local Open Scope py_scope.

(** A tensor of single-precision numbers: its shape and its elements in
    row-major order.  A single-precision number is held as the binary64
    number of the same value. *)
Record tensor : Type := { t_shape : list Z; t_data : list float }.

(** [np.prod] of a list of integers. *)
Definition np_prod (l : list Z) : Z := fold_left Z.mul l 1%Z.

Definition numel (shape : list Z) : nat := Z.to_nat (np_prod shape).

(** TensorFlow builds no tensor of a negative dimension. *)
Definition valid_shape (shape : list Z) : bool := forallb (Z.leb 0) shape.

(** [tf.zeros(shape)] *)
Definition tf_zeros (shape : list Z) : outcome tensor :=
  if valid_shape shape then
    Ret {| t_shape := shape; t_data := repeat 0%float (numel shape) |}
  else Raise ValueError.

(** The float of an integer, as Python and NumPy convert it: the nearest
    binary64 number. *)
Definition np_float (z : Z) : float :=
  SF2Prim (binary_normalize prec emax z 0 false).

(** [d = 2*np.sqrt(6. / (fan_in + fan_out))], computed in binary64. *)
Definition init_bound (fan_in fan_out : Z) : float :=
  (2 * sqrt (6 / np_float (fan_in + fan_out)))%float.

(** A zero sum of fans, where it is a NumPy integer, gives an infinite
    bound, and a negative sum gives NaN. *)
Example init_bound_of_empty_fans :
  init_bound 0 0 = infinity
  /\ init_bound (-1) (-2) = nan
  /\ init_bound 6 6 = sqrt 2.
Proof. vm_compute. repeat split. Qed.

(** The conversion of a binary64 number to single precision, to the
    nearest, ties to even: what becomes of the Python floats [minval] and
    [maxval] in a tensor of [dtype] [float32]. *)
Definition to_f32 (x : float) : float :=
  match Prim2SF x with
  | S754_finite s m e =>
      SF2Prim (binary_normalize 24 128 (cond_Zopp s (Zpos m)) e s)
  | _ => x
  end.

Section Initializers.

(** [tf.random_uniform(shape, minval, maxval)] with its default [dtype],
    [float32]: [sample lo hi k] is the [k]-th element that the generator
    draws between the single-precision bounds [lo] and [hi].  TensorFlow
    documents the range [[lo, hi)], the lower bound included and the upper
    one excluded. *)
Variable sample : float -> float -> nat -> float.
Hypothesis sample_range :
  forall lo hi k,
    (lo <? hi)%float = true ->
    (lo <=? sample lo hi k)%float = true /\ (sample lo hi k <? hi)%float = true.

Definition random_uniform (shape : list Z) (minval maxval : float)
  : outcome tensor :=
  if valid_shape shape then
    Ret {| t_shape := shape;
           t_data := map (sample (to_f32 minval) (to_f32 maxval))
                         (seq 0 (numel shape)) |}
  else Raise ValueError.

(** [tf.get_variable(name, dtype=tf.float32, initializer=init)] is modelled
    by the initial value [init].  In [conv_weight_variable] the two fans are
    NumPy integers: dividing [6.] by their sum gives [inf] when it is zero,
    and the square root of a negative quotient is NaN. *)
Definition conv_weight_variable (shape : list Z) : outcome tensor :=
  let receptive_field_size := np_prod (firstn 2 shape) in
  c <- index shape (-2) ;;
  f <- index shape (-1) ;;
  let fan_in := (c * receptive_field_size)%Z in
  let fan_out := (f * receptive_field_size)%Z in
  let d := init_bound fan_in fan_out in
  random_uniform shape (- d)%float d.

Definition conv_bias_variable (shape : list Z) : outcome tensor :=
  tf_zeros shape.

(** In [fc_weight_variable] the two fans are Python integers, and dividing
    the float [6.] by their sum, when it is zero, raises. *)
Definition fc_weight_variable (shape : list Z) : outcome tensor :=
  fan_in <- index shape 0 ;;
  fan_out <- index shape 1 ;;
  if (fan_in + fan_out =? 0)%Z then Raise ZeroDivisionError
  else
    let d := init_bound fan_in fan_out in
    random_uniform shape (- d)%float d.

Definition fc_bias_variable (shape : list Z) : outcome tensor :=
  tf_zeros shape.

(** The weight and bias tensors that [conv2d] and [fc] create and return
    (the output tensor is a node of the TensorFlow graph). *)
Definition conv2d (filters size channels : Z) : outcome (tensor * tensor) :=
  w <- conv_weight_variable [size; size; channels; filters] ;;
  b <- conv_bias_variable [filters] ;;
  Ret (w, b).

Definition fc (input_dim output_dim : Z) : outcome (tensor * tensor) :=
  w <- fc_weight_variable [input_dim; output_dim] ;;
  b <- fc_bias_variable [output_dim] ;;
  Ret (w, b).

(** Every element is in [[lo, hi)]. *)
Definition between (lo hi : float) (w : tensor) : Prop :=
  Forall (fun x => (lo <=? x)%float = true /\ (x <? hi)%float = true)
         (t_data w).

(** Every element is in [[-d, d]]. *)
Definition within (d : float) (w : tensor) : Prop :=
  Forall (fun x => (- d <=? x)%float = true /\ (x <=? d)%float = true)
         (t_data w).

Lemma np_prod_pair (a b : Z) (rest : list Z) :
  np_prod (firstn 2 (a :: b :: rest)) = (a * b)%Z.
Proof. unfold np_prod; simpl. destruct a; reflexivity. Qed.

Lemma random_uniform_between shape minval maxval w :
  random_uniform shape minval maxval = Ret w ->
  t_shape w = shape
  /\ t_data w = map (sample (to_f32 minval) (to_f32 maxval))
                    (seq 0 (numel shape))
  /\ ((to_f32 minval <? to_f32 maxval)%float = true ->
      between (to_f32 minval) (to_f32 maxval) w).
Proof.
  unfold random_uniform. destruct (valid_shape shape); [|discriminate].
  intros E. inversion E; subst; clear E. simpl.
  split; [reflexivity|]. split; [reflexivity|].
  intros Hlt. unfold between; simpl. apply Forall_forall. intros x Hx.
  apply in_map_iff in Hx. destruct Hx as [k [<- _]].
  apply sample_range, Hlt.
Qed.

(** Comparisons with two positive numbers of one exponent, and with two
    negative ones. *)
Lemma SFltb_below (x : spec_float) (m1 m2 : positive) (e : Z) :
  (m1 <= m2)%positive ->
  SFltb x (S754_finite false m1 e) = true ->
  SFleb x (S754_finite false m2 e) = true.
Proof.
  intros Hm. unfold SFltb, SFleb, SFcompare.
  destruct x as [s|s| |s m ex]; try (destruct s; intros H; first [reflexivity | discriminate H]).
  - discriminate.
  - destruct s; [reflexivity|].
    destruct (ex ?= e)%Z; try (intros H; first [reflexivity | discriminate H]).
    change (Pos.compare_cont Eq m m1) with (Pos.compare m m1).
    change (Pos.compare_cont Eq m m2) with (Pos.compare m m2).
    destruct (Pos.compare_spec m m1) as [E|L|G]; try discriminate.
    intros _. destruct (Pos.compare_spec m m2) as [E2|L2|G2]; try reflexivity.
    lia.
Qed.

Lemma SFleb_above (x : spec_float) (m1 m2 : positive) (e : Z) :
  (m1 <= m2)%positive ->
  SFleb (S754_finite true m1 e) x = true ->
  SFleb (S754_finite true m2 e) x = true.
Proof.
  intros Hm. unfold SFleb, SFcompare.
  destruct x as [s|s| |s m ex]; try (destruct s; intros H; first [reflexivity | discriminate H]).
  - discriminate.
  - destruct s; [|reflexivity].
    destruct (e ?= ex)%Z; try (intros H; first [reflexivity | discriminate H]).
    change (Pos.compare_cont Eq m1 m) with (Pos.compare m1 m).
    change (Pos.compare_cont Eq m2 m) with (Pos.compare m2 m).
    destruct (Pos.compare_spec m1 m) as [E|L|G]; simpl; try discriminate;
      intros _; destruct (Pos.compare_spec m2 m) as [E2|L2|G2]; simpl;
      try reflexivity; lia.
Qed.

(** The two bounds of a sum of fans, rounded to single precision, are in
    order: checked for every sum from 1 to 65536. *)
Definition bounds_in_order (n : Z) : bool :=
  let d := (2 * sqrt (6 / np_float n))%float in
  (to_f32 (- d) <? to_f32 d)%float.

Fixpoint all_in_order (k : nat) (n : Z) : bool :=
  match k with
  | O => true
  | S k' => bounds_in_order n && all_in_order k' (n + 1)
  end.

Lemma all_in_order_spec (k : nat) :
  forall m n,
    all_in_order k m = true ->
    (m <= n < m + Z.of_nat k)%Z ->
    bounds_in_order n = true.
Proof.
  induction k as [|k IH]; intros m n H Hn; [lia|].
  cbn [all_in_order] in H. apply andb_true_iff in H. destruct H as [H0 H1].
  destruct (Z.eq_dec n m) as [->|Hne]; [exact H0|].
  apply (IH (m + 1)%Z n H1). lia.
Qed.

Lemma bounds_in_order_to_65536 (n : Z) :
  (1 <= n <= 65536)%Z -> bounds_in_order n = true.
Proof.
  intros Hn. apply (@all_in_order_spec (Z.to_nat 65536) 1%Z n); [|lia].
  vm_compute. reflexivity.
Qed.

Lemma init_bound_6_6 :
  (2 * sqrt (6 / np_float (6 + 6)))%float = sqrt 2
  /\ init_bound 6 6 = sqrt 2
  /\ (to_f32 (sqrt 2) <? sqrt 2)%float = true.
Proof. vm_compute. repeat split. Qed.

Lemma between_rounded_sqrt2 (w : tensor) :
  between (to_f32 (- sqrt 2)) (to_f32 (sqrt 2)) w -> within (sqrt 2) w.
Proof.
  unfold between, within. apply Forall_impl. intros x [Hlo Hhi].
  rewrite leb_spec in Hlo. rewrite ltb_spec in Hhi. rewrite !leb_spec.
  split.
  - revert Hlo.
    change (Prim2SF (to_f32 (- sqrt 2)))
      with (S754_finite true 6369051563524096 (-52)).
    change (Prim2SF (- sqrt 2))
      with (S754_finite true 6369051672525773 (-52)).
    apply SFleb_above. lia.
  - revert Hhi.
    change (Prim2SF (to_f32 (sqrt 2)))
      with (S754_finite false 6369051563524096 (-52)).
    change (Prim2SF (sqrt 2))
      with (S754_finite false 6369051672525773 (-52)).
    apply SFltb_below. lia.
Qed.

(** C8 (as amended): the weight tensor that [conv2d] and [fc] create is
    drawn by [tf.random_uniform] between [-d] and [d], where
    [d = 2*sqrt(6/(fan_in + fan_out))] is computed in binary64, the fans
    being [channels*size^2] and [filters*size^2] for a convolution and the
    two dimensions for a fully-connected layer; its elements are
    single-precision numbers between [-d] and [d] rounded to single
    precision, the upper bound left out, where these two are in order, as
    they are for every sum of fans from 1 to 65536.  For fans [6] and [6],
    [d] is the binary64 [sqrt 2], its rounding to single precision is below
    it, and every element is in [[-sqrt 2, sqrt 2]]. *)
Theorem weight_init_bound :
  (forall filters size channels,
      (0 <= filters)%Z -> (0 <= size)%Z -> (0 <= channels)%Z ->
      let d := (2 * sqrt (6 / np_float (channels * (size * size)
                                        + filters * (size * size))))%float in
      exists w b,
        conv2d filters size channels = Ret (w, b)
        /\ t_shape w = [size; size; channels; filters]
        /\ t_data w = map (sample (to_f32 (- d)) (to_f32 d))
                          (seq 0 (numel [size; size; channels; filters]))
        /\ ((to_f32 (- d) <? to_f32 d)%float = true ->
            between (to_f32 (- d)) (to_f32 d) w))
  /\ (forall input_dim output_dim,
         (0 <= input_dim)%Z -> (0 <= output_dim)%Z ->
         (input_dim + output_dim <> 0)%Z ->
         let d := (2 * sqrt (6 / np_float (input_dim + output_dim)))%float in
         exists w b,
           fc input_dim output_dim = Ret (w, b)
           /\ t_shape w = [input_dim; output_dim]
           /\ t_data w = map (sample (to_f32 (- d)) (to_f32 d))
                             (seq 0 (numel [input_dim; output_dim]))
           /\ ((to_f32 (- d) <? to_f32 d)%float = true ->
               between (to_f32 (- d)) (to_f32 d) w))
  /\ (2 * sqrt (6 / np_float (6 + 6)))%float = sqrt 2
  /\ (to_f32 (sqrt 2) <? sqrt 2)%float = true
  /\ (exists w b,
         fc 6 6 = Ret (w, b) /\ length (t_data w) = 36 /\ within (sqrt 2) w)
  /\ (exists w b,
         conv2d 6 1 6 = Ret (w, b) /\ length (t_data w) = 36
         /\ within (sqrt 2) w)
  /\ (forall n,
         (1 <= n <= 65536)%Z ->
         let d := (2 * sqrt (6 / np_float n))%float in
         (to_f32 (- d) <? to_f32 d)%float = true).
Proof.
  assert (Hvalid : forall l, Forall (fun z => (0 <= z)%Z) l -> valid_shape l = true).
  { intros l Hl. unfold valid_shape. apply forallb_forall. intros z Hz.
    apply Z.leb_le. rewrite Forall_forall in Hl. apply Hl, Hz. }
  assert (Hconv : forall filters size channels,
      (0 <= filters)%Z -> (0 <= size)%Z -> (0 <= channels)%Z ->
      let d := (2 * sqrt (6 / np_float (channels * (size * size)
                                        + filters * (size * size))))%float in
      exists w b,
        conv2d filters size channels = Ret (w, b)
        /\ t_shape w = [size; size; channels; filters]
        /\ t_data w = map (sample (to_f32 (- d)) (to_f32 d))
                          (seq 0 (numel [size; size; channels; filters]))
        /\ ((to_f32 (- d) <? to_f32 d)%float = true ->
            between (to_f32 (- d)) (to_f32 d) w)).
  { intros filters size channels Hf Hs Hc d.
    unfold conv2d, conv_weight_variable.
    rewrite (np_prod_pair size size [channels; filters]).
    cbn [index bind]. change (index [size; size; channels; filters] (-2))
      with (Ret (A := Z) channels).
    change (index [size; size; channels; filters] (-1))
      with (Ret (A := Z) filters).
    cbn [bind]. unfold init_bound. fold d.
    destruct (random_uniform [size; size; channels; filters] (- d) d)
      as [w| |] eqn:Ew;
      try (unfold random_uniform in Ew;
           rewrite Hvalid in Ew by (repeat constructor; assumption);
           discriminate Ew).
    cbn [bind]. unfold conv_bias_variable, tf_zeros.
    rewrite Hvalid by (repeat constructor; assumption). cbn [bind].
    eexists; eexists. split; [reflexivity|].
    exact (random_uniform_between _ _ _ Ew). }
  assert (Hfc : forall input_dim output_dim,
         (0 <= input_dim)%Z -> (0 <= output_dim)%Z ->
         (input_dim + output_dim <> 0)%Z ->
         let d := (2 * sqrt (6 / np_float (input_dim + output_dim)))%float in
         exists w b,
           fc input_dim output_dim = Ret (w, b)
           /\ t_shape w = [input_dim; output_dim]
           /\ t_data w = map (sample (to_f32 (- d)) (to_f32 d))
                             (seq 0 (numel [input_dim; output_dim]))
           /\ ((to_f32 (- d) <? to_f32 d)%float = true ->
               between (to_f32 (- d)) (to_f32 d) w)).
  { intros input_dim output_dim Hi Ho Hne d.
    unfold fc, fc_weight_variable.
    change (index [input_dim; output_dim] 0) with (Ret (A := Z) input_dim).
    change (index [input_dim; output_dim] 1) with (Ret (A := Z) output_dim).
    cbn [bind].
    destruct (Z.eqb_spec (input_dim + output_dim) 0) as [E|_];
      [contradiction|].
    unfold init_bound. fold d.
    destruct (random_uniform [input_dim; output_dim] (- d) d)
      as [w| |] eqn:Ew;
      try (unfold random_uniform in Ew;
           rewrite Hvalid in Ew by (repeat constructor; assumption);
           discriminate Ew).
    cbn [bind]. unfold fc_bias_variable, tf_zeros.
    rewrite Hvalid by (repeat constructor; assumption). cbn [bind].
    eexists; eexists. split; [reflexivity|].
    exact (random_uniform_between _ _ _ Ew). }
  split; [exact Hconv|]. split; [exact Hfc|].
  split; [exact (proj1 init_bound_6_6)|].
  split; [exact (proj2 (proj2 init_bound_6_6))|].
  split.
  - destruct (Hfc 6%Z 6%Z ltac:(lia) ltac:(lia) ltac:(lia))
      as (w & b & E & _ & Hd & W).
    exists w, b. split; [exact E|]. split.
    + rewrite Hd, length_map, length_seq. reflexivity.
    + apply between_rounded_sqrt2. rewrite (proj1 init_bound_6_6) in W.
      apply W. vm_compute. reflexivity.
  - split; [|exact bounds_in_order_to_65536].
    destruct (Hconv 6%Z 1%Z 6%Z ltac:(lia) ltac:(lia) ltac:(lia))
      as (w & b & E & _ & Hd & W).
    exists w, b. split; [exact E|]. split.
    + rewrite Hd, length_map, length_seq. reflexivity.
    + apply between_rounded_sqrt2.
      change (6 * (1 * 1) + 6 * (1 * 1))%Z with (6 + 6)%Z in W.
      rewrite (proj1 init_bound_6_6) in W.
      apply W. vm_compute. reflexivity.
Qed.

(** ** Shapes, sizes and errors of the variables *)

Lemma np_prod_cons (a : Z) (l : list Z) : np_prod (a :: l) = (a * np_prod l)%Z.
Proof.
  unfold np_prod. cbn [fold_left].
  assert (H : forall l0 x y, fold_left Z.mul l0 (x * y)%Z
                             = (x * fold_left Z.mul l0 y)%Z).
  { induction l0 as [|z l0 IH]; intros x y; cbn [fold_left]; [reflexivity|].
    rewrite <- Z.mul_assoc. apply IH. }
  rewrite <- (H l a 1%Z). f_equal. ring.
Qed.

Lemma valid_shape_nonneg (shape : list Z) :
  Forall (fun z => (0 <= z)%Z) shape -> valid_shape shape = true.
Proof.
  intros Hl. unfold valid_shape. apply forallb_forall. intros z Hz.
  apply Z.leb_le. rewrite Forall_forall in Hl. apply Hl, Hz.
Qed.

Lemma random_uniform_size shape minval maxval :
  Forall (fun z => (0 <= z)%Z) shape ->
  exists w,
    random_uniform shape minval maxval = Ret w
    /\ t_shape w = shape
    /\ length (t_data w) = numel shape.
Proof.
  intros Hl. unfold random_uniform. rewrite (valid_shape_nonneg Hl).
  eexists. split; [reflexivity|]. simpl.
  rewrite length_map, length_seq. split; reflexivity.
Qed.

(** X4: what [conv2d] and [fc] create for positive dimensions: a weight
    tensor of the shape asked for, with as many elements as the product
    of its dimensions, and a bias vector of [filters] (of [output_dim])
    elements, every one of them zero. *)
Theorem layer_variable_sizes :
  (forall filters size channels,
      (0 < filters)%Z -> (0 < size)%Z -> (0 < channels)%Z ->
      exists w b,
        conv2d filters size channels = Ret (w, b)
        /\ t_shape w = [size; size; channels; filters]
        /\ length (t_data w) = Z.to_nat (size * size * channels * filters)
        /\ t_shape b = [filters]
        /\ t_data b = repeat 0%float (Z.to_nat filters))
  /\ (forall input_dim output_dim,
         (0 < input_dim)%Z -> (0 < output_dim)%Z ->
         exists w b,
           fc input_dim output_dim = Ret (w, b)
           /\ t_shape w = [input_dim; output_dim]
           /\ length (t_data w) = Z.to_nat (input_dim * output_dim)
           /\ t_shape b = [output_dim]
           /\ t_data b = repeat 0%float (Z.to_nat output_dim)).
Proof.
  split.
  - intros filters size channels Hf Hs Hc.
    set (d := init_bound (channels * (size * size)) (filters * (size * size))).
    destruct (@random_uniform_size [size; size; channels; filters]
                (- d)%float d) as (w & Ew & Hsh & Hl).
    { repeat constructor; lia. }
    exists w.
    exists {| t_shape := [filters];
              t_data := repeat 0%float (numel [filters]) |}.
    split.
    { unfold conv2d, conv_weight_variable.
      rewrite (np_prod_pair size size [channels; filters]).
      change (index [size; size; channels; filters] (-2))
        with (Ret (A := Z) channels).
      change (index [size; size; channels; filters] (-1))
        with (Ret (A := Z) filters).
      cbn [bind]. fold d. rewrite Ew. cbn [bind].
      unfold conv_bias_variable, tf_zeros.
      rewrite valid_shape_nonneg by (repeat constructor; lia).
      reflexivity. }
    split; [exact Hsh|]. split.
    { rewrite Hl. unfold numel. rewrite !np_prod_cons. f_equal.
      unfold np_prod; simpl. ring. }
    split; [reflexivity|].
    unfold numel; simpl.
    rewrite np_prod_cons. f_equal. f_equal. unfold np_prod; simpl. ring.
  - intros input_dim output_dim Hi Ho.
    set (d := init_bound input_dim output_dim).
    destruct (@random_uniform_size [input_dim; output_dim]
                (- d)%float d) as (w & Ew & Hsh & Hl).
    { repeat constructor; lia. }
    exists w.
    exists {| t_shape := [output_dim];
              t_data := repeat 0%float (numel [output_dim]) |}.
    split.
    { unfold fc, fc_weight_variable.
      change (index [input_dim; output_dim] 0) with (Ret (A := Z) input_dim).
      change (index [input_dim; output_dim] 1) with (Ret (A := Z) output_dim).
      cbn [bind].
      destruct (Z.eqb_spec (input_dim + output_dim) 0) as [E|_]; [lia|].
      fold d. rewrite Ew. cbn [bind].
      unfold fc_bias_variable, tf_zeros.
      rewrite valid_shape_nonneg by (repeat constructor; lia).
      reflexivity. }
    split; [exact Hsh|]. split.
    { rewrite Hl. unfold numel. rewrite !np_prod_cons. f_equal.
      unfold np_prod; simpl. ring. }
    split; [reflexivity|].
    unfold numel; simpl.
    rewrite np_prod_cons. f_equal. f_equal. unfold np_prod; simpl. ring.
Qed.

(** The errors of the two initialisers: a shape of fewer than two
    dimensions has no [shape[-2]] and no [shape[1]]; [fc] divides by the
    sum of its two dimensions, which raises exactly when that sum is zero;
    and a negative dimension is refused when the tensor is built. *)
Lemma weight_variable_errors :
  (forall shape,
      (length shape < 2)%nat ->
      conv_weight_variable shape = Raise IndexError
      /\ fc_weight_variable shape = Raise IndexError)
  /\ (forall input_dim output_dim,
         fc input_dim output_dim = Raise ZeroDivisionError
         <-> (input_dim + output_dim = 0)%Z)
  /\ (forall filters size channels,
         (filters < 0)%Z \/ (size < 0)%Z \/ (channels < 0)%Z ->
         conv2d filters size channels = Raise ValueError)
  /\ (forall input_dim output_dim,
         (input_dim + output_dim <> 0)%Z ->
         (input_dim < 0)%Z \/ (output_dim < 0)%Z ->
         fc input_dim output_dim = Raise ValueError).
Proof.
  split; [|split; [|split]].
  - intros [|a [|b shape]] H; simpl in H; try lia; split; reflexivity.
  - intros input_dim output_dim. unfold fc, fc_weight_variable.
    change (index [input_dim; output_dim] 0) with (Ret (A := Z) input_dim).
    change (index [input_dim; output_dim] 1) with (Ret (A := Z) output_dim).
    cbn [bind].
    destruct (Z.eqb_spec (input_dim + output_dim) 0) as [E|E].
    + split; [intros _; exact E | reflexivity].
    + split; [|contradiction]. unfold random_uniform.
      destruct (valid_shape [input_dim; output_dim]); cbn [bind].
      * unfold fc_bias_variable, tf_zeros.
        destruct (valid_shape [output_dim]); discriminate.
      * discriminate.
  - intros filters size channels H.
    unfold conv2d, conv_weight_variable.
    change (index [size; size; channels; filters] (-2))
      with (Ret (A := Z) channels).
    change (index [size; size; channels; filters] (-1))
      with (Ret (A := Z) filters).
    cbn [bind]. unfold random_uniform.
    assert (Hv : valid_shape [size; size; channels; filters] = false).
    { unfold valid_shape. cbn [forallb].
      destruct (Z.leb_spec 0 size); cbn [andb]; [|reflexivity].
      destruct (Z.leb_spec 0 channels); cbn [andb]; [|reflexivity].
      destruct (Z.leb_spec 0 filters); cbn [andb]; [lia|reflexivity]. }
    rewrite Hv. reflexivity.
  - intros input_dim output_dim Hne H.
    unfold fc, fc_weight_variable.
    change (index [input_dim; output_dim] 0) with (Ret (A := Z) input_dim).
    change (index [input_dim; output_dim] 1) with (Ret (A := Z) output_dim).
    cbn [bind].
    destruct (Z.eqb_spec (input_dim + output_dim) 0) as [E|_];
      [contradiction|].
    unfold random_uniform.
    assert (Hv : valid_shape [input_dim; output_dim] = false).
    { unfold valid_shape. cbn [forallb].
      destruct (Z.leb_spec 0 input_dim); cbn [andb]; [|reflexivity].
      destruct (Z.leb_spec 0 output_dim); cbn [andb]; [lia|reflexivity]. }
    rewrite Hv. reflexivity.
Qed.

End Initializers.

(** A generator whose every draw is the lower bound, the one end of the
    range that the documentation includes. *)
Definition sample_low (lo hi : float) (k : nat) : float := lo.

Lemma sample_low_range (lo hi : float) (k : nat) :
  (lo <? hi)%float = true ->
  (lo <=? sample_low lo hi k)%float = true
  /\ (sample_low lo hi k <? hi)%float = true.
Proof.
  intros H. split; [|exact H]. unfold sample_low.
  rewrite ltb_spec in H. rewrite leb_spec.
  unfold SFltb in H. unfold SFleb.
  destruct (Prim2SF lo) as [s|s| |s m e]; try (destruct s; reflexivity).
  - discriminate H.
  - unfold SFcompare. rewrite Z.compare_refl.
    destruct s; rewrite Pos.compare_cont_refl; reflexivity.
Qed.

Lemma weight_init_bound_witness :
  exists w b,
    fc sample_low 6 6 = Ret (w, b)
    /\ length (t_data w) = 36
    /\ within (sqrt 2) w.
Proof.
  exact (proj1 (proj2 (proj2 (proj2 (proj2
           (@weight_init_bound sample_low sample_low_range)))))).
Defined.

(** C8 (as stated, refuted): for fans [2] and [2] the bound
    [d = 2*sqrt(6/4)] rounds up to single precision, so the lower bound
    [-d32] of the range, which a draw can be, is below [-d].  The draw is
    [-m * 2^-51] with [m^2 > 6 * 2^102], that is, its square exceeds
    [6 = 4 * 6/(2 + 2)]: it is also beyond the exact value of the bound. *)
Lemma rounded_bound_beyond_d :
  exists w b x,
    fc sample_low 2 2 = Ret (w, b)
    /\ In x (t_data w)
    /\ (x <? - (2 * sqrt (6 / np_float (2 + 2))))%float = true
    /\ Prim2SF x = S754_finite true 5515760747151360 (-51)
    /\ (6 * 2 ^ 102 < 5515760747151360 * 5515760747151360)%Z.
Proof.
  eexists; eexists; eexists.
  split; [vm_compute; reflexivity|].
  split; [left; reflexivity|].
  split; [vm_compute; reflexivity|].
  split; [vm_compute; reflexivity|].
  vm_compute. reflexivity.
Qed.

(** ** flatten

    [_input.get_shape().as_list()] lists the dimensions of the input,
    [None] for one that is not known, as the batch dimension usually is
    not.  [reduce(lambda a, b: a*b, shape[1:])] multiplies from the left
    with no initial value: of an empty sequence it raises TypeError, of a
    single dimension it is that dimension, multiplied or not, and a
    product with [None] raises TypeError. *)
Inductive reduced : Type :=
| Dim (d : option Z)
| TypeError.

Definition mul_dims (acc : reduced) (b : option Z) : reduced :=
  match acc, b with
  | Dim (Some x), Some y => Dim (Some (x * y)%Z)
  | _, _ => TypeError
  end.

Definition reduce_mul (l : list (option Z)) : reduced :=
  match l with
  | [] => TypeError
  | d :: l' => fold_left mul_dims l' (Dim d)
  end.

(** The shape [[-1, dim]] that [flatten] asks [tf.reshape] for. *)
Definition flatten (shape : list (option Z)) : reduced :=
  reduce_mul (tl shape).

Lemma fold_mul_dims_TypeError (l : list (option Z)) :
  fold_left mul_dims l TypeError = TypeError.
Proof. induction l as [|d l IH]; simpl; [reflexivity | exact IH]. Qed.

Lemma fold_mul_dims_known (l : list Z) (x : Z) :
  fold_left mul_dims (map Some l) (Dim (Some x))
  = Dim (Some (x * np_prod l)%Z).
Proof.
  revert x. induction l as [|y l IH]; intros x; cbn [map fold_left mul_dims].
  - unfold np_prod; simpl. rewrite Z.mul_1_r. reflexivity.
  - rewrite IH, np_prod_cons. do 2 f_equal. ring.
Qed.

(** A dimension that is not known, met after another one, raises. *)
Lemma fold_mul_dims_unknown (l1 l2 : list (option Z)) (acc : reduced) :
  fold_left mul_dims (l1 ++ None :: l2) acc = TypeError.
Proof.
  rewrite fold_left_app. cbn [fold_left].
  assert (H : mul_dims (fold_left mul_dims l1 acc) None = TypeError).
  { destruct (fold_left mul_dims l1 acc) as [[x|]|]; reflexivity. }
  rewrite H. apply fold_mul_dims_TypeError.
Qed.

(** X5: [flatten] needs an input of two axes or more.  When every axis but
    the first is known, the dimension it asks for is their product,
    whether the batch axis is known or not, and with a known batch axis
    [b] the reshaped tensor of [b] rows has as many elements as the
    input.  An input of one axis, or of none, raises TypeError; so does
    an unknown axis among two or more that are not the batch axis; and a
    single unknown axis beside the batch axis is passed on to
    [tf.reshape] as it is. *)
Theorem flatten_dimension :
  (forall b rest,
      rest <> [] ->
      flatten (b :: map Some rest) = Dim (Some (np_prod rest))
      /\ forall n, b = Some n -> (n * np_prod rest)%Z = np_prod (n :: rest))
  /\ (forall shape, (length shape <= 1)%nat -> flatten shape = TypeError)
  /\ (forall b l1 l2,
         l1 ++ l2 <> [] -> flatten (b :: l1 ++ None :: l2) = TypeError)
  /\ (forall b, flatten [b; None] = Dim None).
Proof.
  split; [|split; [|split]].
  - intros b rest Hne. split.
    + unfold flatten. cbn [tl]. destruct rest as [|x rest]; [contradiction|].
      cbn [map reduce_mul]. rewrite fold_mul_dims_known.
      rewrite np_prod_cons. reflexivity.
    + intros n _. rewrite np_prod_cons. reflexivity.
  - intros [|b [|c shape]] H; simpl in H; try lia; reflexivity.
  - intros b l1 l2 Hne. unfold flatten. cbn [tl].
    destruct l1 as [|d l1].
    + destruct l2 as [|d l2]; [contradiction Hne; reflexivity|].
      cbn [app reduce_mul fold_left mul_dims].
      apply fold_mul_dims_TypeError.
    + cbn [app reduce_mul]. apply fold_mul_dims_unknown.
  - intros b. reflexivity.
Qed.

Example flatten_of_a_convolution_output :
  flatten [None; Some 9; Some 9; Some 32]%Z = Dim (Some 2592%Z)
  /\ flatten [Some 5%Z] = TypeError
  /\ flatten [None; Some 9; None; Some 32]%Z = TypeError.
Proof. repeat split. Qed.

End Layers.


(* ------------------------------------------------------------------ *)
(** * environments/atari_environment.py                                *)
(* ------------------------------------------------------------------ *)

Module AtariEnvironment.

Import Py.
Local Open Scope py_scope.

Definition RESIZE_WIDTH : Z := 84.
Definition RESIZE_HEIGHT : Z := 84.

(** gym's action spaces, as far as the code tells them apart:
    [isinstance(_, Discrete)], [isinstance(_, Box)], [hasattr(_, 'n')] and
    the attribute [num_discrete_space].  [MultiBinary] stands for the spaces
    that have an attribute [n] without being [Discrete]; [MultiDiscrete] for
    those with [num_discrete_space] and no [n]; [OtherSpace] has neither
    attribute. *)
Inductive space : Type :=
| Discrete (n : Z)
| Box (shape : list Z)
| MultiBinary (n : Z)
| MultiDiscrete (num_discrete_space : Z)
| OtherSpace (type_name : string).

Definition space_type_name (sp : space) : string :=
  match sp with
  | Discrete _ => "Discrete"
  | Box _ => "Box"
  | MultiBinary _ => "MultiBinary"
  | MultiDiscrete _ => "MultiDiscrete"
  | OtherSpace name => name
  end.

(** [deque.append] on a deque built with [maxlen]: the oldest entries leave
    on the left. *)
Definition deque_append {A} (maxlen : nat) (d : list A) (x : A) : list A :=
  let d' := d ++ [x] in skipn (length d' - maxlen) d'.

(** [np.argmax] of a vector: the first index of its greatest entry. *)
Fixpoint argmax_from (best : Z) (best_i i : nat) (l : list Z) : nat :=
  match l with
  | [] => best_i
  | x :: l' =>
      if (best <? x)%Z then argmax_from x i (S i) l'
      else argmax_from best best_i (S i) l'
  end.

Definition argmax (l : list Z) : outcome nat :=
  match l with
  | [] => Raise ValueError
  | x :: l' => Ret (argmax_from x 0 1 l')
  end.

Section Wrapper.

(** Arrays (observations and frames) and the image operations of skimage. *)
Variable ndarray : Type.
Variable ndim : ndarray -> nat.
Variable rgb2gray : ndarray -> ndarray.
Variable resize : ndarray -> Z * Z -> ndarray.

(** The simulator inside a gym environment, and gym's registry of games. *)
Variable simulator : Type.
Variable registry : string -> option (space * simulator).

Record gym_env : Type := {
  spec_id : string;
  action_space : space;
  frameskip : Z;
  sim : simulator
}.

(** [env.reset()], [env.step(a)] (its [info] is dropped by the caller),
    [env.render()], and [env.env.ale.lives()] where there is an [ale]. *)
Variable env_reset : gym_env -> gym_env * ndarray.
Variable env_step : gym_env -> Z -> gym_env * (ndarray * float * bool).
Variable env_render : gym_env -> gym_env.
Variable ale_lives : gym_env -> option Z.

(** [gym.make(game)]: the environment registered under [game]; its
    [spec.id] is [game]. *)
Definition gym_make (game : string) : outcome gym_env :=
  match registry game with
  | Some (sp, m) =>
      Ret {| spec_id := game; action_space := sp; frameskip := 1; sim := m |}
  | None => Raise (UnregisteredEnv game)
  end.

Definition get_actions (game : string) : outcome (Z * space) :=
  env <- gym_make game ;;
  num_actions <-
    match action_space env with
    | Discrete n => Ret n
    | Box shape => Ret (fold_left Z.mul shape 1%Z)
    | sp => Raise (UnsupportedActionSpace (space_type_name sp))
    end ;;
  let num_actions :=
    if str_in game ["Pong-v0"; "Breakout-v0"]%string then 3%Z
    else num_actions in
  Ret (num_actions, action_space env).

(** A state: one frame in RGB mode, otherwise frames stacked along a new
    last axis, listed here slice by slice. *)
Inductive state : Type :=
| Frame (x : ndarray)
| Stacked (slices : list ndarray).

Record t : Type := {
  game : string;
  env : gym_env;
  resized_width : Z;
  resized_height : Z;
  agent_history_length : nat;
  single_life_episodes : bool;
  use_rgb : bool;
  gym_actions : list Z;
  state_buffer : list ndarray;   (* deque(maxlen=agent_history_length-1) *)
  visualize : bool;
  current_lives : option Z       (* unset until get_initial_state *)
}.

(** [__init__]; a history length of [0] asks for a deque of negative
    [maxlen], which raises. *)
Definition init (game_ : string) (visualize_ use_rgb_ : bool)
    (resized_width_ resized_height_ : Z) (agent_history_length_ : nat)
    (frame_skip : Z) (single_life_episodes_ : bool) : outcome t :=
  env0 <- gym_make game_ ;;
  let env1 := {| spec_id := spec_id env0; action_space := action_space env0;
                 frameskip := frame_skip; sim := sim env0 |} in
  num_actions <-
    match action_space env1 with
    | Discrete n | MultiBinary n => Ret n
    | MultiDiscrete k => Ret k
    | _ => Raise AttributeError
    end ;;
  let gym_actions0 := range num_actions in
  let gym_actions1 :=
    if str_in (spec_id env1) ["Pong-v0"; "Breakout-v0"]%string
    then [1; 2; 3]%Z
    else gym_actions0 in
  match agent_history_length_ with
  | O => Raise ValueError
  | S _ =>
      Ret {| game := game_; env := env1;
             resized_width := resized_width_;
             resized_height := resized_height_;
             agent_history_length := agent_history_length_;
             single_life_episodes := single_life_episodes_;
             use_rgb := use_rgb_;
             gym_actions := gym_actions1;
             state_buffer := [];
             visualize := visualize_;
             current_lives := None |}
  end.

Definition get_lives (e : t) : Z :=
  match ale_lives (env e) with
  | Some n => n
  | None => 0%Z
  end.

Definition get_preprocessed_frame (e : t) (observation : ndarray) : ndarray :=
  if (1 <? ndim observation)%nat then
    let observation1 :=
      if negb (use_rgb e) then rgb2gray observation else observation in
    resize observation1 (resized_width e, resized_height e)
  else observation.

Definition with_env (e : t) (env' : gym_env) : t :=
  {| game := game e; env := env';
     resized_width := resized_width e; resized_height := resized_height e;
     agent_history_length := agent_history_length e;
     single_life_episodes := single_life_episodes e;
     use_rgb := use_rgb e; gym_actions := gym_actions e;
     state_buffer := state_buffer e; visualize := visualize e;
     current_lives := current_lives e |}.

Definition with_buffer (e : t) (buf : list ndarray) (lives : option Z) : t :=
  {| game := game e; env := env e;
     resized_width := resized_width e; resized_height := resized_height e;
     agent_history_length := agent_history_length e;
     single_life_episodes := single_life_episodes e;
     use_rgb := use_rgb e; gym_actions := gym_actions e;
     state_buffer := buf; visualize := visualize e;
     current_lives := lives |}.

(** [for i in range(n): buffer.append(x)] *)
Fixpoint append_times {A} (maxlen : nat) (d : list A) (x : A) (n : nat) : list A :=
  match n with
  | O => d
  | S n' => append_times maxlen (deque_append maxlen d x) x n'
  end.

Definition get_initial_state (e : t) : t * state :=
  let '(env', x_t0) := env_reset (env e) in
  let e1 := with_buffer (with_env e env') [] (current_lives e) in
  let x_t := get_preprocessed_frame e1 x_t0 in
  let s_t :=
    if use_rgb e1 then Frame x_t
    else Stacked (repeat x_t (agent_history_length e1)) in
  let h1 := (agent_history_length e1 - 1)%nat in
  (with_buffer e1 (append_times h1 [] x_t h1) (Some (get_lives e1)), s_t).

(** [state[..., i] = self.state_buffer[i]] for the indices [idxs]. *)
Fixpoint buffered_slices (buf : list ndarray) (idxs : list nat)
  : outcome (list ndarray) :=
  match idxs with
  | [] => Ret []
  | i :: idxs' =>
      x <- of_option IndexError (nth_error buf i) ;;
      xs <- buffered_slices buf idxs' ;;
      Ret (x :: xs)
  end.

Definition get_state (e : t) (frame : ndarray) : outcome state :=
  if use_rgb e then Ret (Frame frame)
  else
    slices <- buffered_slices (state_buffer e)
                (seq 0 (agent_history_length e - 1)) ;;
    Ret (Stacked (slices ++ [frame])).

Definition next (e : t) (action_index : list Z)
  : outcome (t * (state * float * bool)) :=
  let env1 := if visualize e then env_render (env e) else env e in
  a <- argmax action_index ;;
  native <- of_option IndexError (nth_error (gym_actions e) a) ;;
  let '(env2, (frame0, reward, terminal)) := env_step env1 native in
  let e2 := with_env e env2 in
  let frame := get_preprocessed_frame e2 frame0 in
  st <- get_state e2 frame ;;
  let buf := deque_append (agent_history_length e2 - 1) (state_buffer e2) frame in
  terminal' <-
    (if single_life_episodes e2 then
       match current_lives e2 with
       | Some c => Ret (terminal || (get_lives e2 <? c)%Z)
       | None => Raise AttributeError
       end
     else Ret terminal) ;;
  Ret (with_buffer e2 buf (Some (get_lives e2)), (st, reward, terminal')).

(** The frame that [next e action_index] gets from the simulator and
    preprocesses. *)
Definition next_frame (e : t) (action_index : list Z) : outcome ndarray :=
  let env1 := if visualize e then env_render (env e) else env e in
  a <- argmax action_index ;;
  native <- of_option IndexError (nth_error (gym_actions e) a) ;;
  let '(env2, (frame0, _, _)) := env_step env1 native in
  Ret (get_preprocessed_frame (with_env e env2) frame0).

Definition last_slice (s : state) : option ndarray :=
  match s with
  | Frame _ => None
  | Stacked slices => nth_error slices (length slices - 1)
  end.

(** The wrapper [e] and the state [s] it returned last, after a call of
    [get_initial_state] on a wrapper in non-RGB mode with history length 4
    and any number of calls of [next]. *)
Inductive reachable : t -> state -> Prop :=
| reach_initial e0 e s :
    use_rgb e0 = false ->
    agent_history_length e0 = 4 ->
    get_initial_state e0 = (e, s) ->
    reachable e s
| reach_next e s a e' s' r terminal :
    reachable e s ->
    next e a = Ret (e', (s', r, terminal)) ->
    reachable e' s'.

(** What every reachable wrapper satisfies. *)
Definition window_inv (e : t) (s : state) : Prop :=
  use_rgb e = false
  /\ agent_history_length e = 4
  /\ current_lives e <> None
  /\ exists a b c, state_buffer e = [a; b; c] /\ last_slice s = Some c.

Lemma get_initial_state_window e0 e s :
  use_rgb e0 = false ->
  agent_history_length e0 = 4 ->
  get_initial_state e0 = (e, s) ->
  s = (let x := get_preprocessed_frame e0 (snd (env_reset (env e0))) in
       Stacked [x; x; x; x])
  /\ window_inv e s.
Proof.
  intros Hrgb Hlen. unfold get_initial_state.
  destruct (env_reset (env e0)) as [env' x0] eqn:Er. simpl.
  rewrite Hrgb, Hlen. simpl. intros E. inversion E; subst; clear E.
  split.
  - unfold get_preprocessed_frame; simpl. reflexivity.
  - unfold window_inv; simpl. repeat split; try assumption; try discriminate.
    do 3 eexists. split; reflexivity.
Qed.

Lemma next_window e s a e' s' r terminal :
  window_inv e s ->
  next e a = Ret (e', (s', r, terminal)) ->
  (exists w0 w1 w2 f,
      s' = Stacked [w0; w1; w2; f]
      /\ next_frame e a = Ret f
      /\ last_slice s = Some w2)
  /\ window_inv e' s'.
Proof.
  intros (Hrgb & Hlen & Hlives & x & y & z & Hbuf & Hlast).
  unfold next, next_frame. intros H.
  destruct (argmax a) as [i| |]; simpl in *; try discriminate.
  destruct (nth_error (gym_actions e) i) as [native|]; simpl in *;
    try discriminate.
  destruct (env_step (if visualize e then env_render (env e) else env e) native)
    as [env2 [[frame0 reward] term0]].
  unfold get_state in H. simpl in H.
  rewrite Hrgb, Hlen, Hbuf in H. simpl in H.
  destruct (single_life_episodes e).
  - destruct (current_lives e) as [c|]; [|congruence].
    simpl in H. inversion H; subst; clear H. split.
    + exists x, y, z. eexists. repeat split. exact Hlast.
    + unfold window_inv; simpl. repeat split; try assumption; try discriminate.
      do 3 eexists. split; reflexivity.
  - simpl in H. inversion H; subst; clear H. split.
    + exists x, y, z. eexists. repeat split. exact Hlast.
    + unfold window_inv; simpl. repeat split; try assumption; try discriminate.
      do 3 eexists. split; reflexivity.
Qed.

Lemma reachable_window e s : reachable e s -> window_inv e s.
Proof.
  induction 1 as [e0 e s Hrgb Hlen Hinit | e s a e' s' r term _ IH Hnext].
  - exact (proj2 (get_initial_state_window e0 Hrgb Hlen Hinit)).
  - exact (proj2 (next_window a IH Hnext)).
Qed.

(** In a reachable wrapper [next] returns for every action vector whose
    arg-max is one of the wrapper's actions. *)
Lemma next_returns e s a i :
  reachable e s ->
  argmax a = Ret i ->
  (i < length (gym_actions e))%nat ->
  exists res, next e a = Ret res.
Proof.
  intros Hr Ha Hi. apply reachable_window in Hr.
  destruct Hr as (Hrgb & Hlen & Hlives & x & y & z & Hbuf & _).
  unfold next. rewrite Ha. simpl.
  destruct (nth_error (gym_actions e) i) as [native|] eqn:En;
    [|apply nth_error_None in En; lia].
  simpl.
  destruct (env_step (if visualize e then env_render (env e) else env e) native)
    as [env2 [[frame0 reward] term0]].
  unfold get_state. simpl. rewrite Hrgb, Hlen, Hbuf. simpl.
  destruct (single_life_episodes e).
  - destruct (current_lives e) as [c|]; [|congruence]. simpl. eexists; reflexivity.
  - simpl. eexists; reflexivity.
Qed.

(** C6: in non-RGB mode with history length 4, [get_initial_state] returns
    four slices, each the first preprocessed frame; every later [next],
    called with an action vector whose arg-max is one of the wrapper's
    actions, returns a state, and whatever [next] returns has four slices of
    which the last is the newly preprocessed frame and the one before it is
    the last slice of the state returned before. *)
Theorem sliding_window :
  (forall e0 e s,
      use_rgb e0 = false ->
      agent_history_length e0 = 4 ->
      get_initial_state e0 = (e, s) ->
      let x := get_preprocessed_frame e0 (snd (env_reset (env e0))) in
      s = Stacked [x; x; x; x])
  /\ (forall e s a i,
         reachable e s ->
         argmax a = Ret i ->
         (i < length (gym_actions e))%nat ->
         exists e' w0 w1 w2 f r terminal,
           next e a = Ret (e', (Stacked [w0; w1; w2; f], r, terminal))
           /\ next_frame e a = Ret f
           /\ last_slice s = Some w2)
  /\ (forall e s a e' s' r terminal,
         reachable e s ->
         next e a = Ret (e', (s', r, terminal)) ->
         exists w0 w1 w2 f,
           s' = Stacked [w0; w1; w2; f]
           /\ next_frame e a = Ret f
           /\ last_slice s' = Some f
           /\ last_slice s = Some w2).
Proof.
  split; [|split].
  - intros e0 e s Hrgb Hlen Hinit.
    exact (proj1 (get_initial_state_window e0 Hrgb Hlen Hinit)).
  - intros e s a i Hr Ha Hi.
    destruct (next_returns a Hr Ha Hi) as ([e' [[s' r] term]] & Hnext).
    destruct (proj1 (next_window a (reachable_window Hr) Hnext))
      as (w0 & w1 & w2 & f & Hs & Hf & Hl).
    exists e', w0, w1, w2, f, r, term. subst s'. repeat split; assumption.
  - intros e s a e' s' r term Hr Hnext.
    destruct (proj1 (next_window a (reachable_window Hr) Hnext))
      as (w0 & w1 & w2 & f & Hs & Hf & Hl).
    exists w0, w1, w2, f. subst s'. repeat split; assumption.
Qed.

(** The discrete action count that [__init__] reads off an action space:
    its [n], or else its [num_discrete_space]. *)
Definition discrete_count (sp : space) : option Z :=
  match sp with
  | Discrete n | MultiBinary n => Some n
  | MultiDiscrete k => Some k
  | _ => None
  end.

Lemma workaround_game (game_ : string) :
  str_in game_ ["Pong-v0"; "Breakout-v0"]%string = true
  <-> game_ = "Pong-v0"%string \/ game_ = "Breakout-v0"%string.
Proof.
  rewrite str_in_spec. simpl. intuition congruence.
Qed.

(** C7: for a game registered with an action space of discrete count [n],
    the wrapper is built.  If the game is "Pong-v0" or "Breakout-v0" its
    native actions are [1; 2; 3] whatever [n] is, and [get_actions] reports
    3 for its [Discrete] space.  For every other game the native actions are
    [0], ..., [n-1], and [get_actions] reports [n] for a [Discrete] space. *)
Theorem three_action_workaround
    (game_ : string) (sp : space) (n : Z) (m : simulator)
    (visualize_ use_rgb_ : bool) (rw rh : Z) (h : nat) (frame_skip : Z)
    (single_life : bool) :
  registry game_ = Some (sp, m) ->
  discrete_count sp = Some n ->
  h <> 0 ->
  exists e,
    init game_ visualize_ use_rgb_ rw rh h frame_skip single_life = Ret e
    /\ (game_ = "Pong-v0"%string \/ game_ = "Breakout-v0"%string ->
        gym_actions e = [1; 2; 3]%Z
        /\ (sp = Discrete n -> get_actions game_ = Ret (3%Z, Discrete n)))
    /\ (game_ <> "Pong-v0"%string ->
        game_ <> "Breakout-v0"%string ->
        gym_actions e = range n
        /\ length (gym_actions e) = Z.to_nat n
        /\ (forall i, (0 <= i < n)%Z -> index (gym_actions e) i = Ret i)
        /\ (sp = Discrete n -> get_actions game_ = Ret (n, Discrete n))).
Proof.
  intros Hreg Hcount Hh.
  pose proof (workaround_game game_) as Hspec.
  unfold init, get_actions, gym_make. rewrite Hreg.
  destruct h as [|h']; [contradiction|].
  cbn [bind action_space spec_id].
  assert (Hn : match sp with
               | Discrete n0 | MultiBinary n0 => Ret n0
               | MultiDiscrete k => Ret k
               | _ => Raise AttributeError
               end = Ret n).
  { destruct sp; simpl in Hcount; inversion Hcount; reflexivity. }
  rewrite Hn. cbn [bind].
  destruct (str_in game_ ["Pong-v0"; "Breakout-v0"]%string) eqn:E.
  - eexists. split; [reflexivity|]. cbn [gym_actions]. split.
    + intros _. split; [reflexivity|]. intros ->. reflexivity.
    + intros Hp Hb. exfalso. destruct (proj1 Hspec eq_refl); contradiction.
  - eexists. split; [reflexivity|]. cbn [gym_actions]. split.
    + intros Hin. apply Hspec in Hin. discriminate Hin.
    + intros _ _. split; [reflexivity|]. split; [apply range_length|].
      split; [intros i Hi; apply index_range; exact Hi|].
      intros ->. reflexivity.
Qed.

(** ** Any history length *)

Lemma deque_append_room {A} (maxlen : nat) (d : list A) (x : A) :
  length d < maxlen -> deque_append maxlen d x = d ++ [x].
Proof.
  intros H. unfold deque_append. rewrite length_app. simpl.
  replace (length d + 1 - maxlen) with 0 by lia. reflexivity.
Qed.

(** Appending to a full deque drops its oldest entry. *)
Lemma deque_append_shift {A} (d : list A) (x : A) :
  deque_append (length d) d x = tl (d ++ [x]).
Proof.
  unfold deque_append. rewrite length_app. simpl.
  replace (length d + 1 - length d) with 1 by lia.
  destruct (d ++ [x]); reflexivity.
Qed.

Lemma deque_append_bound {A} (maxlen : nat) (d : list A) (x : A) :
  length (deque_append maxlen d x) <= maxlen.
Proof.
  unfold deque_append. rewrite length_skipn. lia.
Qed.

Lemma append_times_repeat {A} (maxlen : nat) (x : A) :
  forall n d,
    length d + n <= maxlen -> append_times maxlen d x n = d ++ repeat x n.
Proof.
  induction n as [|n IH]; intros d H; simpl.
  - rewrite app_nil_r. reflexivity.
  - rewrite deque_append_room by lia.
    rewrite IH by (rewrite length_app; simpl; lia).
    rewrite <- app_assoc. reflexivity.
Qed.

Lemma buffered_slices_from (pre buf : list ndarray) :
  buffered_slices (pre ++ buf) (seq (length pre) (length buf)) = Ret buf.
Proof.
  revert pre. induction buf as [|x buf IH]; intros pre; simpl; [reflexivity|].
  rewrite nth_error_app2 by lia. rewrite Nat.sub_diag. simpl.
  replace (pre ++ x :: buf) with ((pre ++ [x]) ++ buf)
    by (rewrite <- app_assoc; reflexivity).
  replace (S (length pre)) with (length (pre ++ [x]))
    by (rewrite length_app; simpl; lia).
  rewrite IH. reflexivity.
Qed.

Lemma buffered_slices_all (buf : list ndarray) :
  buffered_slices buf (seq 0 (length buf)) = Ret buf.
Proof. exact (buffered_slices_from [] buf). Qed.

(** The wrapper [e] and the state [s] it returned last, in non-RGB mode
    with any history length that [__init__] accepts, after a call of
    [get_initial_state] and any number of calls of [next]. *)
Inductive played : t -> state -> Prop :=
| played_initial e0 e s :
    use_rgb e0 = false ->
    agent_history_length e0 <> 0 ->
    get_initial_state e0 = (e, s) ->
    played e s
| played_next e s a e' s' r terminal :
    played e s ->
    next e a = Ret (e', (s', r, terminal)) ->
    played e' s'.

(** The state buffer holds the slices of the last state but the oldest. *)
Definition history_inv (e : t) (s : state) : Prop :=
  use_rgb e = false
  /\ current_lives e <> None
  /\ exists oldest rest,
       s = Stacked (oldest :: rest)
       /\ state_buffer e = rest
       /\ S (length rest) = agent_history_length e.

Lemma get_initial_state_history e0 e s :
  use_rgb e0 = false ->
  agent_history_length e0 <> 0 ->
  get_initial_state e0 = (e, s) ->
  s = Stacked (repeat (get_preprocessed_frame e0 (snd (env_reset (env e0))))
                 (agent_history_length e0))
  /\ history_inv e s.
Proof.
  intros Hrgb Hlen. unfold get_initial_state.
  destruct (env_reset (env e0)) as [env' x0] eqn:Er. simpl.
  rewrite Hrgb. intros E. inversion E; subst; clear E.
  rewrite append_times_repeat by (simpl; lia). simpl.
  split; [reflexivity|].
  unfold history_inv; simpl.
  split; [exact Hrgb|]. split; [discriminate|].
  destruct (agent_history_length e0) as [|h]; [contradiction|].
  simpl. rewrite Nat.sub_0_r.
  eexists; eexists. split; [reflexivity|]. split; [reflexivity|].
  rewrite repeat_length. reflexivity.
Qed.

Lemma next_history e s a e' s' r terminal :
  history_inv e s ->
  next e a = Ret (e', (s', r, terminal)) ->
  (exists oldest rest f,
      s = Stacked (oldest :: rest)
      /\ next_frame e a = Ret f
      /\ s' = Stacked (rest ++ [f])
      /\ length (rest ++ [f]) = agent_history_length e
      /\ agent_history_length e' = agent_history_length e)
  /\ history_inv e' s'.
Proof.
  intros (Hrgb & Hlives & oldest & rest & Hs & Hbuf & Hlen).
  unfold next, next_frame. intros H.
  destruct (argmax a) as [i| |]; simpl in *; try discriminate.
  destruct (nth_error (gym_actions e) i) as [native|]; simpl in *;
    try discriminate.
  destruct (env_step (if visualize e then env_render (env e) else env e) native)
    as [env2 [[frame0 reward] term0]].
  unfold get_state in H. simpl in H.
  rewrite Hrgb, <- Hlen, Hbuf in H. simpl in H.
  rewrite Nat.sub_0_r, buffered_slices_all, deque_append_shift in H.
  simpl in H.
  assert (Hshape : exists oldest' rest',
             rest ++ [get_preprocessed_frame (with_env e env2) frame0]
             = oldest' :: rest'
             /\ tl (rest ++ [get_preprocessed_frame (with_env e env2) frame0])
                = rest'
             /\ S (length rest') = S (length rest)).
  { destruct rest as [|y rest0]; simpl.
    - eexists; eexists. split; [reflexivity|]. split; reflexivity.
    - eexists; eexists. split; [reflexivity|]. split; [reflexivity|].
      rewrite length_app; simpl. lia. }
  destruct Hshape as (oldest' & rest' & Hcons & Htl & Hl').
  assert (Hend : forall term',
             Ret (with_buffer (with_env e env2)
                    (tl (rest ++ [get_preprocessed_frame (with_env e env2) frame0]))
                    (Some (get_lives (with_env e env2))),
                  (Stacked (rest ++ [get_preprocessed_frame (with_env e env2) frame0]),
                   reward, term'))
             = Ret (e', (s', r, terminal)) ->
             (exists oldest0 rest0 f,
                 s = Stacked (oldest0 :: rest0)
                 /\ Ret (get_preprocessed_frame (with_env e env2) frame0) = Ret f
                 /\ s' = Stacked (rest0 ++ [f])
                 /\ length (rest0 ++ [f]) = agent_history_length e
                 /\ agent_history_length e' = agent_history_length e)
             /\ history_inv e' s').
  { intros term' E. inversion E; subst e' s' r terminal; clear E. split.
    - exists oldest, rest. eexists.
      split; [exact Hs|]. split; [reflexivity|]. split; [reflexivity|].
      split; [rewrite length_app; simpl; lia | reflexivity].
    - unfold history_inv; simpl.
      split; [exact Hrgb|]. split; [discriminate|].
      exists oldest', rest'.
      split; [rewrite Hcons; reflexivity|]. split; [exact Htl|].
      rewrite Hl'. exact Hlen. }
  destruct (single_life_episodes e).
  - destruct (current_lives e) as [c|]; [|contradiction Hlives; reflexivity].
    simpl in H. exact (Hend _ H).
  - simpl in H. exact (Hend _ H).
Qed.

Lemma played_history e s : played e s -> history_inv e s.
Proof.
  induction 1 as [e0 e s Hrgb Hlen Hinit | e s a e' s' r term _ IH Hnext].
  - exact (proj2 (get_initial_state_history e0 Hrgb Hlen Hinit)).
  - exact (proj2 (next_history a IH Hnext)).
Qed.

(** After [get_initial_state], [next] returns for every action vector
    whose arg-max is one of the wrapper's actions. *)
Lemma next_returns_history e s a i :
  history_inv e s ->
  argmax a = Ret i ->
  i < length (gym_actions e) ->
  exists res, next e a = Ret res.
Proof.
  intros (Hrgb & Hlives & oldest & rest & _ & Hbuf & Hlen) Ha Hi.
  unfold next. rewrite Ha. cbn [bind].
  destruct (nth_error (gym_actions e) i) as [native|] eqn:En;
    [|apply nth_error_None in En; lia].
  cbn [of_option bind].
  destruct (env_step (if visualize e then env_render (env e) else env e) native)
    as [env2 [[frame0 reward] term0]].
  unfold get_state.
  cbn [with_env use_rgb agent_history_length state_buffer
         single_life_episodes current_lives].
  rewrite Hrgb, <- Hlen, Hbuf. cbn [Nat.sub].
  rewrite Nat.sub_0_r, buffered_slices_all. cbn [bind].
  destruct (single_life_episodes e).
  - destruct (current_lives e) as [c|]; [|contradiction Hlives; reflexivity].
    cbn [bind]. eexists; reflexivity.
  - cbn [bind]. eexists; reflexivity.
Qed.

(** X6: in non-RGB mode with any history length [h >= 1], the initial state
    is [h] copies of the first preprocessed frame, and every later [next]
    returns the slices of the state before it without the oldest,
    followed by the newly preprocessed frame: [h] slices again.  Once the
    initial state has been taken, [next] returns for every action vector
    whose arg-max is one of the wrapper's actions. *)
Theorem sliding_window_any_history :
  (forall e0 e s,
      use_rgb e0 = false ->
      agent_history_length e0 <> 0 ->
      get_initial_state e0 = (e, s) ->
      s = Stacked (repeat (get_preprocessed_frame e0 (snd (env_reset (env e0))))
                     (agent_history_length e0))
      /\ state_buffer e
         = repeat (get_preprocessed_frame e0 (snd (env_reset (env e0))))
             (agent_history_length e0 - 1))
  /\ (forall e s a e' s' r terminal,
         played e s ->
         next e a = Ret (e', (s', r, terminal)) ->
         exists oldest rest f,
           s = Stacked (oldest :: rest)
           /\ next_frame e a = Ret f
           /\ s' = Stacked (rest ++ [f])
           /\ length (rest ++ [f]) = agent_history_length e
           /\ agent_history_length e' = agent_history_length e
           /\ state_buffer e' = tl (rest ++ [f]))
  /\ (forall e s a i,
         played e s ->
         argmax a = Ret i ->
         i < length (gym_actions e) ->
         exists res, next e a = Ret res).
Proof.
  split; [|split].
  - intros e0 e s Hrgb Hlen Hinit.
    destruct (get_initial_state_history e0 Hrgb Hlen Hinit)
      as (Hs & _ & _ & oldest & rest & Hs' & Hbuf & Hl).
    split; [exact Hs|].
    rewrite Hbuf. rewrite Hs in Hs'.
    destruct (agent_history_length e0) as [|h]; [contradiction|].
    simpl in Hs'. inversion Hs'. simpl. rewrite Nat.sub_0_r. reflexivity.
  - intros e s a e' s' r term Hp Hnext.
    destruct (next_history a (played_history Hp) Hnext)
      as ((oldest & rest & f & Hs & Hf & Hs' & Hl & Hh)
          & _ & _ & oldest' & rest' & Hs2 & Hbuf & _).
    exists oldest, rest, f.
    repeat (split; [assumption|]).
    rewrite Hbuf. rewrite Hs' in Hs2. inversion Hs2 as [E]. rewrite E.
    reflexivity.
  - intros e s a i Hp Ha Hi.
    exact (@next_returns_history e s a i (played_history Hp) Ha Hi).
Qed.

(** ** A wrapper that has not been reset *)

Lemma argmax_returns (a : list Z) : a <> [] -> exists i, argmax a = Ret i.
Proof.
  destruct a as [|x a]; [contradiction|]. intros _. eexists; reflexivity.
Qed.

(** X7: after [__init__] and before any [get_initial_state], the state buffer
    is empty and [current_lives] is unset.  In non-RGB mode with a
    history of two frames or more, [next] then raises IndexError for
    every action vector that is not empty, when it reads the buffer or
    the action list; and with a state that needs no buffer, a
    single-life wrapper raises AttributeError for every action it
    knows, when it reads [current_lives]. *)
Theorem next_before_initial_state
    (game_ : string) (visualize_ use_rgb_ : bool) (rw rh : Z) (h : nat)
    (frame_skip : Z) (single_life : bool) (e : t) :
  init game_ visualize_ use_rgb_ rw rh h frame_skip single_life = Ret e ->
  (use_rgb_ = false -> 2 <= h ->
   forall a, a <> [] -> next e a = Raise IndexError)
  /\ (use_rgb_ = true \/ h = 1 ->
      forall a i,
        argmax a = Ret i -> i < length (gym_actions e) ->
        if single_life then next e a = Raise AttributeError
        else exists res, next e a = Ret res).
Proof.
  unfold init. intros H.
  apply bind_Ret_inv in H. destruct H as [env0 [_ H]].
  apply bind_Ret_inv in H. destruct H as [n [_ H]].
  destruct h as [|h']; [discriminate|].
  inversion H; subst e; clear H.
  split.
  - intros -> Hh a Ha. destruct (argmax_returns Ha) as [i Hi].
    unfold next. rewrite Hi. cbn [bind gym_actions visualize env].
    match goal with
    | |- context [nth_error ?l i] => destruct (nth_error l i) as [native|]
    end; [|reflexivity].
    cbn [of_option bind].
    match goal with
    | |- context [env_step ?g native] =>
        destruct (env_step g native) as [env2 [[frame0 reward] term0]]
    end.
    unfold get_state. cbn [with_env use_rgb agent_history_length state_buffer].
    destruct h' as [|h'']; [lia|]. reflexivity.
  - intros Hmode a i Hi Hlt. unfold next. rewrite Hi.
    cbn [bind gym_actions visualize env] in *.
    match goal with
    | |- context [nth_error ?l i] =>
        destruct (nth_error l i) as [native|] eqn:En;
          [|apply nth_error_None in En; lia]
    end.
    cbn [of_option bind].
    match goal with
    | |- context [env_step ?g native] =>
        destruct (env_step g native) as [env2 [[frame0 reward] term0]]
    end.
    unfold get_state.
    cbn [with_env use_rgb agent_history_length state_buffer
           single_life_episodes current_lives].
    destruct use_rgb_.
    + cbn [bind].
      destruct single_life; cbn [bind]; [reflexivity | eexists; reflexivity].
    + destruct Hmode as [Hm|Hm]; [discriminate Hm|].
      inversion Hm; subst h'. simpl.
      destruct single_life; simpl; [reflexivity | eexists; reflexivity].
Qed.

(** ** RGB mode *)

(** X8: in RGB mode a state is one frame: the observation resized, without
    the grayscale conversion, or the observation itself when it has one
    axis.  The state buffer is not read, whatever it holds. *)
Theorem rgb_states_are_single_frames (e : t) :
  use_rgb e = true ->
  (forall e' s,
      get_initial_state e = (e', s) ->
      let x := snd (env_reset (env e)) in
      s = Frame (if (1 <? ndim x)%nat
                 then resize x (resized_width e, resized_height e) else x))
  /\ (forall a e' s' r terminal,
         next e a = Ret (e', (s', r, terminal)) ->
         exists i native,
           argmax a = Ret i
           /\ nth_error (gym_actions e) i = Some native
           /\ let x := fst (fst (snd (env_step (if visualize e
                                                 then env_render (env e)
                                                 else env e) native))) in
              s' = Frame (if (1 <? ndim x)%nat
                          then resize x (resized_width e, resized_height e)
                          else x)).
Proof.
  intros Hrgb. split.
  - intros e' s. unfold get_initial_state.
    destruct (env_reset (env e)) as [env' x0]. simpl.
    rewrite Hrgb. intros E. inversion E; subst; clear E.
    unfold get_preprocessed_frame; simpl. rewrite Hrgb. reflexivity.
  - intros a e' s' r terminal. unfold next. intros H.
    apply bind_Ret_inv in H. destruct H as [i [Hi H]].
    apply bind_Ret_inv in H. destruct H as [native [Hn H]].
    exists i, native. split; [exact Hi|].
    destruct (nth_error (gym_actions e) i) as [native'|] eqn:En;
      [|discriminate Hn].
    inversion Hn; subst native'; clear Hn.
    split; [first [exact En | reflexivity]|].
    destruct (env_step (if visualize e then env_render (env e) else env e) native)
      as [env2 [[frame0 reward] term0]].
    unfold get_state in H. simpl in H. rewrite Hrgb in H. simpl in H.
    apply bind_Ret_inv in H. destruct H as [term' [_ H]].
    inversion H; subst; clear H.
    unfold get_preprocessed_frame; simpl. rewrite Hrgb. reflexivity.
Qed.

(** ** Single-life episodes *)

(** X9: [get_initial_state] records the lives the simulator has after its
    reset, and [next] those it has after its step.  What [next] reports
    as terminal is the simulator's own flag and, in a single-life
    wrapper, also any step after which there are fewer lives than were
    recorded. *)
Theorem single_life_terminal :
  (forall e e' s,
      get_initial_state e = (e', s) ->
      env e' = fst (env_reset (env e))
      /\ current_lives e' = Some (get_lives e'))
  /\ (forall e a e' s' r terminal',
         next e a = Ret (e', (s', r, terminal')) ->
         exists i native frame0 terminal,
           argmax a = Ret i
           /\ nth_error (gym_actions e) i = Some native
           /\ env_step (if visualize e then env_render (env e) else env e)
                native
              = (env e', (frame0, r, terminal))
           /\ current_lives e' = Some (get_lives e')
           /\ single_life_episodes e' = single_life_episodes e
           /\ if single_life_episodes e
              then exists c, current_lives e = Some c
                             /\ terminal' = terminal || (get_lives e' <? c)%Z
              else terminal' = terminal).
Proof.
  split.
  - intros e e' s. unfold get_initial_state.
    destruct (env_reset (env e)) as [env' x0]. simpl.
    intros E. inversion E; subst; clear E. split; reflexivity.
  - intros e a e' s' r terminal'. unfold next. intros H.
    apply bind_Ret_inv in H. destruct H as [i [Hi H]].
    apply bind_Ret_inv in H. destruct H as [native [Hn H]].
    destruct (nth_error (gym_actions e) i) as [native'|] eqn:En;
      [|discriminate Hn].
    inversion Hn; subst native'; clear Hn.
    destruct (env_step (if visualize e then env_render (env e) else env e) native)
      as [env2 [[frame0 reward] term0]] eqn:Estep.
    apply bind_Ret_inv in H. destruct H as [st [_ H]].
    apply bind_Ret_inv in H. destruct H as [term' [Ht H]].
    inversion H; subst; clear H.
    exists i, native, frame0, term0.
    split; [exact Hi|]. split; [first [exact En | reflexivity]|].
    split; [rewrite Estep; reflexivity|].
    split; [reflexivity|]. split; [reflexivity|].
    simpl in Ht. destruct (single_life_episodes e).
    + destruct (current_lives e) as [c|]; [|discriminate Ht].
      inversion Ht. exists c. split; reflexivity.
    + inversion Ht. reflexivity.
Qed.

(** ** The action count of [get_actions] and the actions of [__init__] *)

(** X10: for a registered game, [get_actions] and [__init__] both go through
    only when the action space is [Discrete], and then the count of the
    one is the number of native actions of the other.  A [Box] space is
    refused by [__init__] and counted by [get_actions]: 3 for "Pong-v0" and
    "Breakout-v0", the product of its shape for every other game.  A space
    that is not [Discrete] and has [n], or has [num_discrete_space] and no
    [n], is accepted by [__init__] and refused by [get_actions]; a space
    with neither attribute is refused by both. *)
Theorem action_count_agreement
    (game_ : string) (sp : space) (m : simulator)
    (visualize_ use_rgb_ : bool) (rw rh : Z) (h : nat) (frame_skip : Z)
    (single_life : bool) :
  registry game_ = Some (sp, m) ->
  h <> 0 ->
  let built := init game_ visualize_ use_rgb_ rw rh h frame_skip single_life in
  match sp with
  | Discrete n =>
      exists e c,
        built = Ret e
        /\ get_actions game_ = Ret (c, sp)
        /\ ((0 <= n)%Z -> c = Z.of_nat (length (gym_actions e)))
  | Box shape =>
      built = Raise AttributeError
      /\ exists c, get_actions game_ = Ret (c, sp)
                   /\ (game_ = "Pong-v0"%string \/ game_ = "Breakout-v0"%string ->
                       c = 3%Z)
                   /\ (game_ <> "Pong-v0"%string ->
                       game_ <> "Breakout-v0"%string ->
                       c = fold_left Z.mul shape 1%Z)
  | MultiBinary n =>
      (exists e, built = Ret e)
      /\ get_actions game_ = Raise (UnsupportedActionSpace "MultiBinary")
  | MultiDiscrete k =>
      (exists e, built = Ret e)
      /\ get_actions game_ = Raise (UnsupportedActionSpace "MultiDiscrete")
  | OtherSpace name =>
      built = Raise AttributeError
      /\ get_actions game_ = Raise (UnsupportedActionSpace name)
  end.
Proof.
  intros Hreg Hh built. subst built.
  pose proof (workaround_game game_) as Hspec.
  unfold init, get_actions, gym_make. rewrite Hreg.
  destruct h as [|h']; [contradiction|].
  cbn [bind action_space spec_id].
  destruct sp as [n|shape|n|k|name]; cbn [bind space_type_name].
  - destruct (str_in game_ ["Pong-v0"; "Breakout-v0"]%string) eqn:E.
    + eexists; eexists. split; [reflexivity|]. split; [reflexivity|].
      intros _. reflexivity.
    + eexists; eexists. split; [reflexivity|]. split; [reflexivity|].
      intros Hn. cbn [gym_actions]. rewrite range_length. lia.
  - split; [reflexivity|]. eexists. split; [reflexivity|].
    destruct (str_in game_ ["Pong-v0"; "Breakout-v0"]%string) eqn:E.
    + split; [reflexivity|]. intros Hp Hb. exfalso.
      destruct (proj1 Hspec eq_refl); contradiction.
    + split; [|reflexivity]. intros Hin. apply Hspec in Hin. discriminate Hin.
  - split; [eexists; reflexivity | reflexivity].
  - split; [eexists; reflexivity | reflexivity].
  - split; reflexivity.
Qed.

(** ** No call is left without an answer *)

Lemma buffered_slices_not_diverge (buf : list ndarray) (idxs : list nat) :
  buffered_slices buf idxs <> Diverge.
Proof.
  induction idxs as [|i idxs IH]; simpl; [discriminate|].
  destruct (nth_error buf i); simpl; [|discriminate].
  destruct (buffered_slices buf idxs); simpl; [discriminate.. | contradiction].
Qed.

Lemma next_not_diverge (e : t) (a : list Z) : next e a <> Diverge.
Proof.
  unfold next.
  destruct a as [|x a]; simpl; [discriminate|].
  destruct (nth_error (gym_actions e) (argmax_from x 0 1 a)) as [native|];
    simpl; [|discriminate].
  destruct (env_step (if visualize e then env_render (env e) else env e) native)
    as [env2 [[frame0 reward] term0]].
  unfold get_state. simpl.
  destruct (use_rgb e); simpl.
  - destruct (single_life_episodes e); simpl; [|discriminate].
    destruct (current_lives e); simpl; discriminate.
  - pose proof (buffered_slices_not_diverge (state_buffer e)
                  (seq 0 (agent_history_length e - 1))) as Hb.
    destruct (buffered_slices (state_buffer e)
                (seq 0 (agent_history_length e - 1))); simpl;
      [|discriminate | contradiction].
    destruct (single_life_episodes e); simpl; [|discriminate].
    destruct (current_lives e); simpl; discriminate.
Qed.

End Wrapper.

(** ** A scripted environment

    The simulator keeps the native actions taken since the last reset;
    frames are numbered by their count.  Every step pays reward [1.0], and
    the episode of "Scripted-v0" ends with its third step, that of
    "Short-v0" with its first, and that of any other game with its
    hundredth. *)

Definition scripted_registry (game_ : string) : option (space * list Z) :=
  if String.eqb game_ "Pong-v0" then Some (Discrete 6, [])
  else if String.eqb game_ "Scripted-v0" then Some (Discrete 2, [])
  else if String.eqb game_ "Long-v0" then Some (Discrete 2, [])
  else if String.eqb game_ "Short-v0" then Some (Discrete 2, [])
  else None.

Definition scripted_horizon (game_ : string) : nat :=
  if String.eqb game_ "Scripted-v0" then 3
  else if String.eqb game_ "Short-v0" then 1
  else 100.

Definition scripted_reset (g : gym_env (list Z)) : gym_env (list Z) * nat :=
  ({| spec_id := spec_id g; action_space := action_space g;
      frameskip := frameskip g; sim := [] |}, 0).

Definition scripted_step (g : gym_env (list Z)) (a : Z)
  : gym_env (list Z) * (nat * float * bool) :=
  let k := S (length (sim g)) in
  ({| spec_id := spec_id g; action_space := action_space g;
      frameskip := frameskip g; sim := sim g ++ [a] |},
   (k, 1%float, (scripted_horizon (spec_id g) <=? k)%nat)).

Definition scripted_lives (g : gym_env (list Z)) : option Z := Some 1%Z.

(** Images of three axes; grayscale conversion and resizing keep the
    frame number. *)
Definition scripted_ndim (x : nat) : nat := 3.
Definition scripted_rgb2gray (x : nat) : nat := x.
Definition scripted_resize (x : nat) (size : Z * Z) : nat := x.

Definition scripted_t : Type := t nat (list Z).

Definition scripted_init (game_ : string) : outcome scripted_t :=
  init nat scripted_registry game_ false false RESIZE_WIDTH RESIZE_HEIGHT 4 4
    false.

Definition scripted_get_initial_state (e : scripted_t)
  : scripted_t * state nat :=
  get_initial_state scripted_ndim scripted_rgb2gray scripted_resize
    scripted_reset scripted_lives e.

Definition scripted_next (e : scripted_t) (a : list Z)
  : outcome (scripted_t * (state nat * float * bool)) :=
  next scripted_ndim scripted_rgb2gray scripted_resize scripted_step
    (fun g => g) scripted_lives e a.

(** The wrapper of a game as [__init__] builds it (an empty wrapper
    stands for a game that is not registered). *)
Definition scripted_wrapper (game_ : string) : scripted_t :=
  match scripted_init game_ with
  | Ret e => e
  | _ =>
      {| game := ""; env := {| spec_id := ""; action_space := Discrete 0;
                               frameskip := 0; sim := [] |};
         resized_width := 0; resized_height := 0; agent_history_length := 0;
         single_life_episodes := false; use_rgb := false; gym_actions := [];
         state_buffer := []; visualize := false; current_lives := None |}
  end.

Definition scripted_e0 : scripted_t := scripted_wrapper "Scripted-v0".

Example scripted_init_returns :
  scripted_init "Scripted-v0" = Ret scripted_e0
  /\ gym_actions scripted_e0 = [0; 1]%Z.
Proof. split; reflexivity. Qed.

Example scripted_two_steps :
  let '(e1, s0) := scripted_get_initial_state scripted_e0 in
  s0 = Stacked [0; 0; 0; 0]
  /\ match scripted_next e1 [0; 1]%Z with
     | Ret (e2, (s1, r1, t1)) =>
         s1 = Stacked [0; 0; 0; 1] /\ r1 = 1%float /\ t1 = false
         /\ match scripted_next e2 [1; 0]%Z with
            | Ret (_, (s2, _, _)) => s2 = Stacked [0; 0; 1; 2]
            | _ => False
            end
     | _ => False
     end.
Proof. vm_compute. repeat split. Qed.

Lemma sliding_window_witness :
  exists e' w0 w1 w2 f r terminal,
    scripted_next (fst (scripted_get_initial_state scripted_e0)) [0; 1]%Z
    = Ret (e', (Stacked [w0; w1; w2; f], r, terminal))
    /\ next_frame scripted_ndim scripted_rgb2gray scripted_resize scripted_step
         (fun g => g) (fst (scripted_get_initial_state scripted_e0)) [0; 1]%Z
       = Ret f
    /\ last_slice (snd (scripted_get_initial_state scripted_e0)) = Some w2.
Proof.
  refine (proj1 (proj2 (sliding_window scripted_ndim scripted_rgb2gray
                          scripted_resize scripted_reset scripted_step
                          (fun g => g) scripted_lives))
            (fst (scripted_get_initial_state scripted_e0))
            (snd (scripted_get_initial_state scripted_e0))
            [0; 1]%Z 1 _ _ _).
  - apply reach_initial with (e0 := scripted_e0); reflexivity.
  - reflexivity.
  - vm_compute. lia.
Defined.

Example sliding_window_at_the_first_step :
  scripted_get_initial_state scripted_e0
  = (fst (scripted_get_initial_state scripted_e0), Stacked [0; 0; 0; 0])
  /\ match scripted_next (fst (scripted_get_initial_state scripted_e0))
             [0; 1]%Z with
     | Ret (_, (s1, _, _)) => s1 = Stacked [0; 0; 0; 1]
     | _ => False
     end.
Proof. vm_compute. split; reflexivity. Qed.

Lemma three_action_workaround_witness :
  (exists e,
      scripted_init "Pong-v0" = Ret e
      /\ gym_actions e = [1; 2; 3]%Z
      /\ get_actions scripted_registry "Pong-v0" = Ret (3%Z, Discrete 6))
  /\ (exists e,
         scripted_init "Scripted-v0" = Ret e
         /\ gym_actions e = [0; 1]%Z
         /\ get_actions scripted_registry "Scripted-v0" = Ret (2%Z, Discrete 2)).
Proof.
  split.
  - destruct (@three_action_workaround nat (list Z) scripted_registry "Pong-v0"
                (Discrete 6) 6%Z [] false false RESIZE_WIDTH RESIZE_HEIGHT 4 4%Z
                false eq_refl eq_refl (Nat.neq_succ_0 3))
      as (e & He & Hw & _).
    exists e. split; [exact He|].
    destruct (Hw (or_introl eq_refl)) as [Ha Hg].
    split; [exact Ha | exact (Hg eq_refl)].
  - destruct (@three_action_workaround nat (list Z) scripted_registry
                "Scripted-v0" (Discrete 2) 2%Z [] false false RESIZE_WIDTH
                RESIZE_HEIGHT 4 4%Z false eq_refl eq_refl (Nat.neq_succ_0 3))
      as (e & He & _ & Hw).
    exists e. split; [exact He|].
    assert (Hp : "Scripted-v0"%string <> "Pong-v0"%string) by discriminate.
    assert (Hb : "Scripted-v0"%string <> "Breakout-v0"%string) by discriminate.
    destruct (Hw Hp Hb) as (Ha & _ & _ & Hg).
    split; [exact Ha | exact (Hg eq_refl)].
Defined.

(** ** Scripted wrappers of other settings *)

Definition built_or_empty (o : outcome scripted_t) : scripted_t :=
  match o with
  | Ret e => e
  | _ => scripted_wrapper ""
  end.

(** "Long-v0" with a history of [h] frames. *)
Definition scripted_history (h : nat) : scripted_t :=
  built_or_empty
    (init nat scripted_registry "Long-v0" false false RESIZE_WIDTH RESIZE_HEIGHT
       h 4 false).

Example history_of_two_and_of_one :
  (let '(e1, s0) := scripted_get_initial_state (scripted_history 2) in
   s0 = Stacked [0; 0]
   /\ match scripted_next e1 [0; 1]%Z with
      | Ret (e2, (s1, _, _)) =>
          s1 = Stacked [0; 1]
          /\ match scripted_next e2 [1; 0]%Z with
             | Ret (e3, (s2, _, _)) =>
                 s2 = Stacked [1; 2] /\ state_buffer e3 = [2]
             | _ => False
             end
      | _ => False
      end)
  /\ (let '(e1, s0) := scripted_get_initial_state (scripted_history 1) in
      s0 = Stacked [0]
      /\ match scripted_next e1 [0; 1]%Z with
         | Ret (e2, (s1, _, _)) => s1 = Stacked [1] /\ state_buffer e2 = []
         | _ => False
         end).
Proof. vm_compute. repeat split. Qed.

Lemma next_before_initial_state_witness :
  scripted_next scripted_e0 [0; 1]%Z = Raise IndexError
  /\ scripted_next scripted_e0 [] = Raise ValueError.
Proof.
  split; [|reflexivity].
  refine (proj1 (@next_before_initial_state nat scripted_ndim scripted_rgb2gray
                   scripted_resize (list Z) scripted_registry scripted_step
                   (fun g => g) scripted_lives "Scripted-v0" false false
                   RESIZE_WIDTH RESIZE_HEIGHT 4 4%Z false scripted_e0 _)
            eq_refl _ [0; 1]%Z _).
  - vm_compute. reflexivity.
  - lia.
  - discriminate.
Defined.

(** "Long-v0" in RGB mode. *)
Definition scripted_rgb : scripted_t :=
  built_or_empty
    (init nat scripted_registry "Long-v0" false true RESIZE_WIDTH RESIZE_HEIGHT
       4 4 false).

Lemma rgb_states_are_single_frames_witness :
  (forall e' s,
      scripted_get_initial_state scripted_rgb = (e', s) ->
      s = Frame 0)
  /\ (forall a e' s' r terminal,
         scripted_next scripted_rgb a = Ret (e', (s', r, terminal)) ->
         exists i native,
           argmax a = Ret i
           /\ nth_error (gym_actions scripted_rgb) i = Some native
           /\ s' = Frame 1).
Proof.
  apply (@rgb_states_are_single_frames nat scripted_ndim scripted_rgb2gray
           scripted_resize (list Z) scripted_reset scripted_step
           (fun g => g) scripted_lives scripted_rgb).
  vm_compute. reflexivity.
Defined.

Example rgb_next_without_reset :
  match scripted_next scripted_rgb [0; 1]%Z with
  | Ret (e1, (s1, _, _)) => s1 = Frame 1 /\ state_buffer e1 = [1]
  | _ => False
  end.
Proof. vm_compute. split; reflexivity. Qed.

(** A simulator that starts with three lives and loses one at each step,
    in a single-life wrapper and in a wrapper that is not. *)
Definition countdown_lives (g : gym_env (list Z)) : option Z :=
  Some (3 - Z.of_nat (length (sim g)))%Z.

Definition scripted_single_life (single_life : bool) : scripted_t :=
  built_or_empty
    (init nat scripted_registry "Long-v0" false false RESIZE_WIDTH RESIZE_HEIGHT
       4 4 single_life).

Definition countdown_run (single_life : bool)
  : option (bool * option Z * bool * option Z) :=
  let '(e1, _) :=
    get_initial_state scripted_ndim scripted_rgb2gray scripted_resize
      scripted_reset countdown_lives (scripted_single_life single_life) in
  match next scripted_ndim scripted_rgb2gray scripted_resize scripted_step
          (fun g => g) countdown_lives e1 [1; 0]%Z with
  | Ret (e2, (_, _, t1)) =>
      match next scripted_ndim scripted_rgb2gray scripted_resize scripted_step
              (fun g => g) countdown_lives e2 [1; 0]%Z with
      | Ret (e3, (_, _, t2)) =>
          Some (t1, current_lives e2, t2, current_lives e3)
      | _ => None
      end
  | _ => None
  end.

Example lost_life_ends_single_life_episode :
  countdown_run true = Some (true, Some 2%Z, true, Some 1%Z)
  /\ countdown_run false = Some (false, Some 2%Z, false, Some 1%Z).
Proof. vm_compute. split; reflexivity. Qed.

Lemma action_count_agreement_witness :
  exists e c,
    scripted_init "Pong-v0" = Ret e
    /\ get_actions scripted_registry "Pong-v0" = Ret (c, Discrete 6)
    /\ ((0 <= 6)%Z -> c = Z.of_nat (length (gym_actions e))).
Proof.
  apply (@action_count_agreement nat (list Z) scripted_registry "Pong-v0"
           (Discrete 6) [] false false RESIZE_WIDTH RESIZE_HEIGHT 4 4%Z false).
  - reflexivity.
  - discriminate.
Defined.

End AtariEnvironment.


(* ------------------------------------------------------------------ *)
(** * algorithms/sequence_decoder_actor_learner.py                     *)
(* ------------------------------------------------------------------ *)

(** The worker is modelled in training mode.  Its view of the shared
    memory is the sequence of parameters it reads at its synchronisations,
    and the global step counts its own steps; logging, printing, the clock
    and checkpoints are left out, and so is the gradient computation, of
    which the model keeps the feed. *)

Module ActionSequenceA3CLearner.

Import Py.
Local Open Scope py_scope.

(** A token of an action sequence: a vector of width [num_actions + 1]
    whose last slot is the stop symbol.  The vectors the code builds hold
    only zeros and ones, kept here as integers. *)
Definition token : Type := list Z.

(** [np.hstack([np.zeros(num_actions), 1])], the GO token. *)
Definition GO (num_actions : nat) : token := repeat 0%Z num_actions ++ [1%Z].

(** [np.hstack([np.ones(num_actions), 0])] *)
Definition initial_allowed_actions (num_actions : nat) : list Z :=
  repeat 1%Z num_actions ++ [0%Z].

(** The vector with a one in slot [k] and zeros elsewhere. *)
Definition one_hot (width k : nat) : token :=
  map (fun i => if (i =? k)%nat then 1%Z else 0%Z) (seq 0 width).

(** [np.finfo(np.float32).epsneg], which is [2^-24]. *)
Definition epsneg : float := 0x1p-24%float.

(** [seq + [[0]*(num_actions+1)]*(max_decoder_steps-len(seq))] *)
Definition pad (num_actions max_decoder_steps : nat) (sequence : list token)
  : list token :=
  sequence
  ++ repeat (repeat 0%Z (num_actions + 1)) (max_decoder_steps - length sequence).

(** One row of the training mask per decoding position: ones, and a zero
    in the stop slot at position 0. *)
Definition training_mask (num_actions max_decoder_steps : nat)
  : outcome (list (list Z)) :=
  match max_decoder_steps with
  | O => Raise IndexError
  | S m =>
      Ret (set_last (repeat 1%Z (num_actions + 1)) 0%Z
           :: repeat (repeat 1%Z (num_actions + 1)) m)
  end.

Section Learner.

#[local] Set Default Proof Using "Type".

(** Emulator states, decoder cell states, network parameters, the state
    of NumPy's random generator, and the emulator. *)
Variables st cell params rng emulator : Type.

(** The emulator, as [_run] uses it: [get_initial_state], [next], [game]
    and [env.ale.lives()]. *)
Variable emu_get_initial_state : emulator -> emulator * st.
Variable emu_next : emulator -> token -> outcome (emulator * (st * float * bool)).
Variable emu_lives : emulator -> outcome Z.
Variable emu_game : emulator -> string.

(** From [actor_learner]: the games that are always reset, and the
    rescaling of rewards. *)
Variable ONE_LIFE_GAMES : list string.
Variable rescale_reward : float -> float.

(** The learner's settings. *)
Variable num_actions : nat.
Variable max_decoder_steps : nat.
Variable gamma : float.
Variable max_local_steps : Z.
Variable max_global_steps : Z.

(** What one decoding call feeds to the network (the batch of one is
    written without its outer list). *)
Record decoder_feed : Type := {
  fd_modify_state : bool;
  fd_input_ph : st;
  fd_decoder_initial_state : cell;
  fd_decoder_seq_lengths : list nat;
  fd_action_inputs : list token;
  fd_allowed_actions : list (list Z)
}.

(** The network: the parameters the shared memory holds at the [k]-th
    synchronisation, the value head, and the decoder, which answers
    [action_probs[0, 0]] and the new cell state. *)
Variable learning_vars : nat -> params.
Variable output_layer_v : params -> st -> float.
Variable decoder : params -> decoder_feed -> list float * cell.
Variable zero_cell : cell.

(** Subtraction of single-precision floats, and the index that
    [np.random.multinomial(1, pvals)] draws. *)
Variable f32_sub : float -> float -> float.
Variable draw : rng -> list float -> nat * rng.

Definition multinomial1 (g : rng) (pvals : list float) : token * rng :=
  let '(k, g') := draw g pvals in (one_hot (length pvals) k, g').

(** ** sample_action_sequence *)

Definition feed_of (modify_state : bool) (state : st) (cell_state : cell)
    (selected_action allowed_actions : list Z) : decoder_feed :=
  {| fd_modify_state := modify_state;
     fd_input_ph := state;
     fd_decoder_initial_state := cell_state;
     fd_decoder_seq_lengths := [1];
     fd_action_inputs := repeat selected_action max_decoder_steps;
     fd_allowed_actions := repeat allowed_actions max_decoder_steps |}.

(** The [while True] loop; [feeds] collects what was fed to the network,
    call by call. *)
Fixpoint decode_loop (fuel : nat) (theta : params) (state : st)
    (modify_state : bool) (cell_state : cell)
    (selected_action allowed_actions : list Z)
    (actions : list token) (g : rng) (feeds : list decoder_feed)
  : outcome (list token * rng * list decoder_feed) :=
  match fuel with
  | O => Diverge
  | S fuel' =>
      let fd := feed_of modify_state state cell_state selected_action
                  allowed_actions in
      let '(action_probs, cell_state') := decoder theta fd in
      let allowed_actions' := set_last allowed_actions 1%Z in
      let '(selected_action', g') :=
        multinomial1 g (map (fun p => f32_sub p epsneg) action_probs) in
      let actions' := actions ++ [selected_action'] in
      stop <- of_option IndexError (nth_error selected_action' num_actions) ;;
      if negb (stop =? 0)%Z || (length actions' =? max_decoder_steps)%nat
      then Ret (actions', g', feeds ++ [fd])
      else decode_loop fuel' theta state true cell_state' selected_action'
             allowed_actions' actions' g' (feeds ++ [fd])
  end.

Definition sample_action_sequence (fuel : nat) (theta : params) (state : st)
    (g : rng) : outcome (list token * float * rng * list decoder_feed) :=
  let value := output_layer_v theta state in
  '(actions, g', feeds) <-
    decode_loop fuel theta state false zero_cell (GO num_actions)
      (initial_allowed_actions num_actions) [] g [] ;;
  Ret (actions, value, g', feeds).

(** A token is the stop token when its stop slot is set. *)
Definition is_stop (a : token) : bool :=
  match nth_error a num_actions with
  | Some x => negb (x =? 0)%Z
  | None => false
  end.

(** ** _run *)

Record batches : Type := {
  s_batch : list st;
  a_batch : list (list token);
  y_batch : list float;
  adv_batch : list float
}.

Definition no_batches : batches :=
  {| s_batch := []; a_batch := []; y_batch := []; adv_batch := [] |}.

Record trajectory : Type := {
  rewards : list float;
  states : list st;
  actions : list (list token);
  values : list float
}.

Definition no_trajectory : trajectory :=
  {| rewards := []; states := []; actions := []; values := [] |}.

(** The worker's variables; [new_s] is unbound until a primitive action
    has been executed. *)
Record learner : Type := {
  emu : emulator;
  np_random : rng;
  local_step : Z;
  global_step : Z;
  syncs : nat;
  s : st;
  new_s : option st;
  total_episode_reward : float;
  batch : batches;
  reset_game : bool;
  episode_over : bool;
  steps_at_last_reward : Z
}.

(** [for a in action_sequence[:-1]: ...], given the primitive actions
    [acts = action_sequence[:-1]]. *)
Fixpoint execute (acts : list token) (e : emulator) (ns : option st)
    (acc_reward : float) (over : bool)
  : outcome (emulator * option st * float * bool) :=
  match acts with
  | [] => Ret (e, ns, acc_reward, over)
  | a :: acts' =>
      '(e', (s', reward, over')) <- emu_next e a ;;
      let acc_reward' := (acc_reward + reward)%float in
      if over' then Ret (e', Some s', acc_reward', over')
      else execute acts' e' (Some s') acc_reward' over'
  end.

(** The body of the collection loop: one decision step. *)
Definition decision_step (fuel : nat) (theta : params)
    (L : learner) (tr : trajectory) : outcome (learner * trajectory) :=
  '(action_sequence, readout_v_t, g', _) <-
    sample_action_sequence fuel theta (s L) (np_random L) ;;
  '(e', ns', acc_reward, over') <-
    execute (removelast action_sequence) (emu L) (new_s L) 0%float
      (episode_over L) ;;
  let reward := acc_reward in
  let steps_at_last_reward' :=
    if negb (reward =? 0)%float then local_step L
    else steps_at_last_reward L in
  let total' := (total_episode_reward L + reward)%float in
  let reward' := rescale_reward reward in
  let tr' := {| rewards := rewards tr ++ [reward'];
                states := states tr ++ [s L];
                actions := actions tr ++ [action_sequence];
                values := values tr ++ [readout_v_t] |} in
  s' <- of_option NameError ns' ;;
  Ret ({| emu := e'; np_random := g';
          local_step := local_step L + 1;
          global_step := global_step L + 1;
          syncs := syncs L;
          s := s'; new_s := ns';
          total_episode_reward := total';
          batch := batch L;
          reset_game := reset_game L;
          episode_over := over';
          steps_at_last_reward := steps_at_last_reward' |}, tr').

(** [while not (episode_over or
              self.local_step - local_step_start == self.max_local_steps)] *)
Fixpoint collect (fuel : nat) (theta : params) (local_step_start : Z)
    (L : learner) (tr : trajectory) : outcome (learner * trajectory) :=
  if episode_over L || (local_step L - local_step_start =? max_local_steps)%Z
  then Ret (L, tr)
  else
    match fuel with
    | O => Diverge
    | S fuel' =>
        '(L', tr') <- decision_step (S fuel') theta L tr ;;
        collect fuel' theta local_step_start L' tr'
    end.

(** The value offered by the critic in the new state. *)
Definition bootstrap (theta : params) (L : learner) : outcome float :=
  if episode_over L then Ret 0%float
  else
    ns <- of_option NameError (new_s L) ;;
    Ret (output_layer_v theta ns).

(** [for i in reversed(xrange(len(states))): ...], given the indices. *)
Fixpoint scan (idxs : list nat) (tr : trajectory) (R : float) (B : batches)
  : outcome (float * batches) :=
  match idxs with
  | [] => Ret (R, B)
  | i :: idxs' =>
      r <- of_option IndexError (nth_error (rewards tr) i) ;;
      let R' := (r + gamma * R)%float in
      a <- of_option IndexError (nth_error (actions tr) i) ;;
      x <- of_option IndexError (nth_error (states tr) i) ;;
      v <- of_option IndexError (nth_error (values tr) i) ;;
      scan idxs' tr R'
        {| y_batch := y_batch B ++ [R'];
           a_batch := a_batch B ++ [a];
           s_batch := s_batch B ++ [x];
           adv_batch := adv_batch B ++ [(R' - v)%float] |}
  end.

(** The feed of the gradient computation. *)
Record train_feed : Type := {
  input_ph : list st;
  critic_target_ph : list float;
  adv_actor_ph : list float;
  decoder_initial_state : list cell;
  action_inputs : list (list token);
  action_outputs : list (list token);
  allowed_actions : list (list (list Z));
  modify_state : bool;
  decoder_seq_lengths : list nat
}.

(** The padded sequences form an array of shape
    [batch, max_decoder_steps, num_actions+1] only if there is a sequence
    and none is longer than [max_decoder_steps]; anything else is refused,
    by the slice [[:, :-1, :]] or by the shape of the placeholder. *)
Definition padded_sequences (a_batch_ : list (list token))
  : outcome (list (list token)) :=
  match a_batch_ with
  | [] => Raise IndexError
  | _ =>
      if forallb (fun sq => (length sq <=? max_decoder_steps)%nat) a_batch_
      then Ret (map (pad num_actions max_decoder_steps) a_batch_)
      else Raise IndexError
  end.

(** Lines 152-217: bootstrap, return scan, padding, the gradient step,
    and the clearing of the batches. *)
Definition train (theta : params) (L : learner) (tr : trajectory)
  : outcome (learner * train_feed) :=
  R <- bootstrap theta L ;;
  '(_, B) <- scan (rev (seq 0 (length (states tr)))) tr R (batch L) ;;
  let seq_lengths := map (@length token) (actions tr) in
  padded_output_sequences <- padded_sequences (a_batch B) ;;
  let padded_input_sequences :=
    map (fun row => GO num_actions :: removelast row) padded_output_sequences in
  mask <- training_mask num_actions max_decoder_steps ;;
  let fd :=
    {| input_ph := s_batch B;
       critic_target_ph := y_batch B;
       adv_actor_ph := adv_batch B;
       decoder_initial_state := repeat zero_cell (length (s_batch B));
       action_inputs := padded_input_sequences;
       action_outputs := padded_output_sequences;
       allowed_actions := repeat mask (length (s_batch B));
       modify_state := false;
       decoder_seq_lengths := seq_lengths |} in
  Ret ({| emu := emu L; np_random := np_random L;
          local_step := local_step L; global_step := global_step L;
          syncs := syncs L; s := s L; new_s := new_s L;
          total_episode_reward := total_episode_reward L;
          batch := no_batches;
          reset_game := reset_game L;
          episode_over := episode_over L;
          steps_at_last_reward := steps_at_last_reward L |}, fd).

(** Lines 219-226: prevent the agent from getting stuck.  The emulator
    is asked for its lives only if the first test fails. *)
Definition stuck (L : learner) : outcome bool :=
  if (5000 <? local_step L - steps_at_last_reward L)%Z then Ret true
  else
    lives <- emu_lives (emu L) ;;
    Ret ((lives =? 0)%Z && negb (str_in (emu_game (emu L)) ONE_LIFE_GAMES)).

Definition guard (L : learner) : outcome learner :=
  b <- stuck L ;;
  if b then
    Ret {| emu := emu L; np_random := np_random L;
           local_step := local_step L; global_step := global_step L;
           syncs := syncs L; s := s L; new_s := new_s L;
           total_episode_reward := total_episode_reward L;
           batch := batch L;
           reset_game := true;
           episode_over := true;
           steps_at_last_reward := local_step L |}
  else Ret L.

(** Lines 229-245: start a new game on reaching a terminal state. *)
Definition episode_end (L : learner) : learner :=
  if episode_over L then
    if reset_game L || str_in (emu_game (emu L)) ONE_LIFE_GAMES then
      let '(e', s0) := emu_get_initial_state (emu L) in
      {| emu := e'; np_random := np_random L;
         local_step := local_step L; global_step := global_step L;
         syncs := syncs L; s := s0; new_s := new_s L;
         total_episode_reward := 0%float;
         batch := batch L;
         reset_game := false;
         episode_over := false;
         steps_at_last_reward := local_step L |}
    else
      {| emu := emu L; np_random := np_random L;
         local_step := local_step L; global_step := global_step L;
         syncs := syncs L; s := s L; new_s := new_s L;
         total_episode_reward := 0%float;
         batch := batch L;
         reset_game := reset_game L;
         episode_over := false;
         steps_at_last_reward := local_step L |}
  else L.

(** [sync_net_with_shared_memory]: the next read of the shared memory. *)
Definition sync (L : learner) : learner :=
  {| emu := emu L; np_random := np_random L;
     local_step := local_step L; global_step := global_step L;
     syncs := S (syncs L); s := s L; new_s := new_s L;
     total_episode_reward := total_episode_reward L;
     batch := batch L;
     reset_game := reset_game L;
     episode_over := episode_over L;
     steps_at_last_reward := steps_at_last_reward L |}.

(** One turn of the outer loop: synchronise with the shared memory,
    collect, train, guard, and start a new game if the episode is over. *)
Definition iteration (fuel : nat) (L : learner) : outcome (learner * train_feed) :=
  let theta := learning_vars (syncs L) in
  let L0 := sync L in
  '(L1, tr) <- collect fuel theta (local_step L0) L0 no_trajectory ;;
  '(L2, fd) <- train theta L1 tr ;;
  L3 <- guard L2 ;;
  Ret (episode_end L3, fd).

(** The worker's variables when the outer loop is entered. *)
Definition start (e : emulator) (g : rng) (local_step_ global_step_ : Z)
  : learner :=
  let '(e', s0) := emu_get_initial_state e in
  {| emu := e'; np_random := g;
     local_step := local_step_; global_step := global_step_;
     syncs := 0; s := s0; new_s := None;
     total_episode_reward := 0%float;
     batch := no_batches;
     reset_game := false; episode_over := false;
     steps_at_last_reward := local_step_ |}.

(** [while (self.global_step.value() < self.max_global_steps)], with the
    feeds of the gradient computations in order. *)
Fixpoint run_loop (turns fuel : nat) (L : learner) (log : list train_feed)
  : outcome (learner * list train_feed) :=
  if (global_step L <? max_global_steps)%Z then
    match turns with
    | O => Diverge
    | S turns' =>
        '(L', fd) <- iteration fuel L ;;
        run_loop turns' fuel L' (log ++ [fd])
    end
  else Ret (L, log).

(** [_run] in training mode. *)
Definition _run (turns fuel : nat) (e : emulator) (g : rng)
    (local_step_ global_step_ : Z) : outcome (learner * list train_feed) :=
  run_loop turns fuel (start e g local_step_ global_step_) [].

(** The learner at the head of some turn of the outer loop of [_run]. *)
Inductive at_loop_head : learner -> Prop :=
| head_start e g l0 g0 : at_loop_head (start e g l0 g0)
| head_next fuel L L' fd :
    at_loop_head L ->
    (global_step L <? max_global_steps)%Z = true ->
    iteration fuel L = Ret (L', fd) ->
    at_loop_head L'.

(** ** The decoding loop *)

Lemma nth_error_one_hot (width k i : nat) :
  i < width ->
  nth_error (one_hot width k) i = Some (if (i =? k)%nat then 1%Z else 0%Z).
Proof.
  intros Hi. unfold one_hot. rewrite nth_error_map, nth_error_seq.
  destruct (Nat.ltb_spec i width) as [_|Hge]; [reflexivity | lia].
Qed.

Lemma length_one_hot (width k : nat) : length (one_hot width k) = width.
Proof. unfold one_hot. rewrite length_map, length_seq. reflexivity. Qed.

Lemma is_stop_one_hot (width k : nat) :
  is_stop (one_hot width k) = true -> k = num_actions.
Proof.
  unfold is_stop.
  destruct (nth_error (one_hot width k) num_actions) as [x|] eqn:E;
    [|discriminate].
  assert (Hlt : num_actions < width).
  { rewrite <- (length_one_hot width k). apply nth_error_Some. congruence. }
  rewrite (nth_error_one_hot k Hlt) in E. inversion E; subst x; clear E.
  destruct (Nat.eqb_spec num_actions k) as [->|_]; [reflexivity|].
  simpl. discriminate.
Qed.

(** What a returning run of the loop appends: at least one token, one
    feed per token, no stop token before the last token, the mask it was
    entered with in the first feed and that mask with its last slot set
    in every later one, and no more tokens than [max_decoder_steps]
    allows. *)
Lemma decode_loop_shape fuel theta state :
  forall ms c sel allowed acts0 g fds0 acts g' fds,
    decode_loop fuel theta state ms c sel allowed acts0 g fds0
    = Ret (acts, g', fds) ->
    exists toks nfds,
      acts = acts0 ++ toks
      /\ fds = fds0 ++ nfds
      /\ toks <> []
      /\ length nfds = length toks
      /\ (forall i a, nth_error toks i = Some a -> is_stop a = true ->
                     i = length toks - 1)
      /\ map fd_allowed_actions nfds
         = repeat allowed max_decoder_steps
           :: repeat (repeat (set_last allowed 1%Z) max_decoder_steps)
                (length toks - 1)
      /\ (length acts0 < max_decoder_steps -> length acts <= max_decoder_steps).
Proof.
  induction fuel as [|fuel IH]; intros ms c sel allowed acts0 g fds0 acts g' fds;
    simpl; [discriminate|].
  destruct (decoder theta (feed_of ms state c sel allowed))
    as [action_probs c'] eqn:Ed.
  unfold multinomial1.
  destruct (draw g (map (fun p => f32_sub p epsneg) action_probs))
    as [k g1] eqn:Edraw.
  set (tok := one_hot (length (map (fun p => f32_sub p epsneg) action_probs)) k).
  destruct (nth_error tok num_actions) as [stop|] eqn:Estop; simpl;
    [|discriminate].
  destruct (negb (stop =? 0)%Z
            || (length (acts0 ++ [tok]) =? max_decoder_steps)%nat) eqn:Econd.
  - intros H. inversion H; subst; clear H.
    exists [tok], [feed_of ms state c sel allowed].
    repeat split; try reflexivity; try discriminate.
    + intros i a Hi _. destruct i as [|i]; [reflexivity|].
      destruct i; discriminate Hi.
    + intros Hlt. rewrite length_app. simpl. lia.
  - intros H. apply IH in H.
    destruct H as (toks & nfds & Hacts & Hfds & Hne & Hlen & Hstop & Hmask & Hbound).
    apply orb_false_iff in Econd. destruct Econd as [Enostop Enomax].
    apply negb_false_iff in Enostop.
    apply Nat.eqb_neq in Enomax.
    exists (tok :: toks), (feed_of ms state c sel allowed :: nfds).
    assert (Hpos : 1 <= length toks).
    { destruct toks; [congruence | simpl; lia]. }
    repeat split.
    + rewrite Hacts, <- app_assoc. reflexivity.
    + rewrite Hfds, <- app_assoc. reflexivity.
    + discriminate.
    + simpl. rewrite Hlen. reflexivity.
    + intros i a Hi Ha. destruct i as [|i].
      * simpl in Hi. inversion Hi; subst a; clear Hi.
        unfold is_stop in Ha. rewrite Estop, Enostop in Ha. discriminate Ha.
      * simpl in Hi. specialize (Hstop i a Hi Ha). simpl. lia.
    + simpl. rewrite Hmask, set_last_idem. f_equal.
      replace (length toks - 0) with (S (length toks - 1)) by lia.
      reflexivity.
    + intros Hlt. apply Hbound. rewrite length_app in *. simpl in *. lia.
Qed.

(** With a positive [max_decoder_steps], [max_decoder_steps] turns are
    enough for the loop to return, if the decoder's probabilities have a
    stop slot. *)
Lemma decode_loop_returns theta state
    (Hwidth : forall th fd, length (fst (decoder th fd)) = S num_actions) :
  forall fuel ms c sel allowed acts0 g fds0,
    length acts0 < max_decoder_steps ->
    max_decoder_steps - length acts0 <= fuel ->
    exists r, decode_loop fuel theta state ms c sel allowed acts0 g fds0 = Ret r.
Proof.
  induction fuel as [|fuel IH]; intros ms c sel allowed acts0 g fds0 Hlt Hfuel;
    [lia|].
  simpl.
  pose proof (Hwidth theta (feed_of ms state c sel allowed)) as Hw.
  destruct (decoder theta (feed_of ms state c sel allowed))
    as [action_probs c'] eqn:Ed.
  unfold multinomial1.
  destruct (draw g (map (fun p => f32_sub p epsneg) action_probs))
    as [k g1] eqn:Edraw.
  simpl in Hw. rewrite length_map, Hw.
  rewrite (@nth_error_one_hot (S num_actions) k num_actions) by lia. simpl.
  destruct (negb ((if (num_actions =? k)%nat then 1%Z else 0%Z) =? 0)%Z
            || (length (acts0 ++ [one_hot (S num_actions) k])
                =? max_decoder_steps)%nat) eqn:Econd.
  - eexists; reflexivity.
  - apply orb_false_iff in Econd. destruct Econd as [_ Enomax].
    apply Nat.eqb_neq in Enomax. rewrite length_app in Enomax. simpl in Enomax.
    apply IH; rewrite length_app; simpl; lia.
Qed.

(** Every token the loop appends is a one-hot vector of width
    [num_actions + 1], if the decoder's probabilities have that width and
    the drawn index is one of theirs. *)
Lemma decode_loop_one_hot theta state
    (Hwidth : forall th fd, length (fst (decoder th fd)) = S num_actions)
    (Hdraw : forall g p, p <> [] -> fst (draw g p) < length p) :
  forall fuel ms c sel allowed acts0 g fds0 acts g' fds,
    decode_loop fuel theta state ms c sel allowed acts0 g fds0
    = Ret (acts, g', fds) ->
    Forall (fun a => exists k, k < S num_actions /\ a = one_hot (S num_actions) k)
      acts0 ->
    Forall (fun a => exists k, k < S num_actions /\ a = one_hot (S num_actions) k)
      acts.
Proof.
  induction fuel as [|fuel IH]; intros ms c sel allowed acts0 g fds0 acts g' fds;
    simpl; [discriminate|].
  pose proof (Hwidth theta (feed_of ms state c sel allowed)) as Hw.
  destruct (decoder theta (feed_of ms state c sel allowed))
    as [action_probs c'] eqn:Ed.
  unfold multinomial1.
  pose proof (Hdraw g (map (fun p => f32_sub p epsneg) action_probs)) as Hk.
  destruct (draw g (map (fun p => f32_sub p epsneg) action_probs))
    as [k g1] eqn:Edraw.
  simpl in Hw, Hk. rewrite length_map, Hw in *.
  assert (Hk' : k < S num_actions).
  { apply Hk. destruct action_probs; [discriminate Hw | discriminate]. }
  rewrite (@nth_error_one_hot (S num_actions) k num_actions) by lia. simpl.
  assert (Hall : Forall (fun a => exists k, k < S num_actions
                                     /\ a = one_hot (S num_actions) k) acts0 ->
                 Forall (fun a => exists k, k < S num_actions
                                     /\ a = one_hot (S num_actions) k)
                   (acts0 ++ [one_hot (S num_actions) k])).
  { intros H0. apply Forall_app. split; [exact H0|].
    constructor; [|constructor]. exists k. split; [exact Hk' | reflexivity]. }
  destruct (negb ((if (num_actions =? k)%nat then 1%Z else 0%Z) =? 0)%Z
            || (length (acts0 ++ [one_hot (S num_actions) k])
                =? max_decoder_steps)%nat) eqn:Econd.
  - intros H H0. inversion H; subst; clear H. apply Hall, H0.
  - intros H H0. apply IH in H; [exact H | apply Hall, H0].
Qed.

(** The first feed and the first token of a returning run that starts
    with no token. *)
Lemma decode_loop_first fuel theta state ms c sel allowed g acts g' fds :
  decode_loop fuel theta state ms c sel allowed [] g [] = Ret (acts, g', fds) ->
  let fd0 := feed_of ms state c sel allowed in
  let pvals := map (fun p => f32_sub p epsneg) (fst (decoder theta fd0)) in
  nth_error fds 0 = Some fd0
  /\ nth_error acts 0 = Some (one_hot (length pvals) (fst (draw g pvals))).
Proof.
  destruct fuel as [|fuel]; simpl; [discriminate|].
  destruct (decoder theta (feed_of ms state c sel allowed))
    as [action_probs c'] eqn:Ed.
  unfold multinomial1. cbn [fst].
  destruct (draw g (map (fun p => f32_sub p epsneg) action_probs))
    as [k g1] eqn:Edraw.
  cbn [fst].
  set (tok := one_hot (length (map (fun p => f32_sub p epsneg) action_probs)) k).
  destruct (nth_error tok num_actions) as [stop|]; simpl; [|discriminate].
  match goal with
  | |- (if ?cond then _ else _) = _ -> _ => destruct cond
  end.
  - intros H. inversion H; subst; clear H. split; reflexivity.
  - intros H. apply decode_loop_shape in H.
    destruct H as (toks & nfds & -> & -> & _). split; reflexivity.
Qed.

(** X25: the network is called once for every token of the sequence.  The
    mask fed at the first call has a zero in the stop slot, in every row,
    and the mask fed at every later call has a one there; the first token
    is the one-hot vector of the index drawn from the probabilities that
    the first call answers, less [epsneg]; and with a positive
    [max_decoder_steps] a returned sequence is no longer than
    [max_decoder_steps]. *)
Theorem stop_masked_at_first_step fuel theta state g acts v g' fds :
  sample_action_sequence fuel theta state g = Ret (acts, v, g', fds) ->
  length fds = length acts
  /\ (forall k fd,
         nth_error fds k = Some fd ->
         fd_allowed_actions fd
         = repeat (repeat 1%Z num_actions ++ [if (k =? 0)%nat then 0%Z else 1%Z])
             max_decoder_steps)
  /\ (let fd0 := feed_of false state zero_cell (GO num_actions)
                   (initial_allowed_actions num_actions) in
      let pvals := map (fun p => f32_sub p epsneg) (fst (decoder theta fd0)) in
      let k0 := fst (draw g pvals) in
      nth_error fds 0 = Some fd0
      /\ (forall row, In row (fd_allowed_actions fd0) ->
                      nth_error row num_actions = Some 0%Z)
      /\ nth_error acts 0 = Some (one_hot (length pvals) k0))
  /\ (1 <= max_decoder_steps -> length acts <= max_decoder_steps).
Proof.
  unfold sample_action_sequence. intros H.
  destruct (decode_loop fuel theta state false zero_cell (GO num_actions)
              (initial_allowed_actions num_actions) [] g [])
    as [[[acts1 g1] fds1]| |] eqn:Eloop; simpl in H; try discriminate.
  inversion H; subst; clear H.
  pose proof (decode_loop_first _ _ _ _ _ _ _ _ Eloop) as [Hfd0 Htok0].
  apply decode_loop_shape in Eloop.
  destruct Eloop as (toks & nfds & Hacts & Hfds & Hne & Hlen & _ & Hmask & Hbound).
  simpl in Hacts, Hfds. subst toks nfds.
  split; [exact Hlen|]. split; [|split].
  - intros k fd Hk.
    apply (map_nth_error fd_allowed_actions) in Hk. rewrite Hmask in Hk.
    destruct k as [|k]; simpl in Hk.
    + inversion Hk; reflexivity.
    + apply nth_error_In, repeat_spec in Hk. rewrite Hk.
      unfold initial_allowed_actions. rewrite set_last_app. reflexivity.
  - split; [exact Hfd0|]. split; [|exact Htok0].
    intros row Hrow. simpl in Hrow. apply repeat_spec in Hrow. subst row.
    unfold initial_allowed_actions.
    rewrite nth_error_app2 by (rewrite repeat_length; lia).
    rewrite repeat_length, Nat.sub_diag. reflexivity.
  - intros Hmax. apply Hbound. simpl. lia.
Qed.

(** C10: with a decoder whose probabilities have width [num_actions + 1]
    and a generator that draws one of their indices, a positive
    [max_decoder_steps] makes [sample_action_sequence] return, and every
    sequence it returns has at least one token, only one-hot tokens of
    width [num_actions + 1], and no stop token except, possibly, the last
    token. *)
Theorem sampled_sequence_shape
    (Hwidth : forall th fd, length (fst (decoder th fd)) = S num_actions)
    (Hdraw : forall g p, p <> [] -> fst (draw g p) < length p) :
  (1 <= max_decoder_steps ->
   forall theta state g,
   exists r, sample_action_sequence max_decoder_steps theta state g = Ret r)
  /\ (forall fuel theta state g acts v g' fds,
         sample_action_sequence fuel theta state g = Ret (acts, v, g', fds) ->
         1 <= length acts
         /\ Forall (fun a => length a = num_actions + 1
                            /\ exists k, k < num_actions + 1
                                        /\ a = one_hot (num_actions + 1) k) acts
         /\ (forall i a, nth_error acts i = Some a -> is_stop a = true ->
                         i = length acts - 1)
         /\ (forall i j a b,
                nth_error acts i = Some a -> is_stop a = true ->
                nth_error acts j = Some b -> is_stop b = true -> i = j)).
Proof.
  split.
  - intros Hmax theta state g. unfold sample_action_sequence.
    destruct (@decode_loop_returns theta state Hwidth max_decoder_steps false
                zero_cell (GO num_actions)
                (initial_allowed_actions num_actions) [] g [])
      as [[[acts g1] fds] E]; simpl; try lia.
    rewrite E. simpl. eexists; reflexivity.
  - intros fuel theta state g acts v g' fds. unfold sample_action_sequence.
    intros H.
    destruct (decode_loop fuel theta state false zero_cell (GO num_actions)
                (initial_allowed_actions num_actions) [] g [])
      as [[[acts1 g1] fds1]| |] eqn:Eloop; simpl in H; try discriminate.
    inversion H; subst; clear H.
    pose proof (@decode_loop_one_hot theta state Hwidth Hdraw _ _ _ _ _ _ _ _
                  _ _ _ Eloop (Forall_nil _)) as Hhot.
    apply decode_loop_shape in Eloop.
    destruct Eloop as (toks & nfds & Hacts & _ & Hne & _ & Hstop & _).
    simpl in Hacts. subst toks.
    assert (Hlast : forall i a, nth_error acts i = Some a -> is_stop a = true ->
                           i = length acts - 1) by exact Hstop.
    split; [destruct acts; [congruence | simpl; lia]|].
    split; [|split; [exact Hlast|]].
    + eapply Forall_impl; [|exact Hhot].
      intros a [k [Hk ->]]. rewrite Nat.add_1_r.
      split; [apply length_one_hot|]. exists k. split; [exact Hk | reflexivity].
    + intros i j a b Hi Ha Hj Hb.
      rewrite (Hlast i a Hi Ha), (Hlast j b Hj Hb). reflexivity.
Qed.

(** ** The collection loop *)

(** The four lists of a trajectory grow together. *)
Definition aligned (tr : trajectory) : Prop :=
  length (rewards tr) = length (states tr)
  /\ length (actions tr) = length (states tr)
  /\ length (values tr) = length (states tr).

Lemma decision_step_inv fuel theta L tr L' tr' :
  decision_step fuel theta L tr = Ret (L', tr') ->
  batch L' = batch L
  /\ reset_game L' = reset_game L
  /\ syncs L' = syncs L
  /\ local_step L' = (local_step L + 1)%Z
  /\ (aligned tr -> aligned tr').
Proof.
  unfold decision_step. intros H.
  apply bind_Ret_inv in H. destruct H as [[[[sq v] g1] fds] [Es H]].
  apply bind_Ret_inv in H. destruct H as [[[[e1 ns1] acc] over1] [Ee H]].
  apply bind_Ret_inv in H. destruct H as [s1 [En H]].
  inversion H; subst; clear H. simpl.
  split; [reflexivity|]. split; [reflexivity|]. split; [reflexivity|].
  split; [reflexivity|].
  intros (H1 & H2 & H3). unfold aligned; simpl.
  rewrite !length_app; simpl. lia.
Qed.

Lemma collect_inv fuel theta start_ :
  forall L tr L1 tr1,
    collect fuel theta start_ L tr = Ret (L1, tr1) ->
    batch L1 = batch L
    /\ reset_game L1 = reset_game L
    /\ syncs L1 = syncs L
    /\ (aligned tr -> aligned tr1).
Proof.
  assert (Hstop : forall L tr L1 tr1,
             @Ret (learner * trajectory) (L, tr) = Ret (L1, tr1) ->
             batch L1 = batch L /\ reset_game L1 = reset_game L
             /\ syncs L1 = syncs L /\ (aligned tr -> aligned tr1)).
  { intros L tr L1 tr1 H. inversion H; subst; clear H.
    split; [reflexivity|]. split; [reflexivity|]. split; [reflexivity|].
    intros Hal; exact Hal. }
  induction fuel as [|fuel IH]; intros L tr L1 tr1; simpl.
  - destruct (episode_over L || (local_step L - start_ =? max_local_steps)%Z);
      [apply Hstop | discriminate].
  - destruct (episode_over L || (local_step L - start_ =? max_local_steps)%Z);
      [apply Hstop|].
    intros H. apply bind_Ret_inv in H. destruct H as [[L' tr'] [Ed H]].
    apply decision_step_inv in Ed.
    destruct Ed as (Hb & Hr & Hs & _ & Ha).
    apply IH in H. destruct H as (Hb1 & Hr1 & Hs1 & Ha1).
    split; [rewrite Hb1; exact Hb|]. split; [rewrite Hr1; exact Hr|].
    split; [rewrite Hs1; exact Hs|].
    intros Hal. apply Ha1, Ha, Hal.
Qed.

Lemma aligned_no_trajectory : aligned no_trajectory.
Proof. repeat split. Qed.

(** ** The return scan *)

(** The returns of the collected steps in chronological order:
    [R_i = reward_i + gamma * R_(i+1)], the one after the last step being
    the bootstrap value [R0]. *)
Definition discounted_returns (rs : list float) (R0 : float) : list float :=
  fold_right (fun r later => (r + gamma * hd R0 later)%float :: later) [] rs.

(** [R_i - value_i], step by step. *)
Definition advantages (returns vals : list float) : list float :=
  map (fun Rv => (fst Rv - snd Rv)%float) (combine returns vals).

Lemma discounted_returns_length rs R0 :
  length (discounted_returns rs R0) = length rs.
Proof. induction rs as [|r rs IH]; simpl; [reflexivity | now rewrite IH]. Qed.

Lemma discounted_returns_snoc rs r R0 :
  discounted_returns (rs ++ [r]) R0
  = discounted_returns rs (r + gamma * R0)%float ++ [(r + gamma * R0)%float].
Proof.
  induction rs as [|x rs IH]; simpl; [reflexivity|].
  rewrite IH. f_equal. f_equal. f_equal.
  destruct (discounted_returns rs (r + gamma * R0)%float); reflexivity.
Qed.

Lemma hd_discounted_returns_snoc rs r R0 :
  hd R0 (discounted_returns (rs ++ [r]) R0)
  = hd (r + gamma * R0)%float (discounted_returns rs (r + gamma * R0)%float).
Proof.
  rewrite discounted_returns_snoc.
  destruct (discounted_returns rs (r + gamma * R0)%float); reflexivity.
Qed.

Lemma combine_snoc {A B} (l : list A) (l' : list B) (x : A) (y : B) :
  length l = length l' ->
  combine (l ++ [x]) (l' ++ [y]) = combine l l' ++ [(x, y)].
Proof.
  revert l'; induction l as [|a l IH]; intros [|b l'] H; simpl in *;
    try discriminate; [reflexivity|].
  rewrite IH by congruence. reflexivity.
Qed.

Lemma advantages_snoc returns vals R v :
  length returns = length vals ->
  advantages (returns ++ [R]) (vals ++ [v])
  = advantages returns vals ++ [(R - v)%float].
Proof.
  intros Hlen. unfold advantages.
  rewrite combine_snoc by exact Hlen. rewrite map_app. reflexivity.
Qed.

Lemma firstn_snoc {A} (l : list A) (k : nat) (x : A) :
  nth_error l k = Some x -> firstn (S k) l = firstn k l ++ [x].
Proof.
  revert k; induction l as [|y l IH]; intros [|k] H; simpl in *;
    try discriminate.
  - inversion H; reflexivity.
  - rewrite (IH k H). reflexivity.
Qed.

(** The index loop over [k-1, ..., 0] appends to the batches the returns,
    sequences, states and advantages of the first [k] steps, last step
    first. *)
Lemma scan_spec tr :
  aligned tr ->
  forall k R B,
    k <= length (states tr) ->
    scan (rev (seq 0 k)) tr R B
    = let returns := discounted_returns (firstn k (rewards tr)) R in
      Ret (hd R returns,
           {| s_batch := s_batch B ++ rev (firstn k (states tr));
              a_batch := a_batch B ++ rev (firstn k (actions tr));
              y_batch := y_batch B ++ rev returns;
              adv_batch := adv_batch B
                           ++ rev (advantages returns (firstn k (values tr))) |}).
Proof.
  intros (Hr & Ha & Hv). induction k as [|k IH]; intros R B Hk.
  - simpl. rewrite !app_nil_r. destruct B; reflexivity.
  - destruct (nth_error (rewards tr) k) as [r|] eqn:Er;
      [|apply nth_error_None in Er; lia].
    destruct (nth_error (actions tr) k) as [a|] eqn:Ea;
      [|apply nth_error_None in Ea; lia].
    destruct (nth_error (states tr) k) as [x|] eqn:Ex;
      [|apply nth_error_None in Ex; lia].
    destruct (nth_error (values tr) k) as [v|] eqn:Ev;
      [|apply nth_error_None in Ev; lia].
    rewrite (firstn_snoc _ _ Er), (firstn_snoc _ _ Ea), (firstn_snoc _ _ Ex),
      (firstn_snoc _ _ Ev).
    rewrite seq_S, rev_app_distr. simpl.
    rewrite Er, Ea, Ex, Ev. simpl. rewrite IH by lia. simpl.
    rewrite hd_discounted_returns_snoc, discounted_returns_snoc.
    rewrite advantages_snoc
      by (rewrite discounted_returns_length, !length_firstn; lia).
    rewrite !rev_app_distr. simpl. rewrite <- !app_assoc. reflexivity.
Qed.

(** What [train] feeds to the gradient computation for an aligned
    trajectory. *)
Lemma train_feed_spec theta L tr L2 fd :
  aligned tr ->
  train theta L tr = Ret (L2, fd) ->
  exists R0,
    bootstrap theta L = Ret R0
    /\ input_ph fd = s_batch (batch L) ++ rev (states tr)
    /\ critic_target_ph fd
       = y_batch (batch L) ++ rev (discounted_returns (rewards tr) R0)
    /\ adv_actor_ph fd
       = adv_batch (batch L)
         ++ rev (advantages (discounted_returns (rewards tr) R0) (values tr))
    /\ action_outputs fd
       = map (pad num_actions max_decoder_steps)
           (a_batch (batch L) ++ rev (actions tr))
    /\ decoder_seq_lengths fd = map (@length token) (actions tr)
    /\ batch L2 = no_batches.
Proof.
  intros Hal. unfold train. intros H.
  apply bind_Ret_inv in H. destruct H as [R0 [Eb H]].
  rewrite (scan_spec Hal) in H by lia. simpl in H.
  destruct Hal as (Hr & Ha & Hv).
  rewrite <- Hr, firstn_all in H.
  rewrite Hr, <- Ha, firstn_all in H.
  rewrite Ha, <- Hv, firstn_all in H.
  rewrite Hv, firstn_all in H.
  apply bind_Ret_inv in H. destruct H as [padded [Ep H]].
  apply bind_Ret_inv in H. destruct H as [mask [Em H]].
  assert (Hpad : padded = map (pad num_actions max_decoder_steps)
                            (a_batch (batch L) ++ rev (actions tr))).
  { unfold padded_sequences in Ep. simpl in Ep.
    destruct (a_batch (batch L) ++ rev (actions tr)); [discriminate|].
    destruct (forallb _ _); [|discriminate].
    inversion Ep; reflexivity. }
  inversion H; subst; clear H. simpl.
  exists R0. split; [exact Eb|].
  repeat (split; [reflexivity|]). reflexivity.
Qed.

(** [train] returns for an aligned trajectory of at least one step whose
    sequences fit [max_decoder_steps], once a resulting state is known or
    the episode is over. *)
Lemma train_returns theta L tr :
  aligned tr ->
  states tr <> [] ->
  episode_over L = true \/ new_s L <> None ->
  Forall (fun sq => length sq <= max_decoder_steps)
    (a_batch (batch L) ++ rev (actions tr)) ->
  1 <= max_decoder_steps ->
  exists L2 fd, train theta L tr = Ret (L2, fd).
Proof.
  intros Hal Hne Hboot Hfit Hmax. unfold train.
  assert (Eb : exists R0, bootstrap theta L = Ret R0).
  { unfold bootstrap. destruct (episode_over L); [eexists; reflexivity|].
    destruct Hboot as [Hb|Hb]; [discriminate Hb|].
    destruct (new_s L) as [ns|]; [|contradiction]. eexists; reflexivity. }
  destruct Eb as [R0 ->]. simpl.
  rewrite (scan_spec Hal) by lia. simpl.
  pose proof Hal as (Hr & Ha & Hv).
  rewrite <- Ha, firstn_all.
  assert (Ep : padded_sequences (a_batch (batch L) ++ rev (actions tr))
               = Ret (map (pad num_actions max_decoder_steps)
                        (a_batch (batch L) ++ rev (actions tr)))).
  { unfold padded_sequences.
    assert (Hfb : forallb (fun sq => (length sq <=? max_decoder_steps)%nat)
                    (a_batch (batch L) ++ rev (actions tr)) = true).
    { apply forallb_forall. intros x Hx. apply Nat.leb_le.
      rewrite Forall_forall in Hfit. apply Hfit, Hx. }
    assert (Hnn : length (a_batch (batch L) ++ rev (actions tr)) <> 0).
    { rewrite length_app, length_rev, Ha.
      destruct (states tr); [contradiction | simpl; lia]. }
    revert Hfb Hnn.
    generalize (a_batch (batch L) ++ rev (actions tr)) as ab.
    intros [|sq l] Hfb Hnn; [contradiction|].
    rewrite Hfb. reflexivity. }
  rewrite Ep. simpl.
  destruct max_decoder_steps as [|m]; [lia|]. simpl.
  eexists; eexists; reflexivity.
Qed.

(** C1: for the steps collected in one turn of [_run], the critic targets
    fed to the gradient computation are the returns
    [R_i = reward_i + gamma * R_(i+1)] appended last step first, the
    advantage targets are [R_i - value_i] in the same order, and the scan
    starts from [0] if the episode is over and from the value of the
    resulting state otherwise; with [gamma = 0.9], three rewards of [1.0]
    and the episode over, the targets read in chronological order are
    [2.71], [1.9], [1]; and the gradient step is reached for every
    trajectory of at least one step whose sequences fit
    [max_decoder_steps]. *)
Theorem discounted_return_targets :
  (forall fuel theta L L1 tr L2 fd,
      collect fuel theta (local_step L) L no_trajectory = Ret (L1, tr) ->
      train theta L1 tr = Ret (L2, fd) ->
      exists R0,
        (if episode_over L1 then R0 = 0%float
         else exists ns, new_s L1 = Some ns /\ R0 = output_layer_v theta ns)
        /\ critic_target_ph fd
           = y_batch (batch L) ++ rev (discounted_returns (rewards tr) R0)
        /\ adv_actor_ph fd
           = adv_batch (batch L)
             ++ rev (advantages (discounted_returns (rewards tr) R0)
                       (values tr)))
  /\ (gamma = 0.9%float ->
      forall theta L1 tr L2 fd,
        aligned tr ->
        rewards tr = [1; 1; 1]%float ->
        episode_over L1 = true ->
        batch L1 = no_batches ->
        train theta L1 tr = Ret (L2, fd) ->
        rev (critic_target_ph fd) = [2.71; 1.9; 1]%float)
  /\ (forall theta L1 tr,
        aligned tr ->
        states tr <> [] ->
        episode_over L1 = true \/ new_s L1 <> None ->
        Forall (fun sq => length sq <= max_decoder_steps)
          (a_batch (batch L1) ++ rev (actions tr)) ->
        1 <= max_decoder_steps ->
        exists L2 fd, train theta L1 tr = Ret (L2, fd)).
Proof.
  split; [|split; [|exact train_returns]].
  - intros fuel theta L L1 tr L2 fd Hc Ht.
    apply collect_inv in Hc. destruct Hc as (Hb & _ & _ & Hal).
    specialize (Hal aligned_no_trajectory).
    destruct (train_feed_spec _ _ Hal Ht) as (R0 & Eb & _ & Hy & Hadv & _).
    exists R0. rewrite <- Hb. split; [|split; assumption].
    unfold bootstrap in Eb. destruct (episode_over L1).
    + inversion Eb; reflexivity.
    + destruct (new_s L1) as [ns|]; simpl in Eb; [|discriminate].
      inversion Eb. exists ns. split; reflexivity.
  - intros Hg theta L1 tr L2 fd Hal Hrs Hover Hbatch Ht.
    destruct (train_feed_spec _ _ Hal Ht) as (R0 & Eb & _ & Hy & _).
    unfold bootstrap in Eb. rewrite Hover in Eb. inversion Eb; subst R0.
    rewrite Hy, Hbatch, Hrs. simpl.
    unfold discounted_returns. simpl. rewrite Hg. reflexivity.
Qed.

(** ** The guard and the head of the outer loop *)

Lemma train_learner theta L tr L2 fd :
  train theta L tr = Ret (L2, fd) ->
  emu L2 = emu L /\ local_step L2 = local_step L
  /\ reset_game L2 = reset_game L /\ episode_over L2 = episode_over L
  /\ steps_at_last_reward L2 = steps_at_last_reward L
  /\ batch L2 = no_batches.
Proof.
  unfold train. intros H.
  apply bind_Ret_inv in H. destruct H as [R0 [_ H]].
  apply bind_Ret_inv in H. destruct H as [[R B] [_ H]].
  apply bind_Ret_inv in H. destruct H as [padded [_ H]].
  apply bind_Ret_inv in H. destruct H as [mask [_ H]].
  inversion H; subst; clear H. simpl.
  repeat (split; [reflexivity|]). reflexivity.
Qed.

Lemma guard_inv L L3 :
  guard L = Ret L3 ->
  batch L3 = batch L
  /\ local_step L3 = local_step L
  /\ ((stuck L = Ret true /\ episode_over L3 = true /\ reset_game L3 = true
       /\ steps_at_last_reward L3 = local_step L)
      \/ (stuck L = Ret false /\ L3 = L)).
Proof.
  unfold guard. intros H.
  apply bind_Ret_inv in H. destruct H as [[|] [Es H]];
    inversion H; subst; clear H; simpl.
  - split; [reflexivity|]. split; [reflexivity|]. left.
    split; [exact Es|]. repeat (split; [reflexivity|]). reflexivity.
  - split; [reflexivity|]. split; [reflexivity|]. right.
    split; [exact Es | reflexivity].
Qed.

Lemma stuck_false L :
  stuck L = Ret false -> (local_step L - steps_at_last_reward L <= 5000)%Z.
Proof.
  unfold stuck.
  destruct (Z.ltb_spec 5000 (local_step L - steps_at_last_reward L));
    [discriminate | intros _; assumption].
Qed.

Lemma episode_end_inv L :
  let L' := episode_end L in
  batch L' = batch L
  /\ local_step L' = local_step L
  /\ episode_over L' = false
  /\ (episode_over L = true -> steps_at_last_reward L' = local_step L
                               /\ reset_game L' = false)
  /\ (episode_over L = false -> L' = L).
Proof.
  unfold episode_end.
  destruct (episode_over L) eqn:Eo.
  - destruct (reset_game L || str_in (emu_game (emu L)) ONE_LIFE_GAMES) eqn:Er.
    + destruct (emu_get_initial_state (emu L)) as [e' s0]. simpl.
      repeat split; try reflexivity; discriminate.
    + simpl. apply orb_false_iff in Er. destruct Er as [Er _].
      repeat split; try reflexivity; try assumption; discriminate.
  - simpl. repeat split; try reflexivity; try assumption; discriminate.
Qed.

(** What one turn of the outer loop is made of. *)
Lemma iteration_inv fuel L L' fd :
  iteration fuel L = Ret (L', fd) ->
  exists L1 tr L2 L3,
    collect fuel (learning_vars (syncs L)) (local_step L) (sync L) no_trajectory
    = Ret (L1, tr)
    /\ batch L1 = batch L /\ reset_game L1 = reset_game L
    /\ aligned tr
    /\ train (learning_vars (syncs L)) L1 tr = Ret (L2, fd)
    /\ guard L2 = Ret L3
    /\ L' = episode_end L3.
Proof.
  unfold iteration. intros H.
  apply bind_Ret_inv in H. destruct H as [[L1 tr] [Ec H]].
  apply bind_Ret_inv in H. destruct H as [[L2 fd2] [Et H]].
  apply bind_Ret_inv in H. destruct H as [L3 [Eg H]].
  inversion H; subst; clear H.
  pose proof (collect_inv _ _ _ _ _ Ec) as (Hb & Hr & _ & Hal).
  simpl in Hb, Hr.
  exists L1, tr, L2, L3.
  split; [exact Ec|]. split; [exact Hb|]. split; [exact Hr|].
  split; [apply Hal, aligned_no_trajectory|].
  split; [exact Et|]. split; [exact Eg | reflexivity].
Qed.

Lemma iteration_end fuel L L' fd :
  iteration fuel L = Ret (L', fd) ->
  batch L' = no_batches
  /\ episode_over L' = false
  /\ (reset_game L = false -> reset_game L' = false)
  /\ (local_step L' - steps_at_last_reward L' <= 5000)%Z.
Proof.
  intros H. apply iteration_inv in H.
  destruct H as (L1 & tr & L2 & L3 & _ & Hb1 & Hr1 & _ & Ht & Hg & ->).
  apply train_learner in Ht.
  destruct Ht as (_ & Hl2 & Hr2 & Ho2 & Hs2 & Hb2).
  apply guard_inv in Hg. destruct Hg as (Hb3 & Hl3 & Hcase).
  destruct (episode_end_inv L3) as (Hbe & Hle & Hoe & Hyes & Hno).
  split; [congruence|]. split; [exact Hoe|].
  destruct Hcase as [(Hst & Ho3 & Hr3 & Hs3) | (Hst & ->)].
  - destruct (Hyes Ho3) as [Hs Hr]. split; [intros _; exact Hr|].
    rewrite Hle, Hs, Hl3. lia.
  - destruct (episode_over L2) eqn:Eo.
    + destruct (Hyes eq_refl) as [Hs Hr]. split; [intros _; exact Hr|].
      rewrite Hle, Hs. lia.
    + rewrite (Hno eq_refl). split; [congruence|].
      apply stuck_false, Hst.
Qed.

Lemma at_loop_head_inv L :
  at_loop_head L ->
  batch L = no_batches /\ episode_over L = false /\ reset_game L = false
  /\ (local_step L - steps_at_last_reward L <= 5000)%Z.
Proof.
  induction 1 as [e g l0 g0 | fuel L L' fd _ IH _ Hit].
  - unfold start. destruct (emu_get_initial_state e) as [e' s0]. simpl.
    repeat split. lia.
  - destruct IH as (_ & _ & Hr & _).
    apply iteration_end in Hit. destruct Hit as (Hb & Ho & Hr' & Hd).
    split; [exact Hb|]. split; [exact Ho|]. split; [exact (Hr' Hr) | exact Hd].
Qed.

(** Two lists of one length agree entry by entry exactly when they are
    equal. *)
Lemma entrywise_eq {A} (l l' : list A) :
  length l = length l' ->
  (forall i, i < length l -> nth_error l i = nth_error l' i) <-> l = l'.
Proof.
  intros Hlen. split; [|intros ->; reflexivity].
  intros H. apply nth_error_ext. intros i.
  destruct (Nat.lt_ge_cases i (length l)) as [Hi|Hi]; [apply H, Hi|].
  rewrite (proj2 (nth_error_None l i) Hi).
  symmetry. apply nth_error_None. lia.
Qed.

(** The sequence lengths fed for batch entry [i] are those of the [i]-th
    collected step, the padded sequences at entry [i] those of the step
    [i] places from the end. *)
Definition lengths_match (fd : train_feed) (a_batch_ : list (list token))
  : Prop :=
  forall i, i < length a_batch_ ->
    nth_error (decoder_seq_lengths fd) i
    = nth_error (map (@length token) a_batch_) i.

(** C4 (as amended): in every gradient update of [_run] the states,
    returns, advantages and padded sequences are in reverse chronological
    order and [decoder_seq_lengths] in chronological order; every entry of
    [decoder_seq_lengths] is the length of the sequence padded at the same
    index exactly when the list of lengths reads the same in both
    directions, which it does when all sequences have one length. *)
Theorem batch_order_and_seq_lengths fuel L L' fd :
  at_loop_head L ->
  iteration fuel L = Ret (L', fd) ->
  exists L1 tr R0 a_batch_,
    collect fuel (learning_vars (syncs L)) (local_step L) (sync L) no_trajectory
    = Ret (L1, tr)
    /\ aligned tr
    /\ a_batch_ = rev (actions tr)
    /\ input_ph fd = rev (states tr)
    /\ critic_target_ph fd = rev (discounted_returns (rewards tr) R0)
    /\ adv_actor_ph fd
       = rev (advantages (discounted_returns (rewards tr) R0) (values tr))
    /\ action_outputs fd = map (pad num_actions max_decoder_steps) a_batch_
    /\ decoder_seq_lengths fd = map (@length token) (actions tr)
    /\ (lengths_match fd a_batch_
        <-> map (@length token) (actions tr)
            = rev (map (@length token) (actions tr)))
    /\ ((exists n, Forall (fun sq => length sq = n) (actions tr)) ->
        lengths_match fd a_batch_).
Proof.
  intros Hhead Hit.
  apply at_loop_head_inv in Hhead. destruct Hhead as (Hb & _).
  apply iteration_inv in Hit.
  destruct Hit as (L1 & tr & L2 & L3 & Hc & Hb1 & _ & Hal & Ht & _ & _).
  destruct (train_feed_spec _ _ Hal Ht)
    as (R0 & _ & Hs & Hy & Hadv & Hout & Hlen & _).
  rewrite Hb1, Hb in Hs, Hy, Hadv, Hout. simpl in Hs, Hy, Hadv, Hout.
  exists L1, tr, R0, (rev (actions tr)).
  assert (Hiff : lengths_match fd (rev (actions tr))
                 <-> map (@length token) (actions tr)
                     = rev (map (@length token) (actions tr))).
  { unfold lengths_match. rewrite Hlen, map_rev, length_rev.
    rewrite <- (length_map (@length token) (actions tr)).
    apply entrywise_eq. rewrite length_rev. reflexivity. }
  repeat split; try assumption; try apply Hal; try apply Hiff.
  intros [n Hn]. apply Hiff.
  assert (Hrep : map (@length token) (actions tr)
                 = repeat n (length (actions tr))).
  { clear - Hn. induction (actions tr) as [|sq l IH]; [reflexivity|].
    inversion Hn; subst. simpl. rewrite IH by assumption. reflexivity. }
  rewrite Hrep. symmetry. apply rev_repeat.
Qed.


(** ** The primitive actions of one decision step *)

(** Calling [next] for each action of a list, whatever it reports. *)
Fixpoint steps (e : emulator) (acts : list token)
  : outcome (emulator * list (st * float * bool)) :=
  match acts with
  | [] => Ret (e, [])
  | a :: acts' =>
      '(e1, r) <- emu_next e a ;;
      '(e2, rs) <- steps e1 acts' ;;
      Ret (e2, r :: rs)
  end.

(** The [for] loop calls [next] on a prefix [done] of its actions, in
    order, and adds up the rewards; no call but the last reports the
    episode over, and actions are left over only if the last call does. *)
Lemma execute_prefix :
  forall acts e ns acc over e' ns' acc' over',
    execute acts e ns acc over = Ret (e', ns', acc', over') ->
    exists done rest results,
      acts = done ++ rest
      /\ steps e done = Ret (e', results)
      /\ length results = length done
      /\ acc' = fold_left (fun a r => (a + snd (fst r))%float) results acc
      /\ Forall (fun r => snd r = false) (removelast results)
      /\ (rest <> [] ->
          exists results0 r, results = results0 ++ [r] /\ snd r = true)
      /\ (results = [] -> over' = over /\ ns' = ns)
      /\ (forall results0 r,
            results = results0 ++ [r] ->
            over' = snd r /\ ns' = Some (fst (fst r))).
Proof.
  induction acts as [|a acts IH]; intros e ns acc over e' ns' acc' over'; simpl.
  - intros H. inversion H; subst; clear H.
    exists [], [], []. simpl.
    split; [reflexivity|]. split; [reflexivity|]. split; [reflexivity|].
    split; [reflexivity|]. split; [constructor|].
    split; [intros C; contradiction|].
    split; [intros _; split; reflexivity|].
    intros [|x l] r E; discriminate E.
  - intros H. apply bind_Ret_inv in H.
    destruct H as [[e1 [[s1 r1] o1]] [En H]].
    destruct o1.
    + inversion H; subst; clear H.
      exists [a], acts, [(s1, r1, true)]. simpl. rewrite En. simpl.
      split; [reflexivity|]. split; [reflexivity|]. split; [reflexivity|].
      split; [reflexivity|]. split; [constructor|].
      split; [intros _; exists [], (s1, r1, true); split; reflexivity|].
      split; [discriminate|].
      intros [|x l] r E.
      * inversion E; subst. split; reflexivity.
      * inversion E as [[Ex El]]. destruct l; discriminate El.
    + apply IH in H.
      destruct H as (done & rest & results & -> & Hs & Hlen & Hacc & Hall
                     & Hrest & Hnil & Hlast).
      exists (a :: done), rest, ((s1, r1, false) :: results).
      simpl. rewrite En. simpl. rewrite Hs. simpl.
      split; [reflexivity|]. split; [reflexivity|].
      split; [rewrite Hlen; reflexivity|]. split; [exact Hacc|].
      split; [destruct results; constructor; [reflexivity | exact Hall]|].
      split.
      { intros Hne. destruct (Hrest Hne) as (results0 & r & -> & Hr).
        exists ((s1, r1, false) :: results0), r. split; [reflexivity | exact Hr]. }
      split; [discriminate|].
      intros [|x l] r E.
      * inversion E; subst. destruct (Hnil eq_refl) as [-> ->].
        split; reflexivity.
      * inversion E; subst. apply (Hlast l r eq_refl).
Qed.

(** Every learner that [_run] brings to the head of its loop is
    [at_loop_head], and what holds of the feed of every turn taken from
    such a head holds of every feed that [_run] logs. *)
Lemma run_loop_feeds (P : train_feed -> Prop) :
  (forall fuel L L' fd,
      at_loop_head L -> iteration fuel L = Ret (L', fd) -> P fd) ->
  forall turns fuel L log L' log',
    at_loop_head L ->
    Forall P log ->
    run_loop turns fuel L log = Ret (L', log') ->
    at_loop_head L' /\ Forall P log'.
Proof.
  intros HP. induction turns as [|turns IH]; intros fuel L log L' log' Hh Hlog;
    simpl.
  - destruct (global_step L <? max_global_steps)%Z; [discriminate|].
    intros H; inversion H; subst; clear H. split; assumption.
  - destruct (global_step L <? max_global_steps)%Z eqn:Eg.
    + intros H. apply bind_Ret_inv in H. destruct H as [[L1 fd] [Eit H]].
      apply IH in H; [exact H | | ].
      * exact (head_next _ Hh Eg Eit).
      * apply Forall_app. split; [exact Hlog|].
        constructor; [|constructor]. exact (HP _ _ _ _ Hh Eit).
    + intros H; inversion H; subst; clear H. split; assumption.
Qed.

(** ** The calls of the decoder *)

(** Each call draws its token from the probabilities it was answered
    with, and the call after it is fed that token, the cell state the
    decoder answered, and the mask with its last slot set. *)
Lemma decode_loop_chain fuel theta state :
  forall ms c sel allowed acts0 g fds0 acts g' fds,
    decode_loop fuel theta state ms c sel allowed acts0 g fds0
    = Ret (acts, g', fds) ->
    exists toks nfds,
      acts = acts0 ++ toks
      /\ fds = fds0 ++ nfds
      /\ nth_error nfds 0 = Some (feed_of ms state c sel allowed)
      /\ (forall k fd a,
             nth_error nfds k = Some fd -> nth_error toks k = Some a ->
             exists gk,
               a = fst (multinomial1 gk (map (fun p => f32_sub p epsneg)
                                           (fst (decoder theta fd)))))
      /\ (forall k fd a fd',
             nth_error nfds k = Some fd -> nth_error toks k = Some a ->
             nth_error nfds (S k) = Some fd' ->
             fd' = feed_of true state (snd (decoder theta fd)) a
                     (set_last allowed 1%Z)).
Proof.
  induction fuel as [|fuel IH]; intros ms c sel allowed acts0 g fds0 acts g' fds;
    simpl; [discriminate|].
  destruct (decoder theta (feed_of ms state c sel allowed))
    as [action_probs c'] eqn:Ed.
  assert (Etok : forall gk,
             fst (multinomial1 gk (map (fun p => f32_sub p epsneg)
                    (fst (decoder theta (feed_of ms state c sel allowed)))))
             = fst (multinomial1 gk (map (fun p => f32_sub p epsneg)
                                       action_probs))).
  { intros gk. rewrite Ed. reflexivity. }
  destruct (multinomial1 g (map (fun p => f32_sub p epsneg) action_probs))
    as [tok g1] eqn:Edraw.
  destruct (nth_error tok num_actions) as [stop|] eqn:Estop; simpl;
    [|discriminate].
  destruct (negb (stop =? 0)%Z
            || (length (acts0 ++ [tok]) =? max_decoder_steps)%nat) eqn:Econd.
  - intros H. inversion H; subst; clear H.
    exists [tok], [feed_of ms state c sel allowed].
    split; [reflexivity|]. split; [reflexivity|]. split; [reflexivity|].
    split.
    + intros k fd a Hfd Ha. destruct k as [|k];
        [|destruct k; discriminate Hfd].
      simpl in Hfd, Ha. inversion Hfd; inversion Ha; subst; clear Hfd Ha.
      exists g. rewrite Etok, Edraw. reflexivity.
    + intros k fd a fd' _ _ Hfd'. destruct k; discriminate Hfd'.
  - intros H. apply IH in H.
    destruct H as (toks & nfds & Hacts & Hfds & Hfirst & Hdrawn & Hchain).
    exists (tok :: toks), (feed_of ms state c sel allowed :: nfds).
    split; [rewrite Hacts, <- app_assoc; reflexivity|].
    split; [rewrite Hfds, <- app_assoc; reflexivity|].
    split; [reflexivity|]. split.
    + intros k fd a Hfd Ha. destruct k as [|k].
      * simpl in Hfd, Ha. inversion Hfd; inversion Ha; subst; clear Hfd Ha.
        exists g. rewrite Etok, Edraw. reflexivity.
      * exact (Hdrawn k fd a Hfd Ha).
    + intros k fd a fd' Hfd Ha Hfd'. destruct k as [|k].
      * simpl in Hfd, Ha. change (nth_error nfds 0 = Some fd') in Hfd'.
        inversion Hfd; inversion Ha; subst; clear Hfd Ha.
        rewrite Hfirst in Hfd'. inversion Hfd'. rewrite Ed. reflexivity.
      * rewrite <- (set_last_idem allowed 1%Z).
        exact (Hchain k fd a fd' Hfd Ha Hfd').
Qed.

(** X11: the value returned with a sequence is the value head's answer for
    the state; every token is drawn from the probabilities the decoder
    answered at its call, less [epsneg]; and every call but the first is
    fed the state again, the token drawn before it in every input row,
    the cell state answered before it, the flag [modify_state] set, and
    the mask of ones. *)
Theorem decoder_feedback fuel theta state g acts v g' fds :
  sample_action_sequence fuel theta state g = Ret (acts, v, g', fds) ->
  v = output_layer_v theta state
  /\ (forall k fd a,
         nth_error fds k = Some fd -> nth_error acts k = Some a ->
         exists gk,
           a = fst (multinomial1 gk (map (fun p => f32_sub p epsneg)
                                       (fst (decoder theta fd)))))
  /\ (forall k fd a fd',
         nth_error fds k = Some fd -> nth_error acts k = Some a ->
         nth_error fds (S k) = Some fd' ->
         fd' = {| fd_modify_state := true;
                  fd_input_ph := state;
                  fd_decoder_initial_state := snd (decoder theta fd);
                  fd_decoder_seq_lengths := [1];
                  fd_action_inputs := repeat a max_decoder_steps;
                  fd_allowed_actions :=
                    repeat (repeat 1%Z num_actions ++ [1%Z])
                      max_decoder_steps |}).
Proof.
  unfold sample_action_sequence. intros H.
  apply bind_Ret_inv in H. destruct H as [[[acts1 g1] fds1] [Eloop H]].
  inversion H; subst; clear H.
  apply decode_loop_chain in Eloop.
  destruct Eloop as (toks & nfds & Hacts & Hfds & _ & Hdrawn & Hchain).
  simpl in Hacts, Hfds. subst toks nfds.
  split; [reflexivity|]. split; [exact Hdrawn|].
  intros k fd a fd' Hfd Ha Hfd'.
  rewrite (Hchain k fd a fd' Hfd Ha Hfd').
  unfold feed_of, initial_allowed_actions. rewrite set_last_app. reflexivity.
Qed.

(** A run of the loop returns on a stop token or on reaching
    [max_decoder_steps] tokens, and on nothing else. *)
Lemma decode_loop_exit fuel theta state :
  forall ms c sel allowed acts0 g fds0 acts g' fds,
    decode_loop fuel theta state ms c sel allowed acts0 g fds0
    = Ret (acts, g', fds) ->
    exists body t,
      acts = body ++ [t]
      /\ (is_stop t = true \/ length acts = max_decoder_steps).
Proof.
  induction fuel as [|fuel IH]; intros ms c sel allowed acts0 g fds0 acts g' fds;
    simpl; [discriminate|].
  destruct (decoder theta (feed_of ms state c sel allowed))
    as [action_probs c'].
  destruct (multinomial1 g (map (fun p => f32_sub p epsneg) action_probs))
    as [tok g1].
  destruct (nth_error tok num_actions) as [stop|] eqn:Estop; simpl;
    [|discriminate].
  destruct (negb (stop =? 0)%Z
            || (length (acts0 ++ [tok]) =? max_decoder_steps)%nat) eqn:Econd.
  - intros H. inversion H; subst; clear H.
    exists acts0, tok. split; [reflexivity|].
    apply orb_true_iff in Econd. destruct Econd as [Es|El].
    + left. unfold is_stop. rewrite Estop. exact Es.
    + right. apply Nat.eqb_eq. exact El.
  - intros H. exact (IH _ _ _ _ _ _ _ _ _ _ H).
Qed.

(** X12: a sampled sequence is a run of tokens that are not the stop token,
    followed by one more token; that last token is the stop token unless
    the sequence has exactly [max_decoder_steps] tokens, so a sequence
    that does not end with the stop token has been cut at that length. *)
Theorem sampled_sequence_end fuel theta state g acts v g' fds :
  sample_action_sequence fuel theta state g = Ret (acts, v, g', fds) ->
  exists body t,
    acts = body ++ [t]
    /\ Forall (fun a => is_stop a = false) body
    /\ (is_stop t = true \/ length acts = max_decoder_steps)
    /\ (is_stop t = false -> length body = max_decoder_steps - 1)
    /\ (max_decoder_steps = 0 -> is_stop t = true).
Proof.
  unfold sample_action_sequence. intros H.
  apply bind_Ret_inv in H. destruct H as [[[acts1 g1] fds1] [Eloop H]].
  inversion H; subst; clear H.
  destruct (decode_loop_exit _ _ _ _ _ _ _ _ _ _ Eloop)
    as (body & t & Hacts & Hend).
  apply decode_loop_shape in Eloop.
  destruct Eloop as (toks & nfds & Hacts' & _ & _ & _ & Hstop & _).
  simpl in Hacts'. subst toks. subst acts.
  exists body, t. split; [reflexivity|].
  split; [|split; [exact Hend|split]];
    rewrite length_app in Hend; simpl in Hend.
  - apply Forall_forall. intros a Ha.
    destruct (is_stop a) eqn:Ea; [|reflexivity].
    apply In_nth_error in Ha. destruct Ha as [i Hi].
    assert (Hlt : i < length body) by (apply nth_error_Some; congruence).
    specialize (Hstop i a).
    rewrite nth_error_app1 in Hstop by exact Hlt.
    specialize (Hstop Hi Ea). rewrite length_app in Hstop. simpl in Hstop. lia.
  - intros Hno. destruct Hend as [Hyes|Hlen]; [|lia].
    rewrite Hyes in Hno. discriminate Hno.
  - intros Hmax. destruct Hend as [Hyes|Hlen]; [exact Hyes | lia].
Qed.

(** ** A sequence of one token *)

(** ** The members of a sequence that a decision step executes *)

Lemma sample_action_sequence_parts fuel theta state g acts v g' fds :
  sample_action_sequence fuel theta state g = Ret (acts, v, g', fds) ->
  exists body t,
    acts = body ++ [t]
    /\ Forall (fun a => is_stop a = false) body
    /\ (is_stop t = false -> length acts = max_decoder_steps).
Proof.
  unfold sample_action_sequence. intros H.
  apply bind_Ret_inv in H. destruct H as [[[acts1 g1] fds1] [Eloop H]].
  inversion H; subst; clear H.
  destruct (decode_loop_exit _ _ _ _ _ _ _ _ _ _ Eloop)
    as (body & t & Hacts & Hend).
  apply decode_loop_shape in Eloop.
  destruct Eloop as (toks & nfds & Hacts' & _ & _ & _ & Hstop & _).
  simpl in Hacts'. subst toks. subst acts.
  exists body, t. split; [reflexivity|]. split.
  - apply Forall_forall. intros a Ha.
    destruct (is_stop a) eqn:Ea; [|reflexivity].
    apply In_nth_error in Ha. destruct Ha as [i Hi].
    assert (Hlt : i < length body) by (apply nth_error_Some; congruence).
    specialize (Hstop i a).
    rewrite nth_error_app1 in Hstop by exact Hlt.
    specialize (Hstop Hi Ea). rewrite length_app in Hstop. simpl in Hstop. lia.
  - intros Hno. destruct Hend as [Hyes|Hlen]; [|exact Hlen].
    rewrite Hyes in Hno. discriminate Hno.
Qed.

(** X24: a decision step samples a sequence and records it.  The sequence
    is a run of members that are not the stop marker, followed by one last
    member, which is the stop marker unless the sequence has
    [max_decoder_steps] members.  The members before the last are executed
    in order, all [len(sequence) - 1] of them unless one reports the episode
    over, after which none is executed; the last member is not executed,
    whatever it is; and the reward recorded for the step is the rescaled
    sum of the rewards of the executed actions. *)
Theorem primitive_actions_of_a_step fuel theta L tr L' tr' :
  decision_step fuel theta L tr = Ret (L', tr') ->
  exists sq v g' fds body t,
    sample_action_sequence fuel theta (s L) (np_random L) = Ret (sq, v, g', fds)
    /\ actions tr' = actions tr ++ [sq]
    /\ sq = body ++ [t]
    /\ Forall (fun a => is_stop a = false) body
    /\ (is_stop t = false -> length sq = max_decoder_steps)
    /\ exists done rest results,
         body = done ++ rest
         /\ steps (emu L) done = Ret (emu L', results)
         /\ length results = length done
         /\ Forall (fun r => snd r = false) (removelast results)
         /\ (rest <> [] ->
             exists results0 r, results = results0 ++ [r] /\ snd r = true)
         /\ (rest = [] -> length done = length sq - 1)
         /\ rewards tr'
            = rewards tr
              ++ [rescale_reward
                    (fold_left (fun a r => (a + snd (fst r))%float) results
                       0%float)]
         /\ (forall results0 r,
               results = results0 ++ [r] -> episode_over L' = snd r).
Proof.
  unfold decision_step. intros H.
  apply bind_Ret_inv in H. destruct H as [[[[sq v] g1] fds] [Es H]].
  apply bind_Ret_inv in H. destruct H as [[[[e1 ns1] acc] over1] [Ee H]].
  apply bind_Ret_inv in H. destruct H as [s1 [En H]].
  inversion H; subst; clear H. simpl.
  destruct (sample_action_sequence_parts _ _ _ _ Es)
    as (body & t & Hsq & Hbody & Hcut).
  exists sq, v, g1, fds, body, t.
  split; [exact Es|]. split; [reflexivity|]. split; [exact Hsq|].
  split; [exact Hbody|]. split; [exact Hcut|].
  subst sq. rewrite removelast_last in Ee.
  apply execute_prefix in Ee.
  destruct Ee as (done & rest & results & Hb & Hs & Hlen & Hacc & Hall
                  & Hrest & _ & Hlast).
  exists done, rest, results.
  split; [exact Hb|]. split; [exact Hs|]. split; [exact Hlen|].
  split; [exact Hall|]. split; [exact Hrest|].
  split.
  { intros ->. rewrite Hb, app_nil_r, !length_app. simpl. lia. }
  split; [rewrite Hacc; reflexivity|].
  intros results0 r E. exact (proj1 (Hlast results0 r E)).
Qed.

(** X13: a sampled sequence of one token has no primitive action.  No call
    goes to the emulator, the reward of the step is the rescaled [0.0],
    the episode flag and the step of the last reward stay as they were,
    and the state for the next step is the one [new_s] was last bound
    to, whatever the state of this step is; and if [new_s] has never
    been bound, the step raises NameError. *)
Theorem one_token_step fuel theta L tr t v g' fds :
  sample_action_sequence fuel theta (s L) (np_random L) = Ret ([t], v, g', fds) ->
  (new_s L = None -> decision_step fuel theta L tr = Raise NameError)
  /\ (forall x,
         new_s L = Some x ->
         exists L' tr',
           decision_step fuel theta L tr = Ret (L', tr')
           /\ emu L' = emu L
           /\ s L' = x
           /\ new_s L' = Some x
           /\ episode_over L' = episode_over L
           /\ steps_at_last_reward L' = steps_at_last_reward L
           /\ local_step L' = (local_step L + 1)%Z
           /\ rewards tr' = rewards tr ++ [rescale_reward 0%float]
           /\ states tr' = states tr ++ [s L]
           /\ actions tr' = actions tr ++ [[t]]).
Proof.
  intros Hs. unfold decision_step. rewrite Hs. cbn [bind removelast execute].
  split.
  - intros ->. reflexivity.
  - intros x ->. cbn [of_option bind].
    eexists; eexists. split; [reflexivity|]. cbn.
    repeat (split; [reflexivity|]). reflexivity.
Qed.

(** X14: with [max_decoder_steps = 1] every sampled sequence has one token, so
    the first decision step of [_run] finds [new_s] unbound: whenever the
    outer loop and the collection loop are entered, [_run] raises
    NameError before any call of the emulator's [next]. *)
Theorem single_decoder_step_never_acts
    (Hwidth : forall th fd, length (fst (decoder th fd)) = S num_actions)
    turns fuel e g l0 g0 :
  max_decoder_steps = 1 ->
  (g0 < max_global_steps)%Z ->
  max_local_steps <> 0%Z ->
  _run (S turns) (S fuel) e g l0 g0 = Raise NameError.
Proof.
  intros Hmax Hg Hl. unfold _run, start.
  destruct (emu_get_initial_state e) as [e' s0].
  cbn [run_loop global_step].
  destruct (Z.ltb_spec g0 max_global_steps) as [_|Hge]; [|lia].
  unfold iteration, sync. cbn [syncs local_step collect episode_over orb].
  rewrite Z.sub_diag.
  destruct (Z.eqb_spec 0 max_local_steps) as [E|_];
    [exfalso; apply Hl; symmetry; exact E|].
  unfold decision_step, sample_action_sequence.
  cbn [s np_random decode_loop].
  pose proof (Hwidth (learning_vars 0)
                (feed_of false s0 zero_cell (GO num_actions)
                   (initial_allowed_actions num_actions))) as Hw.
  destruct (decoder (learning_vars 0)
              (feed_of false s0 zero_cell (GO num_actions)
                 (initial_allowed_actions num_actions)))
    as [action_probs c'].
  unfold multinomial1.
  destruct (draw g (map (fun p => f32_sub p epsneg) action_probs)) as [k g1].
  cbn [fst] in Hw. rewrite length_map, Hw.
  rewrite (@nth_error_one_hot (S num_actions) k num_actions) by lia.
  cbn [of_option bind app length]. rewrite Hmax.
  cbn [Nat.eqb]. rewrite orb_true_r.
  cbn [bind removelast app execute emu new_s of_option]. reflexivity.
Qed.

(** ** The steps of one turn *)

Lemma decision_step_counters fuel theta L tr L' tr' :
  decision_step fuel theta L tr = Ret (L', tr') ->
  local_step L' = (local_step L + 1)%Z
  /\ global_step L' = (global_step L + 1)%Z
  /\ length (states tr') = S (length (states tr))
  /\ new_s L' <> None.
Proof.
  unfold decision_step. intros H.
  apply bind_Ret_inv in H. destruct H as [[[[sq v] g1] fds] [Es H]].
  apply bind_Ret_inv in H. destruct H as [[[[e1 ns1] acc] over1] [Ee H]].
  apply bind_Ret_inv in H. destruct H as [s1 [En H]].
  inversion H; subst; clear H. simpl.
  split; [reflexivity|]. split; [reflexivity|].
  split; [rewrite length_app; simpl; lia|].
  destruct ns1; [discriminate | discriminate En].
Qed.

Lemma collect_count fuel theta start_ :
  forall L tr L1 tr1,
    collect fuel theta start_ L tr = Ret (L1, tr1) ->
    exists n : nat,
      length (states tr1) = length (states tr) + n
      /\ local_step L1 = (local_step L + Z.of_nat n)%Z
      /\ global_step L1 = (global_step L + Z.of_nat n)%Z
      /\ (episode_over L1 = true
          \/ (local_step L1 - start_ = max_local_steps)%Z)
      /\ (episode_over L = false ->
          (local_step L - start_)%Z <> max_local_steps -> 1 <= n)
      /\ ((local_step L - start_ <= max_local_steps)%Z ->
          (local_step L1 - start_ <= max_local_steps)%Z)
      /\ (n = 0 -> L1 = L).
Proof.
  assert (Hstop : forall L tr L1 tr1,
             (episode_over L
              || (local_step L - start_ =? max_local_steps)%Z) = true ->
             @Ret (learner * trajectory) (L, tr) = Ret (L1, tr1) ->
             exists n : nat,
               length (states tr1) = length (states tr) + n
               /\ local_step L1 = (local_step L + Z.of_nat n)%Z
               /\ global_step L1 = (global_step L + Z.of_nat n)%Z
               /\ (episode_over L1 = true
                   \/ (local_step L1 - start_ = max_local_steps)%Z)
               /\ (episode_over L = false ->
                   (local_step L - start_)%Z <> max_local_steps -> 1 <= n)
               /\ ((local_step L - start_ <= max_local_steps)%Z ->
                   (local_step L1 - start_ <= max_local_steps)%Z)
               /\ (n = 0 -> L1 = L)).
  { intros L tr L1 tr1 Hc H. inversion H; subst; clear H.
    exists 0. split; [lia|]. split; [lia|]. split; [lia|].
    apply orb_true_iff in Hc. split.
    - destruct Hc as [Ho|Hm]; [left; exact Ho|].
      right. apply Z.eqb_eq in Hm. exact Hm.
    - split.
      + intros Ho Hne. destruct Hc as [Ho'|Hm]; [congruence|].
        apply Z.eqb_eq in Hm. contradiction.
      + split; [intros Hle; exact Hle | reflexivity]. }
  induction fuel as [|fuel IH]; intros L tr L1 tr1; simpl.
  - destruct (episode_over L || (local_step L - start_ =? max_local_steps)%Z)
      eqn:Ec; [apply Hstop, Ec | discriminate].
  - destruct (episode_over L || (local_step L - start_ =? max_local_steps)%Z)
      eqn:Ec; [apply Hstop, Ec|].
    intros H. apply bind_Ret_inv in H. destruct H as [[L' tr'] [Ed H]].
    apply decision_step_counters in Ed. destruct Ed as (Hl & Hg & Hn & _).
    apply IH in H.
    destruct H as (n & Hn1 & Hl1 & Hg1 & Hexit & _ & Hle & _).
    apply orb_false_iff in Ec. destruct Ec as [_ Ene].
    apply Z.eqb_neq in Ene.
    exists (S n). split; [lia|]. split; [lia|]. split; [lia|].
    split; [exact Hexit|]. split; [intros _ _; lia|].
    split; [intros Hle0; apply Hle; lia | discriminate].
Qed.

(** X15: a turn that starts in a running episode takes as many decision
    steps as it records states, and both step counters advance by that
    number.  The number is [max_local_steps] unless the episode ended
    first; it is at least one unless [max_local_steps] is zero; and with
    a negative [max_local_steps] only the end of the episode stops the
    collection. *)
Theorem collected_steps fuel theta L L1 tr :
  collect fuel theta (local_step L) L no_trajectory = Ret (L1, tr) ->
  episode_over L = false ->
  let n := Z.of_nat (length (states tr)) in
  aligned tr
  /\ local_step L1 = (local_step L + n)%Z
  /\ global_step L1 = (global_step L + n)%Z
  /\ ((0 <= max_local_steps)%Z -> (n <= max_local_steps)%Z)
  /\ (n <> max_local_steps -> episode_over L1 = true)
  /\ (max_local_steps <> 0%Z -> (1 <= n)%Z)
  /\ (max_local_steps = 0%Z -> L1 = L /\ tr = no_trajectory).
Proof.
  intros Hc Hover n.
  pose proof (collect_inv _ _ _ _ _ Hc) as (_ & _ & _ & Hal).
  specialize (Hal aligned_no_trajectory).
  pose proof (collect_count _ _ _ _ _ Hc)
    as (k & Hk & Hl & Hg & Hexit & Hone & Hle & Hzero).
  simpl in Hk. subst n. rewrite Hk.
  split; [exact Hal|]. split; [exact Hl|]. split; [exact Hg|].
  split; [intros Hmax; specialize (Hle ltac:(lia)); lia|].
  split; [intros Hne; destruct Hexit as [Ho|Hm]; [exact Ho | lia]|].
  split; [intros Hne; specialize (Hone Hover ltac:(lia)); lia|].
  intros Hmax.
  assert (Hk0 : k = 0).
  { destruct k as [|k]; [reflexivity|]. exfalso.
    clear - Hc Hover Hmax Hk.
    destruct fuel as [|fuel]; simpl in Hc;
      rewrite Hover, Z.sub_diag, Hmax in Hc; simpl in Hc;
      inversion Hc; subst; discriminate Hk. }
  split; [exact (Hzero Hk0)|].
  clear - Hc Hover Hmax.
  destruct fuel as [|fuel]; simpl in Hc;
    rewrite Hover, Z.sub_diag, Hmax in Hc; simpl in Hc;
    inversion Hc; reflexivity.
Qed.

(** ** The step counters over a run *)

Lemma train_global theta L tr L2 fd :
  train theta L tr = Ret (L2, fd) ->
  global_step L2 = global_step L /\ new_s L2 = new_s L
  /\ s L2 = s L /\ np_random L2 = np_random L
  /\ total_episode_reward L2 = total_episode_reward L.
Proof.
  unfold train. intros H.
  apply bind_Ret_inv in H. destruct H as [R0 [_ H]].
  apply bind_Ret_inv in H. destruct H as [[R B] [_ H]].
  apply bind_Ret_inv in H. destruct H as [padded [_ H]].
  apply bind_Ret_inv in H. destruct H as [mask [_ H]].
  inversion H; subst; clear H. simpl.
  repeat (split; [reflexivity|]). reflexivity.
Qed.

Lemma guard_global L L3 :
  guard L = Ret L3 ->
  global_step L3 = global_step L /\ emu L3 = emu L /\ s L3 = s L
  /\ new_s L3 = new_s L /\ np_random L3 = np_random L
  /\ total_episode_reward L3 = total_episode_reward L.
Proof.
  unfold guard. intros H.
  apply bind_Ret_inv in H. destruct H as [[|] [_ H]];
    inversion H; subst; clear H; simpl;
    repeat (split; [reflexivity|]); reflexivity.
Qed.

Lemma episode_end_global L :
  global_step (episode_end L) = global_step L
  /\ new_s (episode_end L) = new_s L
  /\ np_random (episode_end L) = np_random L.
Proof.
  unfold episode_end.
  destruct (episode_over L); [|repeat split].
  destruct (reset_game L || str_in (emu_game (emu L)) ONE_LIFE_GAMES);
    [|repeat split].
  destruct (emu_get_initial_state (emu L)) as [e' s0]. repeat split.
Qed.

(** The decision steps of one turn of the outer loop. *)
Lemma iteration_steps fuel L L' fd :
  iteration fuel L = Ret (L', fd) ->
  episode_over L = false ->
  exists n : nat,
    global_step L' = (global_step L + Z.of_nat n)%Z
    /\ local_step L' = (local_step L + Z.of_nat n)%Z
    /\ (max_local_steps <> 0%Z -> 1 <= n)
    /\ ((0 <= max_local_steps)%Z -> (Z.of_nat n <= max_local_steps)%Z)
    /\ episode_over L' = false.
Proof.
  intros Hit Hover.
  pose proof (iteration_end _ _ Hit) as (_ & Ho & _ & _).
  apply iteration_inv in Hit.
  destruct Hit as (L1 & tr & L2 & L3 & Hc & _ & _ & _ & Ht & Hg & ->).
  pose proof (train_learner _ _ _ Ht) as (_ & Hl2 & _).
  pose proof (train_global _ _ _ Ht) as (Hg2 & _).
  pose proof (guard_inv _ Hg) as (_ & Hl3 & _).
  pose proof (guard_global _ Hg) as (Hg3 & _).
  destruct (episode_end_inv L3) as (_ & Hle & _).
  destruct (episode_end_global L3) as (Hge & _).
  apply collect_count in Hc.
  destruct Hc as (n & _ & Hl1 & Hg1 & _ & Hone & Hbound & _).
  simpl in Hl1, Hg1, Hone, Hbound.
  exists n. split; [lia|]. split; [lia|].
  split; [intros Hne; apply Hone; [exact Hover | lia]|].
  split; [intros Hmax; specialize (Hbound ltac:(lia)); lia | exact Ho].
Qed.

Lemma run_loop_steps fuel :
  forall turns L log L' log',
    episode_over L = false ->
    (1 <= max_local_steps)%Z ->
    run_loop turns fuel L log = Ret (L', log') ->
    (max_global_steps <= global_step L')%Z
    /\ (global_step L' - global_step L = local_step L' - local_step L)%Z
    /\ (exists k : nat,
           length log' = length log + k
           /\ (Z.of_nat k <= global_step L' - global_step L
               <= max_local_steps * Z.of_nat k)%Z)
    /\ ((global_step L < max_global_steps)%Z ->
        (global_step L' < max_global_steps + max_local_steps)%Z)
    /\ ((max_global_steps <= global_step L)%Z -> L' = L /\ log' = log).
Proof.
  induction turns as [|turns IH]; intros L log L' log' Hover Hmax; simpl.
  - destruct (Z.ltb_spec (global_step L) max_global_steps) as [Hlt|Hge];
      [discriminate|].
    intros H; inversion H; subst; clear H.
    split; [exact Hge|]. split; [lia|].
    split; [exists 0; split; lia|]. split; [lia | split; reflexivity].
  - destruct (Z.ltb_spec (global_step L) max_global_steps) as [Hlt|Hge].
    + intros H. apply bind_Ret_inv in H. destruct H as [[L1 fd] [Eit H]].
      destruct (iteration_steps _ _ Eit Hover)
        as (n & Hg1 & Hl1 & Hone & Hbound & Ho1).
      specialize (Hone ltac:(lia)). specialize (Hbound ltac:(lia)).
      apply IH in H; [|exact Ho1 | exact Hmax].
      destruct H as (Hexit & Hsame & (k & Hk & Hlo & Hhi) & Hover' & Hstay).
      split; [exact Hexit|]. split; [lia|].
      split.
      { exists (S k). rewrite length_app in Hk. simpl in Hk.
        split; [lia|]. split; [lia|]. nia. }
      split; [|intros Hge; lia].
      intros _.
      destruct (Z.lt_ge_cases (global_step L1) max_global_steps) as [Hlt1|Hge1].
      * exact (Hover' Hlt1).
      * destruct (Hstay ltac:(lia)) as [-> _]. lia.
    + intros H; inversion H; subst; clear H.
      split; [exact Hge|]. split; [lia|].
      split; [exists 0; split; lia|]. split; [lia | split; reflexivity].
Qed.

(** X16: [_run] returns with the global step at [max_global_steps] or beyond
    it by less than one turn's [max_local_steps]; the local and the
    global counter have advanced by one amount; every gradient update
    stands for at least one and at most [max_local_steps] of these
    steps; and a run that starts at or beyond [max_global_steps] makes
    no update and no step. *)
Theorem run_step_budget turns fuel e g l0 g0 L log :
  (1 <= max_local_steps)%Z ->
  _run turns fuel e g l0 g0 = Ret (L, log) ->
  (max_global_steps <= global_step L)%Z
  /\ (global_step L - g0 = local_step L - l0)%Z
  /\ (Z.of_nat (length log) <= global_step L - g0
      <= max_local_steps * Z.of_nat (length log))%Z
  /\ ((g0 < max_global_steps)%Z ->
      (global_step L < max_global_steps + max_local_steps)%Z /\ log <> [])
  /\ ((max_global_steps <= g0)%Z -> global_step L = g0 /\ log = []).
Proof.
  intros Hmax. unfold _run. intros H.
  assert (Hstart : episode_over (start e g l0 g0) = false
                   /\ global_step (start e g l0 g0) = g0
                   /\ local_step (start e g l0 g0) = l0).
  { unfold start. destruct (emu_get_initial_state e) as [e' s0].
    repeat split. }
  destruct Hstart as (Ho & Hg & Hl).
  apply run_loop_steps in H; [|exact Ho | exact Hmax].
  destruct H as (Hexit & Hsame & (k & Hk & Hlo & Hhi) & Hover & Hstay).
  rewrite Hg in *. rewrite Hl in *. simpl in Hk. subst k.
  split; [exact Hexit|]. split; [exact Hsame|]. split; [lia|]. split.
  - intros Hlt. split; [exact (Hover Hlt)|].
    intros ->. simpl in *. lia.
  - intros Hge. destruct (Hstay Hge) as [-> ->]. split; [exact Hg | reflexivity].
Qed.

(** ** Every loop comes to an end *)

Lemma bind_answers {A B} (m : outcome A) (k : A -> outcome B) :
  m <> Diverge -> (forall a, k a <> Diverge) -> bind m k <> Diverge.
Proof.
  intros Hm Hk. destruct m as [a| |]; simpl;
    [apply Hk | discriminate | contradiction].
Qed.

Lemma scan_answers idxs :
  forall tr R B, scan idxs tr R B <> Diverge.
Proof.
  induction idxs as [|i idxs IH]; intros tr R B; simpl; [discriminate|].
  destruct (nth_error (rewards tr) i); simpl; [|discriminate].
  destruct (nth_error (actions tr) i); simpl; [|discriminate].
  destruct (nth_error (states tr) i); simpl; [|discriminate].
  destruct (nth_error (values tr) i); simpl; [|discriminate].
  apply IH.
Qed.

Lemma train_answers theta L tr : train theta L tr <> Diverge.
Proof.
  unfold train. apply bind_answers.
  - unfold bootstrap. destruct (episode_over L); [discriminate|].
    destruct (new_s L); simpl; discriminate.
  - intros R. apply bind_answers; [apply scan_answers|].
    intros [R' B]. apply bind_answers.
    + unfold padded_sequences. destruct (a_batch B); [discriminate|].
      destruct (forallb _ _); discriminate.
    + intros padded. apply bind_answers.
      * unfold training_mask. destruct max_decoder_steps; discriminate.
      * intros mask. discriminate.
Qed.

Section Answers.

(** The decoder's probabilities have a stop slot, and the emulator
    answers every call. *)
Hypothesis Hwidth : forall th fd, length (fst (decoder th fd)) = S num_actions.
Hypothesis Hnext : forall e a, emu_next e a <> Diverge.
Hypothesis Hlives : forall e, emu_lives e <> Diverge.
Hypothesis Hdecoder_steps : 1 <= max_decoder_steps.

Lemma execute_answers :
  forall acts e ns acc over, execute acts e ns acc over <> Diverge.
Proof using Hnext.
  induction acts as [|a acts IH]; intros e ns acc over; simpl; [discriminate|].
  apply bind_answers; [apply Hnext|].
  intros [e' [[s' reward] over']].
  destruct over'; [discriminate | apply IH].
Qed.

Lemma decision_step_answers fuel theta L tr :
  max_decoder_steps <= fuel -> decision_step fuel theta L tr <> Diverge.
Proof using Hwidth Hnext Hdecoder_steps.
  intros Hfuel. unfold decision_step, sample_action_sequence.
  destruct (@decode_loop_returns theta (s L) Hwidth fuel false zero_cell
              (GO num_actions) (initial_allowed_actions num_actions) []
              (np_random L) [])
    as [[[acts g1] fds] E]; simpl; try lia.
  rewrite E. cbn [bind].
  apply bind_answers; [apply execute_answers|].
  intros [[[e' ns'] acc] over']. apply bind_answers.
  - destruct ns'; discriminate.
  - intros s'. discriminate.
Qed.

Lemma collect_answers theta start_ :
  forall fuel L tr,
    (local_step L - start_ <= max_local_steps)%Z ->
    Z.to_nat (max_local_steps - (local_step L - start_)) + max_decoder_steps
    <= fuel ->
    collect fuel theta start_ L tr <> Diverge.
Proof using Hwidth Hnext Hdecoder_steps.
  induction fuel as [|fuel IH]; intros L tr Hle Hfuel; [lia|].
  cbn [collect].
  destruct (episode_over L || (local_step L - start_ =? max_local_steps)%Z)
    eqn:Ec; [discriminate|].
  apply orb_false_iff in Ec. destruct Ec as [_ Ene]. apply Z.eqb_neq in Ene.
  pose proof (@decision_step_answers (S fuel) theta L tr ltac:(lia)) as Hd.
  destruct (decision_step (S fuel) theta L tr) as [[L' tr']| |] eqn:Ed;
    [|discriminate | contradiction].
  cbn [bind].
  apply decision_step_counters in Ed. destruct Ed as (Hl & _).
  apply IH; lia.
Qed.

Lemma guard_answers L : guard L <> Diverge.
Proof using Hlives.
  unfold guard, stuck. apply bind_answers.
  - destruct (5000 <? local_step L - steps_at_last_reward L)%Z; [discriminate|].
    apply bind_answers; [apply Hlives | intros lives; discriminate].
  - intros [|]; discriminate.
Qed.

Lemma iteration_answers fuel L :
  (0 <= max_local_steps)%Z ->
  Z.to_nat max_local_steps + max_decoder_steps <= fuel ->
  iteration fuel L <> Diverge.
Proof using Hwidth Hnext Hlives Hdecoder_steps.
  intros Hmax Hfuel. unfold iteration. apply bind_answers.
  - apply collect_answers; simpl; [lia|].
    rewrite Z.sub_diag, Z.sub_0_r. exact Hfuel.
  - intros [L1 tr]. apply bind_answers; [apply train_answers|].
    intros [L2 fd]. apply bind_answers; [apply guard_answers|].
    intros L3. discriminate.
Qed.

Lemma run_loop_answers fuel :
  (1 <= max_local_steps)%Z ->
  Z.to_nat max_local_steps + max_decoder_steps <= fuel ->
  forall turns L log,
    episode_over L = false ->
    Z.to_nat (max_global_steps - global_step L) <= turns ->
    run_loop turns fuel L log <> Diverge.
Proof using Hwidth Hnext Hlives Hdecoder_steps.
  intros Hmax Hfuel.
  induction turns as [|turns IH]; intros L log Hover Hturns; cbn [run_loop].
  - destruct (Z.ltb_spec (global_step L) max_global_steps) as [Hlt|Hge];
      [lia | discriminate].
  - destruct (Z.ltb_spec (global_step L) max_global_steps) as [Hlt|Hge];
      [|discriminate].
    pose proof (@iteration_answers fuel L ltac:(lia) Hfuel) as Hit.
    destruct (iteration fuel L) as [[L1 fd]| |] eqn:Eit;
      [|discriminate | contradiction].
    cbn [bind].
    destruct (iteration_steps _ _ Eit Hover) as (n & Hg1 & _ & Hone & _ & Ho1).
    specialize (Hone ltac:(lia)).
    apply IH; [exact Ho1 | lia].
Qed.

End Answers.

(** X17: with a decoder whose probabilities have a stop slot and an emulator
    that answers every call, [_run] comes to an end, by returning or by
    raising: the outer loop takes at most [max_global_steps - g0] turns,
    a turn at most [max_local_steps] decision steps, and a decision step
    at most [max_decoder_steps] calls of the decoder. *)
Theorem run_comes_to_an_end
    (Hwidth : forall th fd, length (fst (decoder th fd)) = S num_actions)
    (Hnext : forall e a, emu_next e a <> Diverge)
    (Hlives : forall e, emu_lives e <> Diverge)
    turns fuel e g l0 g0 :
  1 <= max_decoder_steps ->
  (1 <= max_local_steps)%Z ->
  Z.to_nat (max_global_steps - g0) <= turns ->
  Z.to_nat max_local_steps + max_decoder_steps <= fuel ->
  (exists r, _run turns fuel e g l0 g0 = Ret r)
  \/ (exists ex, _run turns fuel e g l0 g0 = Raise ex).
Proof.
  intros Hdec Hmax Hturns Hfuel.
  assert (Hrun : _run turns fuel e g l0 g0 <> Diverge).
  { unfold _run.
    apply (run_loop_answers Hwidth Hnext Hlives Hdec Hmax Hfuel).
    - unfold start. destruct (emu_get_initial_state e); reflexivity.
    - unfold start. destruct (emu_get_initial_state e); simpl. exact Hturns. }
  destruct (_run turns fuel e g l0 g0) as [r|ex|];
    [left; exists r; reflexivity | right; exists ex; reflexivity
     | contradiction].
Qed.

(** ** The shape of what is fed to the gradient computation *)

Lemma pad_length (sq : list token) :
  length sq <= max_decoder_steps ->
  length (pad num_actions max_decoder_steps sq) = max_decoder_steps.
Proof.
  intros H. unfold pad. rewrite length_app, repeat_length. lia.
Qed.

Lemma padded_sequences_inv a_batch_ padded :
  padded_sequences a_batch_ = Ret padded ->
  a_batch_ <> []
  /\ Forall (fun sq => length sq <= max_decoder_steps) a_batch_
  /\ padded = map (pad num_actions max_decoder_steps) a_batch_.
Proof.
  unfold padded_sequences. destruct a_batch_ as [|sq l]; [discriminate|].
  destruct (forallb (fun sq0 => (length sq0 <=? max_decoder_steps)%nat)
              (sq :: l)) eqn:E; [|discriminate].
  intros H. inversion H; subst; clear H.
  split; [discriminate|]. split; [|reflexivity].
  apply Forall_forall. intros x Hx.
  rewrite forallb_forall in E. apply Nat.leb_le, E, Hx.
Qed.

Lemma training_mask_inv mask :
  training_mask num_actions max_decoder_steps = Ret mask ->
  1 <= max_decoder_steps
  /\ mask = (repeat 1%Z num_actions ++ [0%Z])
            :: repeat (repeat 1%Z (num_actions + 1)) (max_decoder_steps - 1).
Proof.
  unfold training_mask. destruct max_decoder_steps as [|m]; [discriminate|].
  intros H. inversion H; subst; clear H. split; [lia|].
  simpl. rewrite Nat.sub_0_r. f_equal.
  rewrite Nat.add_1_r.
  replace (repeat 1%Z (S num_actions)) with (repeat 1%Z num_actions ++ [1%Z])
    by (rewrite <- repeat_cons; reflexivity).
  apply set_last_app.
Qed.

Lemma decision_step_sequence fuel theta L tr L' tr' :
  decision_step fuel theta L tr = Ret (L', tr') ->
  exists sq, actions tr' = actions tr ++ [sq] /\ sq <> [].
Proof.
  unfold decision_step. intros H.
  apply bind_Ret_inv in H. destruct H as [[[[sq v] g1] fds] [Es H]].
  apply bind_Ret_inv in H. destruct H as [[[[e1 ns1] acc] over1] [Ee H]].
  apply bind_Ret_inv in H. destruct H as [s1 [En H]].
  inversion H; subst; clear H. simpl.
  exists sq. split; [reflexivity|].
  unfold sample_action_sequence in Es.
  apply bind_Ret_inv in Es. destruct Es as [[[acts1 g2] fds1] [Eloop Es]].
  inversion Es; subst; clear Es.
  apply decode_loop_shape in Eloop.
  destruct Eloop as (toks & nfds & Hacts & _ & Hne & _).
  simpl in Hacts. subst toks. exact Hne.
Qed.

Lemma collect_sequences fuel theta start_ :
  forall L tr L1 tr1,
    collect fuel theta start_ L tr = Ret (L1, tr1) ->
    Forall (fun sq : list token => sq <> []) (actions tr) ->
    Forall (fun sq : list token => sq <> []) (actions tr1).
Proof.
  induction fuel as [|fuel IH]; intros L tr L1 tr1; simpl.
  - destruct (episode_over L || (local_step L - start_ =? max_local_steps)%Z);
      [|discriminate].
    intros H; inversion H; subst; clear H. intros Hall; exact Hall.
  - destruct (episode_over L || (local_step L - start_ =? max_local_steps)%Z).
    + intros H; inversion H; subst; clear H. intros Hall; exact Hall.
    + intros H. apply bind_Ret_inv in H. destruct H as [[L' tr'] [Ed H]].
      apply decision_step_sequence in Ed. destruct Ed as (sq & Ha & Hne).
      intros Hall. apply (IH _ _ _ _ H). rewrite Ha.
      apply Forall_app. split; [exact Hall|].
      constructor; [exact Hne | constructor].
Qed.

(** X18: in every gradient update of [_run], the fed batch has at least one
    entry, and the states, targets, advantages, initial cell states,
    input and output sequences, masks and sequence lengths all have as
    many entries as the batch.  Every padded output sequence and every
    input sequence has exactly [max_decoder_steps] positions; the input
    sequence of an entry is the GO token followed by its output sequence
    without the last position; every sequence length is between one and
    [max_decoder_steps]; the cell states are zero; and the mask of every
    entry is ones but for the stop slot of position 0. *)
Theorem train_feed_shape fuel L L' fd :
  at_loop_head L ->
  iteration fuel L = Ret (L', fd) ->
  let n := length (input_ph fd) in
  1 <= n
  /\ 1 <= max_decoder_steps
  /\ length (critic_target_ph fd) = n
  /\ length (adv_actor_ph fd) = n
  /\ decoder_initial_state fd = repeat zero_cell n
  /\ length (action_outputs fd) = n
  /\ length (action_inputs fd) = n
  /\ length (decoder_seq_lengths fd) = n
  /\ modify_state fd = false
  /\ Forall (fun row => length row = max_decoder_steps) (action_outputs fd)
  /\ Forall (fun row => length row = max_decoder_steps) (action_inputs fd)
  /\ action_inputs fd
     = map (fun out => GO num_actions :: removelast out) (action_outputs fd)
  /\ Forall (fun k => 1 <= k <= max_decoder_steps) (decoder_seq_lengths fd)
  /\ allowed_actions fd
     = repeat ((repeat 1%Z num_actions ++ [0%Z])
               :: repeat (repeat 1%Z (num_actions + 1)) (max_decoder_steps - 1))
         n.
Proof.
  intros Hhead Hit n.
  apply at_loop_head_inv in Hhead. destruct Hhead as (Hb & _).
  apply iteration_inv in Hit.
  destruct Hit as (L1 & tr & L2 & L3 & Hc & Hb1 & _ & Hal & Ht & _ & _).
  pose proof (collect_sequences _ _ _ _ _ Hc (Forall_nil _)) as Hne.
  clear Hc. revert Ht. unfold train. intros H.
  apply bind_Ret_inv in H. destruct H as [R0 [_ H]].
  rewrite (scan_spec Hal) in H by lia. simpl in H.
  rewrite Hb1, Hb in H. simpl in H.
  pose proof Hal as (Hr & Ha & Hv).
  rewrite <- Hr, firstn_all in H.
  rewrite Hr, <- Ha, firstn_all in H.
  rewrite Ha, <- Hv, firstn_all in H.
  rewrite Hv, firstn_all in H.
  apply bind_Ret_inv in H. destruct H as [padded [Ep H]].
  apply bind_Ret_inv in H. destruct H as [mask [Em H]].
  apply padded_sequences_inv in Ep. destruct Ep as (Hnonempty & Hfit & ->).
  apply training_mask_inv in Em. destruct Em as (Hmax & ->).
  inversion H; subst fd; clear H. subst n. cbn.
  assert (Hn : length (rev (states tr)) = length (states tr))
    by apply length_rev.
  split.
  { rewrite Hn, <- Ha. destruct (actions tr); [contradiction Hnonempty|].
    - reflexivity.
    - simpl; lia. }
  split; [exact Hmax|].
  split.
  { rewrite !length_rev, discounted_returns_length. lia. }
  split.
  { unfold advantages.
    rewrite !length_rev, length_map, length_combine, discounted_returns_length.
    lia. }
  split; [reflexivity|].
  split; [rewrite length_map, !length_rev; lia|].
  split; [rewrite !length_map, !length_rev; lia|].
  split; [rewrite length_map, length_rev; lia|].
  split; [reflexivity|].
  assert (Hrows : Forall (fun row => length row = max_decoder_steps)
                    (map (pad num_actions max_decoder_steps)
                       (rev (actions tr)))).
  { apply Forall_forall. intros row Hrow.
    apply in_map_iff in Hrow. destruct Hrow as [sq [<- Hsq]].
    apply pad_length. rewrite Forall_forall in Hfit. apply Hfit, Hsq. }
  split; [exact Hrows|].
  split.
  { apply Forall_forall. intros row Hrow.
    apply in_map_iff in Hrow. destruct Hrow as [out [<- Hout]].
    rewrite Forall_forall in Hrows. specialize (Hrows out Hout).
    simpl. destruct out as [|x out] using rev_ind; [simpl in Hrows; lia|].
    rewrite removelast_last. rewrite length_app in Hrows. simpl in Hrows. lia. }
  split; [reflexivity|].
  split; [|reflexivity].
  apply Forall_forall. intros k Hk.
  apply in_map_iff in Hk. destruct Hk as [sq [<- Hsq]].
  rewrite Forall_forall in Hne, Hfit. split.
  - specialize (Hne sq Hsq). destruct sq; [contradiction | simpl; lia].
  - apply Hfit. apply in_rev. rewrite rev_involutive. exact Hsq.
Qed.

(** ** The end of a turn *)

Lemma stuck_same L L2 :
  emu L2 = emu L -> local_step L2 = local_step L ->
  steps_at_last_reward L2 = steps_at_last_reward L ->
  stuck L2 = stuck L.
Proof. unfold stuck. intros -> -> ->. reflexivity. Qed.

(** X19: at the end of a turn of [_run] the emulator is set to its initial
    state exactly when the guard fires, or the episode ended in the turn
    and the game is a one-life game; otherwise the emulator and the
    current state go on as the last decision step left them, also when
    the episode ended.  The episode reward is cleared when the guard
    fires or the episode ended, and [new_s] is never cleared. *)
Theorem end_of_turn_reset fuel L L' fd :
  at_loop_head L ->
  iteration fuel L = Ret (L', fd) ->
  exists L1 tr fired,
    collect fuel (learning_vars (syncs L)) (local_step L) (sync L) no_trajectory
    = Ret (L1, tr)
    /\ stuck L1 = Ret fired
    /\ (if fired
           || (episode_over L1 && str_in (emu_game (emu L1)) ONE_LIFE_GAMES)
        then emu L' = fst (emu_get_initial_state (emu L1))
             /\ s L' = snd (emu_get_initial_state (emu L1))
        else emu L' = emu L1 /\ s L' = s L1)
    /\ total_episode_reward L'
       = (if fired || episode_over L1 then 0%float
          else total_episode_reward L1)
    /\ steps_at_last_reward L'
       = (if fired || episode_over L1 then local_step L1
          else steps_at_last_reward L1)
    /\ new_s L' = new_s L1
    /\ np_random L' = np_random L1.
Proof.
  intros Hhead Hit.
  apply at_loop_head_inv in Hhead. destruct Hhead as (_ & _ & Hreset & _).
  apply iteration_inv in Hit.
  destruct Hit as (L1 & tr & L2 & L3 & Hc & _ & Hr1 & _ & Ht & Hg & ->).
  pose proof (train_learner _ _ _ Ht) as (He2 & Hl2 & Hr2 & Ho2 & Hs2 & _).
  pose proof (train_global _ _ _ Ht) as (_ & Hn2 & Hst2 & Hrng2 & Htot2).
  pose proof (@stuck_same L1 L2 He2 Hl2 Hs2) as Hstuck.
  rewrite Hreset in Hr1. rewrite Hr1 in Hr2.
  exists L1, tr.
  unfold guard in Hg. rewrite Hstuck in Hg.
  destruct (stuck L1) as [fired| |]; simpl in Hg; try discriminate.
  exists fired. split; [exact Hc|]. split; [reflexivity|].
  destruct fired; inversion Hg; subst L3; clear Hg.
  - unfold episode_end. cbn.
    destruct (emu_get_initial_state (emu L2)) as [e' s0] eqn:Ei.
    rewrite He2 in Ei. rewrite Ei. cbn.
    repeat split; first [reflexivity | assumption].
  - unfold episode_end. rewrite Ho2, Hr2, He2. cbn.
    destruct (episode_over L1).
    + destruct (str_in (emu_game (emu L1)) ONE_LIFE_GAMES).
      * destruct (emu_get_initial_state (emu L1)) as [e' s0]. cbn.
        repeat split; first [reflexivity | assumption].
      * cbn.
        repeat split; first [reflexivity | assumption].
    + cbn.
      repeat split; first [reflexivity | assumption].
Qed.

(** X20: the guard asks the emulator for its lives only when no more than
    5000 steps have passed since the last reward: beyond that it fires
    whatever the emulator would answer; within that, an emulator that
    cannot tell its lives makes the guard, and with it the turn, raise;
    and lives left, or a one-life game, leave the worker as it was. *)
Theorem guard_and_lives :
  (forall L,
      (5000 < local_step L - steps_at_last_reward L)%Z ->
      exists L3, guard L = Ret L3 /\ episode_over L3 = true)
  /\ (forall L ex,
         (local_step L - steps_at_last_reward L <= 5000)%Z ->
         emu_lives (emu L) = Raise ex ->
         guard L = Raise ex)
  /\ (forall L lives,
         (local_step L - steps_at_last_reward L <= 5000)%Z ->
         emu_lives (emu L) = Ret lives ->
         lives <> 0%Z \/ In (emu_game (emu L)) ONE_LIFE_GAMES ->
         guard L = Ret L)
  /\ (forall fuel L L1 tr ex,
         collect fuel (learning_vars (syncs L)) (local_step L) (sync L)
           no_trajectory = Ret (L1, tr) ->
         (local_step L1 - steps_at_last_reward L1 <= 5000)%Z ->
         emu_lives (emu L1) = Raise ex ->
         exists ex', iteration fuel L = Raise ex').
Proof.
  assert (Hraise : forall L ex,
             (local_step L - steps_at_last_reward L <= 5000)%Z ->
             emu_lives (emu L) = Raise ex ->
             guard L = Raise ex).
  { intros L ex Hle Hlives. unfold guard, stuck.
    destruct (Z.ltb_spec 5000 (local_step L - steps_at_last_reward L));
      [lia|].
    rewrite Hlives. reflexivity. }
  split; [|split; [exact Hraise|split]].
  - intros L Hgt. unfold guard, stuck.
    destruct (Z.ltb_spec 5000 (local_step L - steps_at_last_reward L));
      [|lia].
    cbn. eexists. split; reflexivity.
  - intros L lives Hle Hlives Hcase. unfold guard, stuck.
    destruct (Z.ltb_spec 5000 (local_step L - steps_at_last_reward L));
      [lia|].
    rewrite Hlives. cbn [bind].
    destruct Hcase as [Hne|Hin].
    + destruct (Z.eqb_spec lives 0) as [E|_]; [contradiction|]. reflexivity.
    + apply str_in_spec in Hin. rewrite Hin.
      rewrite andb_false_r. reflexivity.
  - intros fuel L L1 tr ex Hc Hle Hlives. unfold iteration. cbv zeta.
    change (local_step (sync L)) with (local_step L).
    rewrite Hc. cbn [bind].
    destruct (train (learning_vars (syncs L)) L1 tr) as [[L2 fd]|ex'|] eqn:Et.
    + cbn [bind].
      pose proof (train_learner _ _ _ Et) as (He2 & Hl2 & _ & _ & Hs2 & _).
      rewrite (@Hraise L2 ex); [eexists; reflexivity | |].
      * rewrite Hl2, Hs2. exact Hle.
      * rewrite He2. exact Hlives.
    + eexists; reflexivity.
    + exfalso. exact (train_answers _ _ _ Et).
Qed.

(** ** What a turn records *)

Lemma decision_step_records fuel theta L tr L' tr' :
  decision_step fuel theta L tr = Ret (L', tr') ->
  exists raw,
    states tr' = states tr ++ [s L]
    /\ values tr' = values tr ++ [output_layer_v theta (s L)]
    /\ rewards tr' = rewards tr ++ [rescale_reward raw]
    /\ total_episode_reward L' = (total_episode_reward L + raw)%float.
Proof.
  unfold decision_step, sample_action_sequence. intros H.
  apply bind_Ret_inv in H. destruct H as [[[[sq v] g1] fds] [Es H]].
  apply bind_Ret_inv in Es. destruct Es as [[[acts1 g2] fds1] [_ Es]].
  inversion Es; subst; clear Es.
  apply bind_Ret_inv in H. destruct H as [[[[e1 ns1] acc] over1] [Ee H]].
  apply bind_Ret_inv in H. destruct H as [s1 [En H]].
  inversion H; subst; clear H. simpl.
  exists acc. repeat split.
Qed.

Lemma collect_records fuel theta start_ :
  forall L tr L1 tr1,
    collect fuel theta start_ L tr = Ret (L1, tr1) ->
    exists raws xs,
      length raws = length xs
      /\ states tr1 = states tr ++ xs
      /\ values tr1 = values tr ++ map (output_layer_v theta) xs
      /\ rewards tr1 = rewards tr ++ map rescale_reward raws
      /\ total_episode_reward L1
         = fold_left PrimFloat.add raws (total_episode_reward L)
      /\ (xs = [] \/ hd_error xs = Some (s L)).
Proof.
  assert (Hstop : forall L tr L1 tr1,
             @Ret (learner * trajectory) (L, tr) = Ret (L1, tr1) ->
             exists raws xs,
               length raws = length xs
               /\ states tr1 = states tr ++ xs
               /\ values tr1 = values tr ++ map (output_layer_v theta) xs
               /\ rewards tr1 = rewards tr ++ map rescale_reward raws
               /\ total_episode_reward L1
                  = fold_left PrimFloat.add raws (total_episode_reward L)
               /\ (xs = [] \/ hd_error xs = Some (s L))).
  { intros L tr L1 tr1 H. inversion H; subst; clear H.
    exists [], []. simpl. rewrite !app_nil_r.
    repeat (split; [reflexivity|]). left; reflexivity. }
  induction fuel as [|fuel IH]; intros L tr L1 tr1; simpl.
  - destruct (episode_over L || (local_step L - start_ =? max_local_steps)%Z);
      [apply Hstop | discriminate].
  - destruct (episode_over L || (local_step L - start_ =? max_local_steps)%Z);
      [apply Hstop|].
    intros H. apply bind_Ret_inv in H. destruct H as [[L' tr'] [Ed H]].
    apply decision_step_records in Ed.
    destruct Ed as (raw & Hs & Hv & Hr & Htot).
    apply IH in H.
    destruct H as (raws & xs & Hlen & Hs1 & Hv1 & Hr1 & Htot1 & _).
    exists (raw :: raws), (s L :: xs). simpl.
    split; [rewrite Hlen; reflexivity|].
    split; [rewrite Hs1, Hs, <- app_assoc; reflexivity|].
    split; [rewrite Hv1, Hv, <- app_assoc; reflexivity|].
    split; [rewrite Hr1, Hr, <- app_assoc; reflexivity|].
    split; [rewrite Htot1, Htot; reflexivity|].
    right; reflexivity.
Qed.

(** X21: for the steps collected in one turn: the value recorded for a step
    is the value head's answer, under the parameters of the turn, for
    the state recorded for that step, and the first state recorded is
    the one the turn started in.  The rewards recorded are the rescaled
    sums of the steps, while the episode reward adds up the same sums
    before rescaling, step after step. *)
Theorem recorded_values_and_rewards fuel theta L L1 tr :
  collect fuel theta (local_step L) L no_trajectory = Ret (L1, tr) ->
  values tr = map (output_layer_v theta) (states tr)
  /\ (states tr = [] \/ hd_error (states tr) = Some (s L))
  /\ exists raws,
       length raws = length (states tr)
       /\ rewards tr = map rescale_reward raws
       /\ total_episode_reward L1
          = fold_left PrimFloat.add raws (total_episode_reward L).
Proof.
  intros H. apply collect_records in H.
  destruct H as (raws & xs & Hlen & Hs & Hv & Hr & Htot & Hhd).
  simpl in Hs, Hv, Hr. subst xs.
  split; [exact Hv|]. split; [exact Hhd|].
  exists raws. split; [exact Hlen|]. split; assumption.
Qed.

(** ** The state a step hands on *)

(** X22: a decision step leaves the random generator as the sampling left
    it.  The state it hands to the next step, and binds [new_s] to, is
    the state returned by the last call of [next] it made, and its
    episode flag is what that call reported; a sequence of two tokens or
    more makes at least one call.  When no call is made, the state handed
    on is the one [new_s] was bound to before, and the episode flag stays. *)
Theorem state_after_a_step fuel theta L tr L' tr' :
  decision_step fuel theta L tr = Ret (L', tr') ->
  exists sq v fds done rest results,
    sample_action_sequence fuel theta (s L) (np_random L)
    = Ret (sq, v, np_random L', fds)
    /\ removelast sq = done ++ rest
    /\ steps (emu L) done = Ret (emu L', results)
    /\ new_s L' = Some (s L')
    /\ (forall results0 r,
           results = results0 ++ [r] ->
           s L' = fst (fst r) /\ episode_over L' = snd r)
    /\ (results = [] ->
        new_s L = Some (s L') /\ episode_over L' = episode_over L)
    /\ (2 <= length sq -> results <> []).
Proof.
  unfold decision_step. intros H.
  apply bind_Ret_inv in H. destruct H as [[[[sq v] g1] fds] [Es H]].
  apply bind_Ret_inv in H. destruct H as [[[[e1 ns1] acc] over1] [Ee H]].
  apply bind_Ret_inv in H. destruct H as [s1 [En H]].
  inversion H; subst; clear H. cbn [np_random emu s new_s episode_over].
  destruct ns1 as [x|]; [|discriminate En].
  inversion En; subst x; clear En.
  apply execute_prefix in Ee.
  destruct Ee as (done & rest & results & Hacts & Hs & Hlen & _ & _
                  & Hrest & Hnil & Hlast).
  exists sq, v, fds, done, rest, results.
  split; [exact Es|]. split; [exact Hacts|]. split; [exact Hs|].
  split; [reflexivity|]. split.
  - intros results0 r E. destruct (Hlast results0 r E) as [Ho Hn].
    inversion Hn. split; [reflexivity | exact Ho].
  - split.
    + intros E. destruct (Hnil E) as [Ho Hn]. split; [symmetry; exact Hn | exact Ho].
    + intros Hsq E. subst results.
      assert (Hdone : done = []) by (destruct done; [reflexivity | discriminate Hlen]).
      subst done. simpl in Hacts.
      assert (Hne : rest <> []).
      { rewrite <- Hacts. destruct sq as [|a [|b sq0]]; simpl in Hsq; try lia.
        discriminate. }
      destruct (Hrest Hne) as (results0 & r & E & _).
      destruct results0; discriminate E.
Qed.

End Learner.

(** ** Tokens as actions of the Atari wrapper *)

Lemma argmax_from_after (k : nat) :
  forall len start best_i i,
    k < start ->
    AtariEnvironment.argmax_from 1 best_i i
      (map (fun j => if (j =? k)%nat then 1%Z else 0%Z) (seq start len))
    = best_i.
Proof.
  induction len as [|len IH]; intros start best_i i Hk; simpl; [reflexivity|].
  destruct (Nat.eqb_spec start k) as [E|_]; [lia|]. simpl.
  apply IH. lia.
Qed.

Lemma argmax_from_before (k : nat) :
  forall len start best_i i,
    start <= k < start + len ->
    AtariEnvironment.argmax_from 0 best_i i
      (map (fun j => if (j =? k)%nat then 1%Z else 0%Z) (seq start len))
    = i + (k - start).
Proof.
  induction len as [|len IH]; intros start best_i i Hk; simpl; [lia|].
  destruct (Nat.eqb_spec start k) as [E|Hne]; simpl.
  - rewrite argmax_from_after by lia. lia.
  - rewrite IH by lia. lia.
Qed.

(** [np.argmax] of a one-hot vector is the index of its one. *)
Lemma argmax_one_hot (width k : nat) :
  k < width -> AtariEnvironment.argmax (one_hot width k) = Ret k.
Proof.
  intros Hk. unfold one_hot. destruct width as [|w]; [lia|].
  simpl. destruct k as [|k]; simpl.
  - rewrite argmax_from_after by lia. reflexivity.
  - rewrite argmax_from_before by lia. f_equal. lia.
Qed.

Lemma GO_one_hot (n : nat) : GO n = one_hot (S n) n.
Proof.
  unfold GO, one_hot. rewrite seq_S, map_app. simpl.
  rewrite Nat.eqb_refl. f_equal.
  assert (H : forall len start,
             start + len <= n ->
             repeat 0%Z len
             = map (fun i => if (i =? n)%nat then 1%Z else 0%Z) (seq start len)).
  { induction len as [|len IH]; intros start Hle; simpl; [reflexivity|].
    destruct (Nat.eqb_spec start n) as [E|_]; [lia|].
    rewrite <- IH by lia. reflexivity. }
  apply H. lia.
Qed.

Section TokensAsActions.

Variable ndarray : Type.
Variable ndim : ndarray -> nat.
Variable rgb2gray : ndarray -> ndarray.
Variable resize : ndarray -> Z * Z -> ndarray.
Variable simulator : Type.
Variable env_step :
  AtariEnvironment.gym_env simulator -> Z ->
  AtariEnvironment.gym_env simulator * (ndarray * float * bool).
Variable env_render :
  AtariEnvironment.gym_env simulator -> AtariEnvironment.gym_env simulator.
Variable ale_lives : AtariEnvironment.gym_env simulator -> option Z.

(** X23: for a wrapper with [n] native actions and tokens of width [n + 1]:
    the token of a primitive action [k] makes [next] step the simulator
    with the wrapper's [k]-th native action; the stop token, which is the
    vector of the GO token, is no action of the wrapper, and [next]
    raises IndexError on it without stepping the simulator. *)
Theorem tokens_as_actions (n : nat) (e : AtariEnvironment.t ndarray simulator) :
  length (AtariEnvironment.gym_actions e) = n ->
  (forall k,
      k < n ->
      is_stop n (one_hot (S n) k) = false
      /\ exists native,
           nth_error (AtariEnvironment.gym_actions e) k = Some native
           /\ forall e' s' r terminal',
                AtariEnvironment.next ndim rgb2gray resize env_step env_render
                  ale_lives e (one_hot (S n) k)
                = Ret (e', (s', r, terminal')) ->
                exists frame0 terminal,
                  env_step (if AtariEnvironment.visualize e
                            then env_render (AtariEnvironment.env e)
                            else AtariEnvironment.env e) native
                  = (AtariEnvironment.env e', (frame0, r, terminal)))
  /\ GO n = one_hot (S n) n
  /\ is_stop n (GO n) = true
  /\ AtariEnvironment.next ndim rgb2gray resize env_step env_render ale_lives
       e (GO n)
     = Raise IndexError.
Proof.
  intros Hlen. split; [|split; [apply GO_one_hot|split]].
  - intros k Hk. split.
    { unfold is_stop. rewrite (@nth_error_one_hot (S n) k n) by lia.
      destruct (Nat.eqb_spec n k) as [E|_]; [lia | reflexivity]. }
    destruct (nth_error (AtariEnvironment.gym_actions e) k) as [native|] eqn:En;
      [|apply nth_error_None in En; lia].
    exists native. split; [reflexivity|].
    intros e' s' r terminal'. unfold AtariEnvironment.next.
    rewrite argmax_one_hot by lia. cbn [bind]. rewrite En. cbn [of_option bind].
    destruct (env_step (if AtariEnvironment.visualize e
                        then env_render (AtariEnvironment.env e)
                        else AtariEnvironment.env e) native)
      as [env2 [[frame0 reward] term0]].
    intros H.
    apply bind_Ret_inv in H. destruct H as [st [_ H]].
    apply bind_Ret_inv in H. destruct H as [term' [_ H]].
    inversion H; subst; clear H.
    exists frame0, term0. reflexivity.
  - rewrite GO_one_hot. unfold is_stop.
    rewrite (@nth_error_one_hot (S n) n n) by lia.
    rewrite Nat.eqb_refl. reflexivity.
  - rewrite GO_one_hot. unfold AtariEnvironment.next.
    rewrite argmax_one_hot by lia. cbn [bind].
    destruct (nth_error (AtariEnvironment.gym_actions e) n) as [native|] eqn:En;
      [|reflexivity].
    assert (Hlt : n < length (AtariEnvironment.gym_actions e))
      by (apply nth_error_Some; congruence).
    lia.
Qed.

End TokensAsActions.

(** ** A scripted worker

    The worker plays the scripted environment of [AtariEnvironment] with
    two actions.  Its generator draws the indices of a script, its value
    head answers [0.5] and its decoder three fixed probabilities. *)

Definition scripted_state : Type := AtariEnvironment.state nat.
Definition scripted_emulator : Type := AtariEnvironment.scripted_t.
Definition scripted_learner : Type :=
  learner scripted_state (list nat) scripted_emulator.
Definition scripted_feed : Type := train_feed scripted_state unit.

Definition scripted_draw (g : list nat) (p : list float) : nat * list nat :=
  match g with
  | [] => (0, [])
  | k :: g' => ((if (k <? length p)%nat then k else 0), g')
  end.

Definition scripted_decoder (theta : unit) (fd : decoder_feed scripted_state unit)
  : list float * unit :=
  ([0.25; 0.25; 0.5]%float, tt).

Definition scripted_v (theta : unit) (x : scripted_state) : float := 0.5%float.

Definition scripted_lives (e : scripted_emulator) : outcome Z :=
  of_option AttributeError
    (AtariEnvironment.scripted_lives (AtariEnvironment.env e)).

Definition scripted_game (e : scripted_emulator) : string :=
  AtariEnvironment.game e.

Definition scripted_ONE_LIFE_GAMES : list string := ["Bowling-v0"%string].

Definition scripted_sample (max_steps fuel : nat) (x : scripted_state)
    (g : list nat) :=
  @sample_action_sequence scripted_state unit unit (list nat) 2 max_steps
    scripted_v scripted_decoder tt PrimFloat.sub scripted_draw fuel tt x g.

Definition scripted_decision_step (max_steps fuel : nat)
    (L : scripted_learner) (tr : trajectory scripted_state) :=
  @decision_step scripted_state unit unit (list nat) scripted_emulator
    AtariEnvironment.scripted_next (fun r => r) 2 max_steps
    scripted_v scripted_decoder tt PrimFloat.sub scripted_draw fuel tt L tr.

Definition scripted_collect (max_steps : nat) (max_local : Z) (fuel : nat)
    (L : scripted_learner) :=
  @collect scripted_state unit unit (list nat) scripted_emulator
    AtariEnvironment.scripted_next (fun r => r) 2 max_steps max_local
    scripted_v scripted_decoder tt PrimFloat.sub scripted_draw fuel tt
    (local_step L) L (no_trajectory scripted_state).

Definition scripted_train (max_steps : nat) (L : scripted_learner)
    (tr : trajectory scripted_state) :=
  @train scripted_state unit unit (list nat) scripted_emulator 2 max_steps
    0.9%float scripted_v tt tt L tr.

Definition scripted_iteration (max_steps : nat) (max_local : Z) (fuel : nat)
    (L : scripted_learner) :=
  @iteration scripted_state unit unit (list nat) scripted_emulator
    AtariEnvironment.scripted_get_initial_state AtariEnvironment.scripted_next
    scripted_lives scripted_game scripted_ONE_LIFE_GAMES (fun r => r)
    2 max_steps 0.9%float max_local (fun _ => tt)
    scripted_v scripted_decoder tt PrimFloat.sub scripted_draw fuel L.

Definition scripted_at_loop_head (max_steps : nat) (max_local : Z)
    (L : scripted_learner) : Prop :=
  @at_loop_head scripted_state unit unit (list nat) scripted_emulator
    AtariEnvironment.scripted_get_initial_state AtariEnvironment.scripted_next
    scripted_lives scripted_game scripted_ONE_LIFE_GAMES (fun r => r)
    2 max_steps 0.9%float max_local 1000%Z (fun _ => tt)
    scripted_v scripted_decoder tt PrimFloat.sub scripted_draw L.

(** The worker when it enters the outer loop of [_run] on a game, with
    the script [g] of draws ahead of it. *)
Definition scripted_start (game_ : string) (g : list nat) : scripted_learner :=
  start AtariEnvironment.scripted_get_initial_state
    (AtariEnvironment.scripted_wrapper game_) g 0%Z 0%Z.

Definition ret_or {A} (d : A) (o : outcome A) : A :=
  match o with
  | Ret a => a
  | _ => d
  end.

Definition no_feed : scripted_feed :=
  {| input_ph := []; critic_target_ph := []; adv_actor_ph := [];
     decoder_initial_state := []; action_inputs := []; action_outputs := [];
     allowed_actions := []; modify_state := false;
     decoder_seq_lengths := [] |}.

(** *** Three decision steps of one primitive action each, the third
    ending the episode. *)

Definition three_steps_start : scripted_learner :=
  scripted_start "Scripted-v0" [0; 2; 1; 2; 0; 2].

Definition three_steps_collected : scripted_learner * trajectory scripted_state :=
  ret_or (three_steps_start, no_trajectory scripted_state)
    (scripted_collect 3 5 10 three_steps_start).

Definition three_steps_trained : scripted_learner * scripted_feed :=
  ret_or (three_steps_start, no_feed)
    (scripted_train 3 (fst three_steps_collected) (snd three_steps_collected)).

Example three_steps_run :
  scripted_collect 3 5 10 three_steps_start = Ret three_steps_collected
  /\ rewards (snd three_steps_collected) = [1; 1; 1]%float
  /\ values (snd three_steps_collected) = [0.5; 0.5; 0.5]%float
  /\ episode_over (fst three_steps_collected) = true
  /\ scripted_train 3 (fst three_steps_collected) (snd three_steps_collected)
     = Ret three_steps_trained
  /\ critic_target_ph (snd three_steps_trained) = [1; 1.9; 2.71]%float
  /\ decoder_seq_lengths (snd three_steps_trained) = [2; 2; 2].
Proof. vm_compute. repeat split. Qed.

(** [_run] with [max_global_steps = 3]: one turn of three decision steps,
    one gradient update, and a new game. *)
Example three_steps_whole_run :
  match
    @_run scripted_state unit unit (list nat) scripted_emulator
      AtariEnvironment.scripted_get_initial_state
      AtariEnvironment.scripted_next
      scripted_lives scripted_game scripted_ONE_LIFE_GAMES (fun r => r)
      2 3 0.9%float 5%Z 3%Z (fun _ => tt)
      scripted_v scripted_decoder tt PrimFloat.sub scripted_draw
      4 10 (AtariEnvironment.scripted_wrapper "Scripted-v0")
      [0; 2; 1; 2; 0; 2] 0%Z 0%Z
  with
  | Ret (L, log) =>
      map (@critic_target_ph scripted_state unit) log = [[1; 1.9; 2.71]%float]
      /\ global_step L = 3%Z /\ local_step L = 3%Z
      /\ episode_over L = false /\ steps_at_last_reward L = 3%Z
  | _ => False
  end.
Proof. vm_compute. repeat split. Qed.

Lemma discounted_return_targets_witness :
  rev (critic_target_ph (snd three_steps_trained)) = [2.71; 1.9; 1]%float.
Proof.
  apply (proj1 (proj2 (@discounted_return_targets scripted_state unit unit
                         (list nat) scripted_emulator
                         AtariEnvironment.scripted_next
                         (fun r => r) 2 3 0.9%float 5%Z
                         scripted_v scripted_decoder tt PrimFloat.sub
                         scripted_draw))
           eq_refl tt (fst three_steps_collected) (snd three_steps_collected)
           (fst three_steps_trained) (snd three_steps_trained)).
  - vm_compute. repeat split.
  - vm_compute. reflexivity.
  - vm_compute. reflexivity.
  - vm_compute. reflexivity.
  - vm_compute. reflexivity.
Defined.

(** *** One sampled sequence *)

Definition first_state : scripted_state := s three_steps_start.

Definition sampled_012 :
  list token * float * list nat * list (decoder_feed scripted_state unit) :=
  ret_or ([], 0%float, [], []) (scripted_sample 3 3 first_state [0; 1; 2]).

Example sampled_012_tokens :
  scripted_sample 3 3 first_state [0; 1; 2] = Ret sampled_012
  /\ fst (fst (fst sampled_012)) = [[1; 0; 0]; [0; 1; 0]; [0; 0; 1]]%Z
  /\ map (@fd_allowed_actions scripted_state unit) (snd sampled_012)
     = [ [[1; 1; 0]; [1; 1; 0]; [1; 1; 0]];
         [[1; 1; 1]; [1; 1; 1]; [1; 1; 1]];
         [[1; 1; 1]; [1; 1; 1]; [1; 1; 1]] ]%Z.
Proof. vm_compute. repeat split. Qed.

Lemma stop_masked_at_first_step_witness :
  length (snd sampled_012) = length (fst (fst (fst sampled_012)))
  /\ (forall k fd,
         nth_error (snd sampled_012) k = Some fd ->
         fd_allowed_actions fd
         = repeat (repeat 1%Z 2 ++ [if (k =? 0)%nat then 0%Z else 1%Z]) 3)
  /\ (let fd0 := feed_of 3 false first_state tt (GO 2)
                   (initial_allowed_actions 2) in
      let pvals := map (fun p => PrimFloat.sub p epsneg)
                     (fst (scripted_decoder tt fd0)) in
      let k0 := fst (scripted_draw [0; 1; 2] pvals) in
      nth_error (snd sampled_012) 0 = Some fd0
      /\ (forall row, In row (fd_allowed_actions fd0) ->
                      nth_error row 2 = Some 0%Z)
      /\ nth_error (fst (fst (fst sampled_012))) 0
         = Some (one_hot (length pvals) k0))
  /\ (1 <= 3 -> length (fst (fst (fst sampled_012))) <= 3).
Proof.
  apply (@stop_masked_at_first_step scripted_state unit unit (list nat) 2 3
           scripted_v scripted_decoder tt PrimFloat.sub scripted_draw
           3 tt first_state [0; 1; 2]
           (fst (fst (fst sampled_012))) (snd (fst (fst sampled_012)))
           (snd (fst sampled_012)) (snd sampled_012)).
  vm_compute. reflexivity.
Defined.

(** *** The stop token as the first token

    [np.random.multinomial(1, pvals)] as the NumPy of the code's time draws
    it.  The slots but the last are tried in order, slot [j] being taken
    with probability [pvals[j] / Sum], where [Sum] is what the slots before
    it have left of 1; the last slot takes what is left over, whatever its
    own entry of [pvals] is (in the words of NumPy's documentation, the
    last element is always assumed to account for the remaining
    probability).  The generator is the list of the uniform variates it is
    going to use, and a trial of probability [p] succeeds on the variate [u]
    when [u < p]. *)
Fixpoint legacy_trials (pvals us : list float) (Sum : float) (j : nat)
  : nat * list float :=
  match pvals with
  | [] => (j, us)
  | p :: pvals' =>
      match pvals', us with
      | [], _ => (j, us)
      | _, [] => (j, [])
      | _, u :: us' =>
          if (u <? p / Sum)%float then (j, us')
          else legacy_trials pvals' us' (Sum - p)%float (S j)
      end
  end.

Definition legacy_draw (us : list float) (pvals : list float)
  : nat * list float :=
  legacy_trials pvals us 1%float 0.

(** Modelled from the spec: a network that gives no probability to a slot
    that the allowed-actions input forbids.  With the stop slot forbidden
    the two actions have one half each; with every slot allowed the
    probabilities are those of [scripted_decoder]. *)
Definition masking_decoder (theta : unit)
    (fd : decoder_feed scripted_state unit) : list float * unit :=
  match fd_allowed_actions fd with
  | row :: _ =>
      match nth_error row 2 with
      | Some 0%Z => ([0.5; 0.5; 0]%float, tt)
      | _ => scripted_decoder theta fd
      end
  | [] => scripted_decoder theta fd
  end.

Definition masked_sample (fuel : nat) (x : scripted_state) (us : list float) :=
  @sample_action_sequence scripted_state unit unit (list float) 2 3
    scripted_v masking_decoder tt PrimFloat.sub legacy_draw fuel tt x us.

Definition masked_decision_step (fuel : nat)
    (L : learner scripted_state (list float) scripted_emulator)
    (tr : trajectory scripted_state) :=
  @decision_step scripted_state unit unit (list float) scripted_emulator
    AtariEnvironment.scripted_next (fun r => r) 2 3
    scripted_v masking_decoder tt PrimFloat.sub legacy_draw fuel tt L tr.

(** C3 (the code at the failing input): the mask of the first decoder call
    forbids the stop slot and the network answers the probabilities
    [0.5, 0.5, 0].  Less [epsneg] they are passed to the generator, whose
    trials for the two actions fail on the variates [0.75] and [0.9999999]:
    the first against [0.49999994], the second against
    [0.49999994 / 0.50000006], which is below [0.9999998].  The stop slot
    takes what is left, and the sequence returned is the stop token alone.
    The decision step then executes nothing, and at the first step of a
    run it has no new state to hand on. *)
Lemma stop_token_drawn_at_first_step :
  let fd0 := feed_of 3 false first_state tt (GO 2) (initial_allowed_actions 2) in
  let pvals := map (fun p => (p - epsneg)%float) [0.5; 0.5; 0]%float in
  fd_allowed_actions fd0 = repeat [1; 1; 0]%Z 3
  /\ masking_decoder tt fd0 = ([0.5; 0.5; 0]%float, tt)
  /\ (nth 0 pvals 0 / 1 <? 0.75)%float = true
  /\ (nth 1 pvals 0 / (1 - nth 0 pvals 0) <? 0.9999998)%float = true
  /\ (nth 2 pvals 0 <? 0)%float = true
  /\ legacy_draw [0.75; 0.9999999]%float pvals = (2, [])
  /\ masked_sample 3 first_state [0.75; 0.9999999]%float
     = Ret ([one_hot 3 2], 0.5%float, [], [fd0])
  /\ is_stop 2 (one_hot 3 2) = true
  /\ masked_decision_step 3
       (start AtariEnvironment.scripted_get_initial_state
          (AtariEnvironment.scripted_wrapper "Long-v0")
          [0.75; 0.9999999]%float 0%Z 0%Z)
       (no_trajectory scripted_state)
     = Raise NameError.
Proof. vm_compute. repeat split. Qed.

Lemma scripted_draw_range (g : list nat) (p : list float) :
  p <> [] -> fst (scripted_draw g p) < length p.
Proof.
  intros Hp. assert (0 < length p) by (destruct p; [congruence | simpl; lia]).
  destruct g as [|k g]; simpl; [assumption|].
  destruct (Nat.ltb_spec k (length p)); assumption.
Qed.

Lemma sampled_sequence_shape_witness :
  1 <= length (fst (fst (fst sampled_012)))
  /\ Forall (fun a => length a = 2 + 1
                      /\ exists k, k < 2 + 1 /\ a = one_hot (2 + 1) k)
       (fst (fst (fst sampled_012)))
  /\ (forall i a,
         nth_error (fst (fst (fst sampled_012))) i = Some a ->
         is_stop 2 a = true ->
         i = length (fst (fst (fst sampled_012))) - 1)
  /\ (forall i j a b,
         nth_error (fst (fst (fst sampled_012))) i = Some a ->
         is_stop 2 a = true ->
         nth_error (fst (fst (fst sampled_012))) j = Some b ->
         is_stop 2 b = true -> i = j).
Proof.
  apply (proj2 (@sampled_sequence_shape scripted_state unit unit (list nat) 2 3
                  scripted_v scripted_decoder tt PrimFloat.sub scripted_draw
                  (fun _ _ => eq_refl) scripted_draw_range)
           3 tt first_state [0; 1; 2]
           (fst (fst (fst sampled_012))) (snd (fst (fst sampled_012)))
           (snd (fst sampled_012)) (snd sampled_012)).
  vm_compute. reflexivity.
Defined.

(** *** A sequence cut at [max_decoder_steps = 2]

    The generator draws the primitive actions [0] and [1]; the decoder
    stops at two tokens without a stop token. *)

Definition cut_start : scripted_learner := scripted_start "Long-v0" [0; 1].

Definition cut_step : scripted_learner * trajectory scripted_state :=
  ret_or (cut_start, no_trajectory scripted_state)
    (scripted_decision_step 2 2 cut_start (no_trajectory scripted_state)).

(** C2 (the code at the failing input): with [max_decoder_steps = 2] the
    sampled sequence is the two primitive actions [0] and [1], neither of
    them the stop token; the decision step sends only action [0] to the
    simulator, so the member left out is the sampled action [1], not a stop
    marker, while both tokens are recorded for training. *)
Lemma cut_sequence_drops_sampled_action :
  (exists v g' fds,
      scripted_sample 2 2 (s cut_start) [0; 1]
      = Ret ([one_hot 3 0; one_hot 3 1], v, g', fds))
  /\ is_stop 2 (one_hot 3 0) = false
  /\ is_stop 2 (one_hot 3 1) = false
  /\ scripted_decision_step 2 2 cut_start (no_trajectory scripted_state)
     = Ret cut_step
  /\ AtariEnvironment.sim (AtariEnvironment.env (emu (fst cut_step))) = [0%Z]
  /\ actions (snd cut_step) = [[one_hot 3 0; one_hot 3 1]]
  /\ rewards (snd cut_step) = [1%float].
Proof.
  split; [do 3 eexists; vm_compute; reflexivity|].
  vm_compute. repeat split.
Qed.

(** An episode that ends with the first primitive action of a sequence
    of three tokens: of the sequence [0], [1], stop only the action [0] is
    executed. *)
Definition short_start : scripted_learner :=
  scripted_start "Short-v0" [0; 1; 2].

Definition short_step : scripted_learner * trajectory scripted_state :=
  ret_or (short_start, no_trajectory scripted_state)
    (scripted_decision_step 3 3 short_start (no_trajectory scripted_state)).

Example episode_over_stops_the_sequence :
  scripted_decision_step 3 3 short_start (no_trajectory scripted_state)
  = Ret short_step
  /\ actions (snd short_step) = [[one_hot 3 0; one_hot 3 1; one_hot 3 2]]
  /\ AtariEnvironment.sim (AtariEnvironment.env (emu (fst short_step)))
     = [0%Z]
  /\ episode_over (fst short_step) = true.
Proof. vm_compute. repeat split. Qed.

(** The first decision step of the three-step run. *)
Definition first_step : scripted_learner * trajectory scripted_state :=
  ret_or (three_steps_start, no_trajectory scripted_state)
    (scripted_decision_step 3 3 three_steps_start
       (no_trajectory scripted_state)).

Lemma primitive_actions_of_a_step_witness :
  exists sq v g' fds body t,
    scripted_sample 3 3 (s three_steps_start) (np_random three_steps_start)
    = Ret (sq, v, g', fds)
    /\ actions (snd first_step) = actions (no_trajectory scripted_state) ++ [sq]
    /\ sq = body ++ [t]
    /\ Forall (fun a => is_stop 2 a = false) body
    /\ (is_stop 2 t = false -> length sq = 3)
    /\ exists done rest results,
         body = done ++ rest
         /\ steps AtariEnvironment.scripted_next (emu three_steps_start) done
            = Ret (emu (fst first_step), results)
         /\ length results = length done
         /\ Forall (fun r => snd r = false) (removelast results)
         /\ (rest <> [] ->
             exists results0 r, results = results0 ++ [r] /\ snd r = true)
         /\ (rest = [] -> length done = length sq - 1)
         /\ rewards (snd first_step)
            = rewards (no_trajectory scripted_state)
              ++ [(fun r : float => r)
                    (fold_left (fun a r => (a + snd (fst r))%float) results
                       0%float)]
         /\ (forall results0 r,
               results = results0 ++ [r] ->
               episode_over (fst first_step) = snd r).
Proof.
  apply (@primitive_actions_of_a_step scripted_state unit unit (list nat)
           scripted_emulator AtariEnvironment.scripted_next (fun r => r)
           2 3 scripted_v scripted_decoder tt PrimFloat.sub scripted_draw
           3 tt three_steps_start (no_trajectory scripted_state)
           (fst first_step) (snd first_step)).
  vm_compute. reflexivity.
Defined.

(** *** Sequences of two, three and two tokens *)

Definition palindrome_start : scripted_learner :=
  scripted_start "Long-v0" [0; 2; 0; 1; 2; 1; 2].

Definition palindrome_turn : scripted_learner * scripted_feed :=
  ret_or (palindrome_start, no_feed)
    (scripted_iteration 3 3 10 palindrome_start).

Definition palindrome_a_batch : list (list token) :=
  [[one_hot 3 1; one_hot 3 2];
   [one_hot 3 0; one_hot 3 1; one_hot 3 2];
   [one_hot 3 0; one_hot 3 2]].

Lemma palindrome_head : scripted_at_loop_head 3 3 palindrome_start.
Proof. apply head_start. Qed.

Definition palindrome_feed : scripted_feed := snd palindrome_turn.

Lemma palindrome_iteration :
  scripted_iteration 3 3 10 palindrome_start
  = Ret (fst palindrome_turn, palindrome_feed).
Proof. vm_compute. reflexivity. Qed.

(** C4 (as stated, refuted): in this gradient update the padded sequences
    are those of [palindrome_a_batch], of two, three and two tokens; every
    entry of [decoder_seq_lengths] is the length of the sequence padded at
    its index, and yet the sequences do not have one length. *)
Lemma seq_lengths_match_without_equal_lengths :
  scripted_at_loop_head 3 3 palindrome_start
  /\ scripted_iteration 3 3 10 palindrome_start = Ret (fst palindrome_turn, palindrome_feed)
  /\ action_outputs palindrome_feed = map (pad 2 3) palindrome_a_batch
  /\ decoder_seq_lengths palindrome_feed = [2; 3; 2]
  /\ ~ (lengths_match palindrome_feed palindrome_a_batch ->
        exists n, Forall (fun sq => length sq = n) palindrome_a_batch).
Proof.
  split; [exact palindrome_head|]. split; [exact palindrome_iteration|].
  split; [vm_compute; reflexivity|]. split; [vm_compute; reflexivity|].
  intros H.
  assert (Hm : lengths_match palindrome_feed palindrome_a_batch).
  { intros i Hi. change (length palindrome_a_batch) with 3 in Hi.
    destruct i as [|[|[|i]]]; [vm_compute; reflexivity .. | lia]. }
  destruct (H Hm) as [n Hn].
  inversion Hn as [|? ? H1 Hn1]; subst.
  inversion Hn1 as [|? ? H2 _]; subst.
  simpl in H2. discriminate H2.
Qed.

Lemma batch_order_and_seq_lengths_witness :
  exists L1 tr R0 a_batch_,
    scripted_collect 3 3 10 (sync palindrome_start) = Ret (L1, tr)
    /\ aligned tr
    /\ a_batch_ = rev (actions tr)
    /\ input_ph palindrome_feed = rev (states tr)
    /\ critic_target_ph palindrome_feed
       = rev (discounted_returns 0.9 (rewards tr) R0)
    /\ adv_actor_ph palindrome_feed
       = rev (advantages (discounted_returns 0.9 (rewards tr) R0) (values tr))
    /\ action_outputs palindrome_feed = map (pad 2 3) a_batch_
    /\ decoder_seq_lengths palindrome_feed
       = map (@length token) (actions tr)
    /\ (lengths_match palindrome_feed a_batch_
        <-> map (@length token) (actions tr)
            = rev (map (@length token) (actions tr)))
    /\ ((exists n, Forall (fun sq => length sq = n) (actions tr)) ->
        lengths_match palindrome_feed a_batch_).
Proof.
  apply (@batch_order_and_seq_lengths scripted_state unit unit (list nat)
           scripted_emulator
           AtariEnvironment.scripted_get_initial_state
           AtariEnvironment.scripted_next
           scripted_lives scripted_game scripted_ONE_LIFE_GAMES (fun r => r)
           2 3 0.9%float 3%Z 1000%Z (fun _ => tt)
           scripted_v scripted_decoder tt PrimFloat.sub scripted_draw
           10 palindrome_start (fst palindrome_turn) palindrome_feed).
  - unfold palindrome_start, scripted_start. apply head_start.
  - vm_compute. reflexivity.
Defined.

(** *** A worker that has gone 5001 steps without reward *)



(** *** More than 5000 steps without reward and without reset

    An emulator that ends an episode with every third step and plays on
    without a reset, as a game does that has lives left.  Only the first
    step after the reset pays a reward, the generator draws the action [0]
    and the stop token in turn, and a turn has two decision steps at most.
    With [gamma = 0] the targets of a gradient step are the rewards of its
    steps, the last step first. *)










(** *** The calls of the decoder for one sequence *)

Lemma decoder_feedback_witness :
  snd (fst (fst sampled_012)) = scripted_v tt first_state
  /\ (forall k fd a,
         nth_error (snd sampled_012) k = Some fd ->
         nth_error (fst (fst (fst sampled_012))) k = Some a ->
         exists gk,
           a = fst (multinomial1 scripted_draw gk
                      (map (fun p => PrimFloat.sub p epsneg)
                         (fst (scripted_decoder tt fd)))))
  /\ (forall k fd a fd',
         nth_error (snd sampled_012) k = Some fd ->
         nth_error (fst (fst (fst sampled_012))) k = Some a ->
         nth_error (snd sampled_012) (S k) = Some fd' ->
         fd' = {| fd_modify_state := true;
                  fd_input_ph := first_state;
                  fd_decoder_initial_state := snd (scripted_decoder tt fd);
                  fd_decoder_seq_lengths := [1];
                  fd_action_inputs := repeat a 3;
                  fd_allowed_actions := repeat (repeat 1%Z 2 ++ [1%Z]) 3 |}).
Proof.
  apply (@decoder_feedback scripted_state unit unit (list nat) 2 3
           scripted_v scripted_decoder tt PrimFloat.sub scripted_draw
           3 tt first_state [0; 1; 2]
           (fst (fst (fst sampled_012))) (snd (fst (fst sampled_012)))
           (snd (fst sampled_012)) (snd sampled_012)).
  vm_compute. reflexivity.
Defined.

Example sampled_012_feeds :
  map (fun fd : decoder_feed scripted_state unit =>
         (fd_modify_state fd, fd_action_inputs fd)) (snd sampled_012)
  = [ (false, [[0; 0; 1]; [0; 0; 1]; [0; 0; 1]]);
      (true, [[1; 0; 0]; [1; 0; 0]; [1; 0; 0]]);
      (true, [[0; 1; 0]; [0; 1; 0]; [0; 1; 0]]) ]%Z.
Proof. vm_compute. reflexivity. Qed.

(** The sequence that is cut at [max_decoder_steps = 2]. *)
Definition sampled_cut :
  list token * float * list nat * list (decoder_feed scripted_state unit) :=
  ret_or ([], 0%float, [], []) (scripted_sample 2 2 (s cut_start) [0; 1]).

Lemma sampled_sequence_end_witness :
  exists body t,
    fst (fst (fst sampled_cut)) = body ++ [t]
    /\ Forall (fun a => is_stop 2 a = false) body
    /\ (is_stop 2 t = true \/ length (fst (fst (fst sampled_cut))) = 2)
    /\ (is_stop 2 t = false -> length body = 2 - 1)
    /\ (2 = 0 -> is_stop 2 t = true).
Proof.
  apply (@sampled_sequence_end scripted_state unit unit (list nat) 2 2
           scripted_v scripted_decoder tt PrimFloat.sub scripted_draw
           2 tt (s cut_start) [0; 1]
           (fst (fst (fst sampled_cut))) (snd (fst (fst sampled_cut)))
           (snd (fst sampled_cut)) (snd sampled_cut)).
  vm_compute. reflexivity.
Defined.

(** *** Sequences of one token *)

(** A worker whose first draw is the primitive action [0], with
    [max_decoder_steps = 1]. *)
Definition one_token_start : scripted_learner := scripted_start "Long-v0" [0].

Lemma one_token_step_witness :
  scripted_decision_step 1 1 one_token_start (no_trajectory scripted_state)
  = Raise NameError.
Proof.
  refine (proj1 (@one_token_step scripted_state unit unit (list nat)
                   scripted_emulator AtariEnvironment.scripted_next
                   (fun r => r) 2 1 scripted_v scripted_decoder tt
                   PrimFloat.sub scripted_draw 1 tt one_token_start
                   (no_trajectory scripted_state) (one_hot 3 0)
                   0.5%float [] _ _) _).
  - vm_compute. reflexivity.
  - vm_compute. reflexivity.
Defined.

(** The same draw after a step that has bound [new_s]: the step repeats
    the state, calls no action and records the reward [0]. *)
Example one_token_after_a_step :
  match scripted_decision_step 1 1
          (fst cut_step) (no_trajectory scripted_state) with
  | Ret (L', tr') =>
      AtariEnvironment.sim (AtariEnvironment.env (emu L'))
      = AtariEnvironment.sim (AtariEnvironment.env (emu (fst cut_step)))
      /\ Some (s L') = new_s (fst cut_step)
      /\ rewards tr' = [0%float]
  | _ => False
  end.
Proof. vm_compute. repeat split. Qed.

Definition scripted_run (max_steps : nat) (max_local max_global : Z)
    (turns fuel : nat) (game_ : string) (g : list nat)
  : outcome (scripted_learner * list scripted_feed) :=
  @_run scripted_state unit unit (list nat) scripted_emulator
    AtariEnvironment.scripted_get_initial_state AtariEnvironment.scripted_next
    scripted_lives scripted_game scripted_ONE_LIFE_GAMES (fun r => r)
    2 max_steps 0.9%float max_local max_global (fun _ => tt)
    scripted_v scripted_decoder tt PrimFloat.sub scripted_draw
    turns fuel (AtariEnvironment.scripted_wrapper game_) g 0%Z 0%Z.

Lemma single_decoder_step_never_acts_witness :
  scripted_run 1 5 3 1 1 "Long-v0" [0] = Raise NameError.
Proof.
  apply (@single_decoder_step_never_acts scripted_state unit unit (list nat)
           scripted_emulator
           AtariEnvironment.scripted_get_initial_state
           AtariEnvironment.scripted_next
           scripted_lives scripted_game scripted_ONE_LIFE_GAMES (fun r => r)
           2 1 0.9%float 5%Z 3%Z (fun _ => tt)
           scripted_v scripted_decoder tt PrimFloat.sub scripted_draw
           (fun _ _ => eq_refl) 0 0
           (AtariEnvironment.scripted_wrapper "Long-v0") [0] 0%Z 0%Z).
  - reflexivity.
  - reflexivity.
  - discriminate.
Defined.

(** *** The steps of the three-step run *)

Lemma collected_steps_witness :
  let n := Z.of_nat (length (states (snd three_steps_collected))) in
  aligned (snd three_steps_collected)
  /\ local_step (fst three_steps_collected)
     = (local_step three_steps_start + n)%Z
  /\ global_step (fst three_steps_collected)
     = (global_step three_steps_start + n)%Z
  /\ ((0 <= 5)%Z -> (n <= 5)%Z)
  /\ (n <> 5%Z -> episode_over (fst three_steps_collected) = true)
  /\ (5%Z <> 0%Z -> (1 <= n)%Z)
  /\ (5%Z = 0%Z ->
      fst three_steps_collected = three_steps_start
      /\ snd three_steps_collected = no_trajectory scripted_state).
Proof.
  apply (@collected_steps scripted_state unit unit (list nat)
           scripted_emulator AtariEnvironment.scripted_next (fun r => r)
           2 3 5%Z scripted_v scripted_decoder tt PrimFloat.sub scripted_draw
           10 tt three_steps_start (fst three_steps_collected)
           (snd three_steps_collected)).
  - vm_compute. reflexivity.
  - vm_compute. reflexivity.
Defined.

Lemma recorded_values_and_rewards_witness :
  values (snd three_steps_collected)
  = map (scripted_v tt) (states (snd three_steps_collected))
  /\ (states (snd three_steps_collected) = []
      \/ hd_error (states (snd three_steps_collected))
         = Some (s three_steps_start))
  /\ exists raws,
       length raws = length (states (snd three_steps_collected))
       /\ rewards (snd three_steps_collected) = map (fun r : float => r) raws
       /\ total_episode_reward (fst three_steps_collected)
          = fold_left PrimFloat.add raws
              (total_episode_reward three_steps_start).
Proof.
  apply (@recorded_values_and_rewards scripted_state unit unit (list nat)
           scripted_emulator AtariEnvironment.scripted_next (fun r => r)
           2 3 5%Z scripted_v scripted_decoder tt PrimFloat.sub scripted_draw
           10 tt three_steps_start (fst three_steps_collected)
           (snd three_steps_collected)).
  vm_compute. reflexivity.
Defined.

Lemma state_after_a_step_witness :
  exists sq v fds done rest results,
    scripted_sample 3 3 (s three_steps_start) (np_random three_steps_start)
    = Ret (sq, v, np_random (fst first_step), fds)
    /\ removelast sq = done ++ rest
    /\ steps AtariEnvironment.scripted_next (emu three_steps_start) done
       = Ret (emu (fst first_step), results)
    /\ new_s (fst first_step) = Some (s (fst first_step))
    /\ (forall results0 r,
           results = results0 ++ [r] ->
           s (fst first_step) = fst (fst r)
           /\ episode_over (fst first_step) = snd r)
    /\ (results = [] ->
        new_s three_steps_start = Some (s (fst first_step))
        /\ episode_over (fst first_step) = episode_over three_steps_start)
    /\ (2 <= length sq -> results <> []).
Proof.
  apply (@state_after_a_step scripted_state unit unit (list nat)
           scripted_emulator AtariEnvironment.scripted_next (fun r => r)
           2 3 scripted_v scripted_decoder tt PrimFloat.sub scripted_draw
           3 tt three_steps_start (no_trajectory scripted_state)
           (fst first_step) (snd first_step)).
  vm_compute. reflexivity.
Defined.

Example first_step_hands_on_frame_one :
  s (fst first_step) = AtariEnvironment.Stacked [0; 0; 0; 1]
  /\ np_random (fst first_step) = [1; 2; 0; 2].
Proof. vm_compute. split; reflexivity. Qed.

Example three_steps_episode_reward :
  total_episode_reward (fst three_steps_collected) = 3%float
  /\ rewards (snd three_steps_collected) = [1; 1; 1]%float.
Proof. vm_compute. split; reflexivity. Qed.

Definition three_steps_final : scripted_learner * list scripted_feed :=
  ret_or (three_steps_start, [])
    (scripted_run 3 5 3 4 10 "Scripted-v0" [0; 2; 1; 2; 0; 2]).

Lemma run_step_budget_witness :
  (3 <= global_step (fst three_steps_final))%Z
  /\ (global_step (fst three_steps_final) - 0
      = local_step (fst three_steps_final) - 0)%Z
  /\ (Z.of_nat (length (snd three_steps_final))
      <= global_step (fst three_steps_final) - 0
      <= 5 * Z.of_nat (length (snd three_steps_final)))%Z
  /\ ((0 < 3)%Z ->
      (global_step (fst three_steps_final) < 3 + 5)%Z
      /\ snd three_steps_final <> [])
  /\ ((3 <= 0)%Z ->
      global_step (fst three_steps_final) = 0%Z /\ snd three_steps_final = []).
Proof.
  apply (@run_step_budget scripted_state unit unit (list nat)
           scripted_emulator
           AtariEnvironment.scripted_get_initial_state
           AtariEnvironment.scripted_next
           scripted_lives scripted_game scripted_ONE_LIFE_GAMES (fun r => r)
           2 3 0.9%float 5%Z 3%Z (fun _ => tt)
           scripted_v scripted_decoder tt PrimFloat.sub scripted_draw
           4 10 (AtariEnvironment.scripted_wrapper "Scripted-v0")
           [0; 2; 1; 2; 0; 2] 0%Z 0%Z
           (fst three_steps_final) (snd three_steps_final)).
  - lia.
  - vm_compute. reflexivity.
Defined.

Lemma scripted_next_answers (e : scripted_emulator) (a : token) :
  AtariEnvironment.scripted_next e a <> Diverge.
Proof. apply AtariEnvironment.next_not_diverge. Qed.

Lemma scripted_lives_answers (e : scripted_emulator) :
  scripted_lives e <> Diverge.
Proof. discriminate. Qed.

Lemma run_comes_to_an_end_witness :
  (exists r, scripted_run 3 5 3 3 8 "Scripted-v0" [0; 2; 1; 2; 0; 2] = Ret r)
  \/ (exists ex,
         scripted_run 3 5 3 3 8 "Scripted-v0" [0; 2; 1; 2; 0; 2] = Raise ex).
Proof.
  apply (@run_comes_to_an_end scripted_state unit unit (list nat)
           scripted_emulator
           AtariEnvironment.scripted_get_initial_state
           AtariEnvironment.scripted_next
           scripted_lives scripted_game scripted_ONE_LIFE_GAMES (fun r => r)
           2 3 0.9%float 5%Z 3%Z (fun _ => tt)
           scripted_v scripted_decoder tt PrimFloat.sub scripted_draw
           (fun _ _ => eq_refl) scripted_next_answers scripted_lives_answers
           3 8 (AtariEnvironment.scripted_wrapper "Scripted-v0")
           [0; 2; 1; 2; 0; 2] 0%Z 0%Z).
  - lia.
  - lia.
  - vm_compute. lia.
  - vm_compute. lia.
Defined.

(** *** The feed of the turn of two, three and two tokens *)

Lemma train_feed_shape_witness :
  let n := length (input_ph palindrome_feed) in
  1 <= n
  /\ 1 <= 3
  /\ length (critic_target_ph palindrome_feed) = n
  /\ length (adv_actor_ph palindrome_feed) = n
  /\ decoder_initial_state palindrome_feed = repeat tt n
  /\ length (action_outputs palindrome_feed) = n
  /\ length (action_inputs palindrome_feed) = n
  /\ length (decoder_seq_lengths palindrome_feed) = n
  /\ modify_state palindrome_feed = false
  /\ Forall (fun row => length row = 3) (action_outputs palindrome_feed)
  /\ Forall (fun row => length row = 3) (action_inputs palindrome_feed)
  /\ action_inputs palindrome_feed
     = map (fun out => GO 2 :: removelast out) (action_outputs palindrome_feed)
  /\ Forall (fun k => 1 <= k <= 3) (decoder_seq_lengths palindrome_feed)
  /\ allowed_actions palindrome_feed
     = repeat ((repeat 1%Z 2 ++ [0%Z]) :: repeat (repeat 1%Z (2 + 1)) (3 - 1)) n.
Proof.
  apply (@train_feed_shape scripted_state unit unit (list nat)
           scripted_emulator
           AtariEnvironment.scripted_get_initial_state
           AtariEnvironment.scripted_next
           scripted_lives scripted_game scripted_ONE_LIFE_GAMES (fun r => r)
           2 3 0.9%float 3%Z 1000%Z (fun _ => tt)
           scripted_v scripted_decoder tt PrimFloat.sub scripted_draw
           10 palindrome_start (fst palindrome_turn) palindrome_feed).
  - unfold palindrome_start, scripted_start. apply head_start.
  - vm_compute. reflexivity.
Defined.

Example palindrome_inputs_and_outputs :
  nth_error (action_outputs palindrome_feed) 0
  = Some [[0; 1; 0]; [0; 0; 1]; [0; 0; 0]]%Z
  /\ nth_error (action_inputs palindrome_feed) 0
     = Some [[0; 0; 1]; [0; 1; 0]; [0; 0; 1]]%Z.
Proof. vm_compute. split; reflexivity. Qed.

(** *** The end of the turn that ends the episode *)

Definition three_steps_turn : scripted_learner * scripted_feed :=
  ret_or (three_steps_start, no_feed)
    (scripted_iteration 3 5 10 three_steps_start).

Lemma end_of_turn_reset_witness :
  exists L1 tr fired,
    scripted_collect 3 5 10 (sync three_steps_start) = Ret (L1, tr)
    /\ stuck scripted_lives scripted_game scripted_ONE_LIFE_GAMES L1
       = Ret fired
    /\ (if fired
           || (episode_over L1
               && str_in (scripted_game (emu L1)) scripted_ONE_LIFE_GAMES)
        then emu (fst three_steps_turn)
             = fst (AtariEnvironment.scripted_get_initial_state (emu L1))
             /\ s (fst three_steps_turn)
                = snd (AtariEnvironment.scripted_get_initial_state (emu L1))
        else emu (fst three_steps_turn) = emu L1
             /\ s (fst three_steps_turn) = s L1)
    /\ total_episode_reward (fst three_steps_turn)
       = (if fired || episode_over L1 then 0%float
          else total_episode_reward L1)
    /\ steps_at_last_reward (fst three_steps_turn)
       = (if fired || episode_over L1 then local_step L1
          else steps_at_last_reward L1)
    /\ new_s (fst three_steps_turn) = new_s L1
    /\ np_random (fst three_steps_turn) = np_random L1.
Proof.
  apply (@end_of_turn_reset scripted_state unit unit (list nat)
           scripted_emulator
           AtariEnvironment.scripted_get_initial_state
           AtariEnvironment.scripted_next
           scripted_lives scripted_game scripted_ONE_LIFE_GAMES (fun r => r)
           2 3 0.9%float 5%Z 1000%Z (fun _ => tt)
           scripted_v scripted_decoder tt PrimFloat.sub scripted_draw
           10 three_steps_start (fst three_steps_turn) (snd three_steps_turn)).
  - unfold three_steps_start, scripted_start. apply head_start.
  - vm_compute. reflexivity.
Defined.

(** The episode of "Scripted-v0" ends with the third step of the turn;
    the game is not a one-life game and has a life left, so the emulator
    is not reset: it still holds the three actions taken. *)
Example episode_end_without_reset :
  episode_over (fst three_steps_collected) = true
  /\ AtariEnvironment.sim (AtariEnvironment.env (emu (fst three_steps_turn)))
     = [0; 1; 0]%Z
  /\ episode_over (fst three_steps_turn) = false
  /\ total_episode_reward (fst three_steps_turn) = 0%float.
Proof. vm_compute. repeat split. Qed.

(** *** Tokens and the scripted wrapper *)

Lemma tokens_as_actions_witness :
  (forall k,
      k < 2 ->
      is_stop 2 (one_hot 3 k) = false
      /\ exists native,
           nth_error (AtariEnvironment.gym_actions AtariEnvironment.scripted_e0) k
           = Some native
           /\ forall e' s' r terminal',
                AtariEnvironment.scripted_next AtariEnvironment.scripted_e0
                  (one_hot 3 k)
                = Ret (e', (s', r, terminal')) ->
                exists frame0 terminal,
                  AtariEnvironment.scripted_step
                    (AtariEnvironment.env AtariEnvironment.scripted_e0) native
                  = (AtariEnvironment.env e', (frame0, r, terminal)))
  /\ GO 2 = one_hot 3 2
  /\ is_stop 2 (GO 2) = true
  /\ AtariEnvironment.scripted_next AtariEnvironment.scripted_e0 (GO 2)
     = Raise IndexError.
Proof.
  apply (@tokens_as_actions nat AtariEnvironment.scripted_ndim
           AtariEnvironment.scripted_rgb2gray AtariEnvironment.scripted_resize
           (list Z) AtariEnvironment.scripted_step (fun g => g)
           AtariEnvironment.scripted_lives 2 AtariEnvironment.scripted_e0).
  reflexivity.
Defined.

(** After a reset the wrapper executes the token of action [1] and
    refuses the stop token. *)
Example token_of_action_one :
  let e1 := fst (AtariEnvironment.scripted_get_initial_state
                   AtariEnvironment.scripted_e0) in
  match AtariEnvironment.scripted_next e1 (one_hot 3 1) with
  | Ret (e2, _) =>
      AtariEnvironment.sim (AtariEnvironment.env e2) = [1%Z]
      /\ AtariEnvironment.scripted_next e2 (one_hot 3 2) = Raise IndexError
  | _ => False
  end.
Proof. vm_compute. split; reflexivity. Qed.

End ActionSequenceA3CLearner.
